(** * tooldiscovery: a shallow embedding of the discovery, search, semantic,
    registry and provider packages, and the properties of their spec. *)

From Stdlib Require Import Ascii String QArith Floats.
From stdpp Require Import base list gmap strings sorting.

Open Scope string_scope.
Set Warnings "-register-all".

(** ** Go strings

    A Go string is a byte string; [String.string] over [ascii] is one. Go's
    [<] on strings is lexicographic byte order, which is [String.compare]
    (via [Ascii.compare], itself the order on byte values). *)

Definition str_lt (a b : string) : bool :=
  match String.compare a b with Lt => true | _ => false end.

Definition str_le (a b : string) : Prop := String.leb a b = true.

#[export] Instance str_le_dec : RelDecision str_le.
Proof. intros a b. unfold str_le. apply _. Defined.

(** The NUL byte ("\x00") and the byte "\x01" used as separators. *)
Definition NUL : string := String (ascii_of_nat 0) EmptyString.
Definition SOH : string := String (ascii_of_nat 1) EmptyString.

(** Go [strings.Join]. *)
Fixpoint join (sep : string) (l : list string) : string :=
  match l with
  | [] => ""
  | [x] => x
  | x :: r => x ++ sep ++ join sep r
  end.

(** ** index package data model: Summary and SearchDoc *)

Record Summary := mkSummary {
  sum_ID : string;
  sum_Name : string;
  sum_Namespace : string;
  sum_ShortDescription : string;
  sum_Summary : string;
  sum_Category : string;
  sum_InputModes : list string;
  sum_OutputModes : list string;
  sum_SecuritySummary : string;
  sum_Tags : list string
}.

Record SearchDoc := mkSearchDoc {
  sd_ID : string;
  sd_DocText : string;
  sd_Summary : Summary
}.

(** index.MaxShortDescriptionLen *)
Definition MaxShortDescriptionLen : nat := 120.

(** ** semantic package: Document and the adapter (semantic/adapter.go) *)

Record Document := mkDocument {
  doc_ID : string;
  doc_Name : string;
  doc_Namespace : string;
  doc_Description : string;
  doc_Tags : list string;
  doc_Category : string;
  doc_Text : string
}.

(** Go's [copy] into a fresh slice when [len > 0], nil otherwise: the same
    element sequence either way. *)
Definition copy_tags (tags : list string) : list string :=
  match tags with [] => [] | _ => tags end.

Definition DocumentFromSearchDoc (d : SearchDoc) : Document :=
  {| doc_ID := sd_ID d;
     doc_Name := sum_Name (sd_Summary d);
     doc_Namespace := sum_Namespace (sd_Summary d);
     doc_Description := sum_ShortDescription (sd_Summary d);
     doc_Tags := copy_tags (sum_Tags (sd_Summary d));
     doc_Category := "";
     doc_Text := sd_DocText d |}.

Definition DocumentsFromSearchDocs (docs : list SearchDoc) : list Document :=
  map DocumentFromSearchDoc docs.

Section Adapter.
(** [Document.Normalized] (semantic/document.go) lies outside the sources;
    every statement below holds for any normalisation function. *)
Variable Normalized : Document -> Document.

Definition buildDocText (d : Document) : string := doc_Text (Normalized d).

Definition SearchDocFromDocument (d : Document) : SearchDoc :=
  let tags := copy_tags (doc_Tags d) in
  let shortDesc :=
    if Nat.ltb MaxShortDescriptionLen (String.length (doc_Description d))
    then String.substring 0 MaxShortDescriptionLen (doc_Description d)
    else doc_Description d in
  let docText := if String.eqb (doc_Text d) "" then buildDocText d else doc_Text d in
  {| sd_ID := doc_ID d;
     sd_DocText := docText;
     sd_Summary := {| sum_ID := doc_ID d;
                      sum_Name := doc_Name d;
                      sum_Namespace := doc_Namespace d;
                      sum_ShortDescription := shortDesc;
                      sum_Summary := "";
                      sum_Category := "";
                      sum_InputModes := [];
                      sum_OutputModes := [];
                      sum_SecuritySummary := "";
                      sum_Tags := tags |} |}.
End Adapter.

(** ** search package: the BM25 index fingerprint (search/fingerprint.go)

    Go's [slices.Sort] on strings. Strings are totally ordered, and two
    strings equal in that order are identical, so every correct sort gives
    the same output; stdpp's [merge_sort] is one. *)
Definition sort_strings (l : list string) : list string := merge_sort str_le l.

(** The fields written for one document, each followed by a NUL byte. *)
Definition fingerprint_fields (d : SearchDoc) : list string :=
  let s := sd_Summary d in
  [ sd_ID d; sd_DocText d;
    sum_ID s; sum_Name s; sum_Namespace s; sum_ShortDescription s;
    sum_Summary s; sum_Category s;
    join SOH (sum_InputModes s); join SOH (sum_OutputModes s);
    sum_SecuritySummary s;
    join SOH (sort_strings (sum_Tags s)) ].

Fixpoint terminated (fs : list string) : string :=
  match fs with
  | [] => ""
  | f :: r => f ++ NUL ++ terminated r
  end.

(** The byte stream written into the SHA-256 hasher, in write order. *)
Fixpoint fingerprint_bytes (docs : list SearchDoc) : string :=
  match docs with
  | [] => ""
  | d :: r => terminated (fingerprint_fields d) ++ fingerprint_bytes r
  end.

(** [computeFingerprint]: [hex.EncodeToString(sha256.Sum(bytes))]; the hash
    and the hex encoding are Go's standard library, taken as a parameter. *)
Definition computeFingerprint (sha256_hex : string -> string) (docs : list SearchDoc) : string :=
  sha256_hex (fingerprint_bytes docs).

(** ** Errors and fallible results *)

Inductive error :=
  | ErrInvalidEmbedder
  | ErrInvalidHybridConfig
  | ErrArgsTooLarge
  | ErrInvalidTool
  | ErrInvalidBackend
  | ErrNotFound
  | ErrInvalidProvider
  | ErrInvalidProviderID
  | ErrAlreadyStarted
  | ErrBackendNotFound
  | ErrNotStarted
  | ErrToolNotFound (name : string)
  | ErrHandlerNotFound (toolID : string)
  | ErrInvalidRequest
  | ErrDisconnect (backend : string)
  | ErrExecutionFailed (msg : string)
  | ErrConnect (backend : string)
  | ErrRegisterBackendTools (backend : string)
  | ErrOther (msg : string).

Inductive result (A : Type) :=
  | Ok (a : A)
  | Err (e : error).
Arguments Ok {A} a.
Arguments Err {A} e.

(** ** Scores

    Go scores are [float64]. The searchers only add, subtract and multiply
    them and compare them with [<], [>] and [==]; the operations are a class
    so that the searchers can be read at [float] (Rocq's primitive binary64
    floats, IEEE 754 like Go's) and at any other number type. *)
Class ScoreOps (F : Type) := {
  f_zero : F;
  f_one : F;
  f_add : F -> F -> F;
  f_sub : F -> F -> F;
  f_mul : F -> F -> F;
  f_lt : F -> F -> bool;   (* Go [a < b]; [a > b] is [f_lt b a] *)
  f_eq : F -> F -> bool    (* Go [a == b] *)
}.

#[export] Instance float64_ops : ScoreOps float := {
  f_zero := 0%float;
  f_one := 1%float;
  f_add := PrimFloat.add;
  f_sub := PrimFloat.sub;
  f_mul := PrimFloat.mul;
  f_lt := PrimFloat.ltb;
  f_eq := PrimFloat.eqb
}.

(** ** discovery package: results and the composite searchers
    (discovery/composite.go, discovery/result.go) *)

Inductive ScoreType := ScoreBM25 | ScoreEmbedding | ScoreHybrid.

Record Result (F : Type) := mkResult {
  res_Summary : Summary;
  res_Score : F;
  res_ScoreType : ScoreType
}.
Arguments mkResult {F}.
Arguments res_Summary {F}.
Arguments res_Score {F}.
Arguments res_ScoreType {F}.

(** [semantic.Strategy]: [Score(ctx, query, doc) (float64, error)]. *)
Definition Strategy (F : Type) := string -> Document -> result F.

Record scoredDoc (F : Type) := mkScoredDoc { sc_idx : nat; sc_score : F }.
Arguments mkScoredDoc {F}.
Arguments sc_idx {F}.
Arguments sc_score {F}.

Record HybridSearcher (F : Type) := mkHybridSearcher {
  bm25Strategy : Strategy F;
  embeddingStrategy : Strategy F;
  alpha : F
}.
Arguments mkHybridSearcher {F}.
Arguments bm25Strategy {F}.
Arguments embeddingStrategy {F}.
Arguments alpha {F}.

Record BM25OnlySearcher (F : Type) := mkBM25OnlySearcher { strategy : Strategy F }.
Arguments mkBM25OnlySearcher {F}.
Arguments strategy {F}.

Record HybridOptions (Scorer Emb F : Type) := mkHybridOptions {
  ho_BM25Scorer : option Scorer;
  ho_Embedder : option Emb;
  ho_Alpha : F
}.
Arguments mkHybridOptions {Scorer Emb F}.
Arguments ho_BM25Scorer {Scorer Emb F}.
Arguments ho_Embedder {Scorer Emb F}.
Arguments ho_Alpha {Scorer Emb F}.

#[export] Instance SearchDoc_inhabited : Inhabited SearchDoc :=
  populate (mkSearchDoc "" "" (mkSummary "" "" "" "" "" "" [] [] "" [])).

Section Sorting.
Context {F : Type} `{!ScoreOps F}.
Variable docs : list SearchDoc.

Definition id_at (i : nat) : string := sd_ID (docs !!! i).

(** The swap test of [sortScoredDocs]: [b] (at [j]) goes before [a] (at [i]). *)
Definition swap_needed (b a : scoredDoc F) : bool :=
  f_lt (sc_score a) (sc_score b)
  || (f_eq (sc_score b) (sc_score a) && str_lt (id_at (sc_idx b)) (id_at (sc_idx a))).

Definition swap_step (i j : nat) (l : list (scoredDoc F)) : list (scoredDoc F) :=
  match l !! i, l !! j with
  | Some a, Some b => if swap_needed b a then <[i:=b]> (<[j:=a]> l) else l
  | _, _ => l
  end.

(** [for j := i + 1; j < len(scored); j++] *)
Fixpoint inner_loop (i j fuel : nat) (l : list (scoredDoc F)) : list (scoredDoc F) :=
  match fuel with
  | O => l
  | S f => inner_loop i (S j) f (swap_step i j l)
  end.

(** [for i := 0; i < len(scored)-1; i++] *)
Fixpoint outer_loop (i fuel : nat) (l : list (scoredDoc F)) : list (scoredDoc F) :=
  match fuel with
  | O => l
  | S f => outer_loop (S i) f (inner_loop i (S i) (length l - S i) l)
  end.

Definition sortScoredDocs (scored : list (scoredDoc F)) : list (scoredDoc F) :=
  outer_loop 0 (length scored - 1) scored.

(** [if len(scored) > limit { scored = scored[:limit] }], then the results. *)
Definition truncate (limit : Z) (scored : list (scoredDoc F)) : list (scoredDoc F) :=
  if (limit <? Z.of_nat (length scored))%Z then take (Z.to_nat limit) scored else scored.

Definition build_results (st : ScoreType) (scored : list (scoredDoc F)) : list (Result F) :=
  map (fun s => mkResult (sd_Summary (docs !!! sc_idx s)) (sc_score s) st) scored.

(** A structural reading of the loops, used to reason about them: one run
    of the inner loop carries the best element seen so far in position
    [i] and leaves the others behind it in order ([inner_pass]); the outer
    loop repeats this on the suffix ([sel], a selection sort). *)
Fixpoint inner_pass (h : scoredDoc F) (t : list (scoredDoc F)) : scoredDoc F * list (scoredDoc F) :=
  match t with
  | [] => (h, [])
  | x :: r =>
      if swap_needed x h
      then let p := inner_pass x r in (p.1, h :: p.2)
      else let p := inner_pass h r in (p.1, x :: p.2)
  end.

Fixpoint sel (n : nat) (l : list (scoredDoc F)) : list (scoredDoc F) :=
  match n, l with
  | O, _ => l
  | S _, [] => []
  | S m, h :: t => let p := inner_pass h t in p.1 :: sel m p.2
  end.
End Sorting.

(** The order the spec requires of search results, read from its words:
    score descending, and among equal scores id ascending ([a] may precede
    [b]). *)
Definition score_desc_id_asc {F} `{!ScoreOps F} (docs : list SearchDoc) (a b : scoredDoc F) : Prop :=
  f_lt (sc_score a) (sc_score b) = false /\
  (f_eq (sc_score a) (sc_score b) = true -> str_lt (id_at docs (sc_idx b)) (id_at docs (sc_idx a)) = false).

(** What the spec requires of a [SearchWithScores] result list: empty for
    [limit <= 0], at most [limit] entries, and the results of positively
    scored documents in that order. *)
Definition results_in_search_order {F} `{!ScoreOps F} (docs : list SearchDoc) (st : ScoreType)
    (limit : Z) (rs : list (Result F)) : Prop :=
  ((limit <= 0)%Z -> rs = []) /\ (Z.of_nat (length rs) <= Z.max 0 limit)%Z /\
  exists sl, rs = build_results docs st sl /\
    Forall (fun s => f_lt f_zero (sc_score s) = true) sl /\
    StronglySorted (score_desc_id_asc docs) sl.

Section Composite.
Context {F : Type} `{!ScoreOps F}.
(** The user-supplied BM25 scorer and embedder interfaces, and the
    semantic package's strategy constructors [NewBM25Strategy] and
    [NewEmbeddingStrategy] and [Document.Normalized], which lie outside
    the sources: the composite searchers are read for any of them. *)
Variables (BM25Scorer Embedder : Type).
Variable NewBM25Strategy : option BM25Scorer -> Strategy F.
Variable NewEmbeddingStrategy : Embedder -> Strategy F.
Variable Normalized : Document -> Document.

Definition NewHybridSearcher (opts : HybridOptions BM25Scorer Embedder F)
    : result (HybridSearcher F) :=
  match ho_Embedder opts with
  | None => Err ErrInvalidEmbedder
  | Some emb =>
      let a := ho_Alpha opts in
      if f_lt a f_zero || f_lt f_one a then Err ErrInvalidHybridConfig
      else Ok (mkHybridSearcher (NewBM25Strategy (ho_BM25Scorer opts))
                                (NewEmbeddingStrategy emb) a)
  end.

(** The scoring loop of [HybridSearcher.SearchWithScores]: the first
    strategy error fails the call; documents with a positive hybrid score
    are kept, in document order. *)
Fixpoint hybrid_score_docs (h : HybridSearcher F) (query : string) (i : nat)
    (ds : list Document) : result (list (scoredDoc F)) :=
  match ds with
  | [] => Ok []
  | d :: rest =>
      let normalized := Normalized d in
      match bm25Strategy h query normalized with
      | Err e => Err e
      | Ok bm25Score =>
        match embeddingStrategy h query normalized with
        | Err e => Err e
        | Ok embScore =>
          let hybridScore :=
            f_add (f_mul (alpha h) bm25Score) (f_mul (f_sub f_one (alpha h)) embScore) in
          match hybrid_score_docs h query (S i) rest with
          | Err e => Err e
          | Ok sc =>
              Ok (if f_lt f_zero hybridScore then mkScoredDoc i hybridScore :: sc else sc)
          end
        end
      end
  end.

Definition HybridSearchWithScores (h : HybridSearcher F) (query : string) (limit : Z)
    (docs : list SearchDoc) : result (list (Result F)) :=
  if (limit <=? 0)%Z then Ok []
  else
    match hybrid_score_docs h query 0 (DocumentsFromSearchDocs docs) with
    | Err e => Err e
    | Ok scored =>
        Ok (build_results docs ScoreHybrid (truncate limit (sortScoredDocs docs scored)))
    end.

Fixpoint bm25_score_docs (s : BM25OnlySearcher F) (query : string) (i : nat)
    (ds : list Document) : result (list (scoredDoc F)) :=
  match ds with
  | [] => Ok []
  | d :: rest =>
      match strategy s query (Normalized d) with
      | Err e => Err e
      | Ok score =>
          match bm25_score_docs s query (S i) rest with
          | Err e => Err e
          | Ok sc => Ok (if f_lt f_zero score then mkScoredDoc i score :: sc else sc)
          end
      end
  end.

Definition NewBM25OnlySearcher (scorer : option BM25Scorer) : BM25OnlySearcher F :=
  mkBM25OnlySearcher (NewBM25Strategy scorer).

Definition BM25OnlySearchWithScores (s : BM25OnlySearcher F) (query : string) (limit : Z)
    (docs : list SearchDoc) : result (list (Result F)) :=
  if (limit <=? 0)%Z then Ok []
  else
    match bm25_score_docs s query 0 (DocumentsFromSearchDocs docs) with
    | Err e => Err e
    | Ok scored =>
        Ok (build_results docs ScoreBM25 (truncate limit (sortScoredDocs docs scored)))
    end.
End Composite.

(** ** The semantic strategies at [float64] *)

Definition lower_ascii (c : ascii) : ascii :=
  let n := nat_of_ascii c in
  if (Nat.leb 65 n && Nat.leb n 90)%bool then ascii_of_nat (n + 32) else c.

Fixpoint lower (s : string) : string :=
  match s with
  | EmptyString => EmptyString
  | String c r => String (lower_ascii c) (lower r)
  end.

(** Split on spaces, dropping empty tokens ([strings.Fields] on ASCII). *)
Fixpoint fields_acc (cur : string) (s : string) : list string :=
  match s with
  | EmptyString => if String.eqb cur "" then [] else [cur]
  | String c r =>
      if Ascii.eqb c " "%char
      then (if String.eqb cur "" then [] else [cur]) ++ fields_acc "" r
      else fields_acc (cur ++ String c EmptyString) r
  end.
Definition tokens (s : string) : list string := fields_acc "" (lower s).

(** Modelled from the spec: the default BM25 scorer used by
    [semantic.NewBM25Strategy(nil)] (semantic/strategy.go is not among the
    sources). Following the semantic package's tests, it counts the query
    tokens that occur among the document's tokens, case-insensitively; an
    empty query scores 0. *)
Definition defaultBM25Score (query : string) (d : Document) : float :=
  let dt := tokens (doc_Text d) in
  fold_left (fun acc q => if existsb (String.eqb q) dt then (acc + 1)%float else acc)
            (tokens query) 0%float.

(** A [semantic.BM25Scorer]: [Score(query, doc) float64]. *)
Definition BM25ScorerF := string -> Document -> float.
(** A [semantic.Embedder]: [Embed(ctx, text) ([]float32, error)]. *)
Definition EmbedderF := string -> result (list float).

(** Modelled from the spec: [semantic.NewBM25Strategy]; a nil scorer means
    the default scorer. *)
Definition NewBM25StrategyF (scorer : option BM25ScorerF) : Strategy float :=
  fun q d => Ok (match scorer with Some s => s q d | None => defaultBM25Score q d end).

Fixpoint dotf (a b : list float) : float :=
  match a, b with
  | x :: a', y :: b' => (x * y + dotf a' b')%float
  | _, _ => 0%float
  end.

(** Modelled from the spec: cosine similarity, 0 for vectors of unequal
    length, empty vectors and zero-norm vectors. *)
Definition cosineSimilarity (a b : list float) : float :=
  if negb (Nat.eqb (length a) (length b)) || Nat.eqb (length a) 0 then 0%float
  else
    let na := dotf a a in
    let nb := dotf b b in
    if PrimFloat.eqb na 0 || PrimFloat.eqb nb 0 then 0%float
    else (dotf a b / (PrimFloat.sqrt na * PrimFloat.sqrt nb))%float.

(** Modelled from the spec: [semantic.NewEmbeddingStrategy]: embed the query
    once, embed the document text, score by cosine similarity; an embedder
    error fails the score. *)
Definition NewEmbeddingStrategyF (emb : EmbedderF) : Strategy float :=
  fun q d =>
    match emb q with
    | Err e => Err e
    | Ok qv => match emb (doc_Text d) with
               | Err e => Err e
               | Ok dv => Ok (cosineSimilarity qv dv)
               end
    end.

Definition NewHybridSearcherF :=
  NewHybridSearcher BM25ScorerF EmbedderF NewBM25StrategyF NewEmbeddingStrategyF.

(** ** model package: tools and backends (toolfoundation, not among the
    sources) *)

Record Tool := mkTool {
  t_Name : string;
  t_Namespace : string;
  t_Version : string;
  t_Description : string;
  t_InputSchema : option string;   (* JSON text of the schema; None is nil *)
  t_Tags : list string
}.

Inductive ToolBackend :=
  | LocalBackend (name : string)
  | MCPBackend (serverName : string)
  | ProviderBackend (providerID toolID : string)
  | NoKindBackend.

(** Modelled from the spec: [Tool.ToolID], the canonical id
    [namespace:name:version], [namespace:name] or [name]. *)
Definition ToolID (t : Tool) : string :=
  if String.eqb (t_Namespace t) "" then t_Name t
  else if String.eqb (t_Version t) "" then t_Namespace t ++ ":" ++ t_Name t
  else t_Namespace t ++ ":" ++ t_Name t ++ ":" ++ t_Version t.

(** Modelled from the spec: [Tool.Validate] rejects an empty name and a
    missing input schema. *)
Definition tool_valid (t : Tool) : bool :=
  negb (String.eqb (t_Name t) "") && match t_InputSchema t with Some _ => true | None => false end.

(** Modelled from the spec: backend validation rejects a missing kind and an
    empty discriminator. *)
Definition backend_valid (b : ToolBackend) : bool :=
  match b with
  | LocalBackend n => negb (String.eqb n "")
  | MCPBackend s => negb (String.eqb s "")
  | ProviderBackend p t => negb (String.eqb p "") && negb (String.eqb t "")
  | NoKindBackend => false
  end.

(** Modelled from the spec: the backend identity string. *)
Definition backend_identity (b : ToolBackend) : string :=
  match b with
  | LocalBackend n => "local/" ++ n
  | MCPBackend s => "mcp/" ++ s
  | ProviderBackend p t => "provider/" ++ p ++ NUL ++ t
  | NoKindBackend => ""
  end.

Definition option_string_eqb (a b : option string) : bool :=
  match a, b with
  | Some x, Some y => String.eqb x y
  | None, None => true
  | _, _ => false
  end.

(** The MCP-visible fields of the modelled tool: name, description, schema. *)
Definition mcp_fields_equal (a b : Tool) : bool :=
  String.eqb (t_Name a) (t_Name b) && String.eqb (t_Description a) (t_Description b)
  && option_string_eqb (t_InputSchema a) (t_InputSchema b).

(** ** index package: the in-memory index (index/memory.go is not among the
    sources; modelled from the spec, section 4.2) *)

Record ToolRecord := mkToolRecord {
  rec_tool : Tool;
  rec_backends : list (string * ToolBackend)   (* keyed by identity, insertion order *)
}.

Record Index := mkIndex {
  idx_tools : gmap string ToolRecord;
  idx_version : nat
}.

Definition emptyIndex : Index := mkIndex ∅ 0.

Fixpoint replace_or_add (k : string) (b : ToolBackend) (bs : list (string * ToolBackend))
    : list (string * ToolBackend) :=
  match bs with
  | [] => [(k, b)]
  | (k', b') :: r => if String.eqb k k' then (k, b) :: r else (k', b') :: replace_or_add k b r
  end.

(** Modelled from the spec: [InMemoryIndex.RegisterTool]: validate tool and
    backend, check the MCP-visible fields against a stored record, replace or
    add the backend by identity, take the new tags and version, bump the
    index version. Nothing changes on failure. *)
Definition IndexRegisterTool (idx : Index) (t : Tool) (b : ToolBackend) : result Index :=
  if negb (tool_valid t) then Err ErrInvalidTool
  else if negb (backend_valid b) then Err ErrInvalidBackend
  else
    let id := ToolID t in
    let k := backend_identity b in
    match idx_tools idx !! id with
    | Some r =>
        if mcp_fields_equal (rec_tool r) t
        then Ok (mkIndex (<[id := mkToolRecord t (replace_or_add k b (rec_backends r))]> (idx_tools idx))
                         (S (idx_version idx)))
        else Err ErrInvalidTool
    | None => Ok (mkIndex (<[id := mkToolRecord t [(k, b)]]> (idx_tools idx)) (S (idx_version idx)))
    end.

(** Modelled from the spec: [RegisterToolsFromMCP]: validate every tool,
    then register each under an MCP backend for the server. Validation
    failure changes nothing; an application failure (not expected after
    validation) is returned with the registrations made before it. *)
Fixpoint register_each (idx : Index) (server : string) (ts : list Tool) : result unit * Index :=
  match ts with
  | [] => (Ok tt, idx)
  | t :: r => match IndexRegisterTool idx t (MCPBackend server) with
              | Err e => (Err e, idx)
              | Ok idx' => register_each idx' server r
              end
  end.

Definition RegisterToolsFromMCP (idx : Index) (server : string) (ts : list Tool) : result unit * Index :=
  if negb (backend_valid (MCPBackend server)) then (Err ErrInvalidBackend, idx)
  else if negb (forallb tool_valid ts) then (Err ErrInvalidTool, idx)
  else register_each idx server ts.

(** ** tooldoc package: the documentation store (tooldoc/store.go is not
    among the sources; modelled from the spec, section 4.4, and the package
    documentation in tooldoc/doc.go) *)

(** A JSON value as decoded into Go's [any]. *)
Inductive JValue :=
  | JNull
  | JBool (b : bool)
  | JNum (n : Z)
  | JStr (s : string)
  | JArr (items : list JValue)
  | JObj (fields : list (string * JValue)).

Definition MaxArgsDepth : nat := 5.
Definition MaxArgsKeys : nat := 50.

(** Nesting depth: each map or slice adds one level. *)
Fixpoint jdepth (v : JValue) : nat :=
  match v with
  | JArr items => S (fold_right Nat.max 0 (map jdepth items))
  | JObj fs => S (fold_right Nat.max 0 (map (fun kv => jdepth (snd kv)) fs))
  | _ => 0
  end.

(** Total size: map keys plus slice items, across all levels. *)
Fixpoint jsize (v : JValue) : nat :=
  match v with
  | JArr items => length items + fold_right Nat.add 0 (map jsize items)
  | JObj fs => length fs + fold_right Nat.add 0 (map (fun kv => jsize (snd kv)) fs)
  | _ => 0
  end.

Record ToolExample := mkToolExample {
  ex_Title : string;
  ex_Description : string;
  ex_Args : list (string * JValue);   (* map[string]any *)
  ex_ResultHint : string
}.

Record DocEntry := mkDocEntry {
  de_Summary : string;
  de_Notes : string;
  de_Examples : list ToolExample
}.

(** Modelled from the spec: example args validation, depth <= 5 and total
    size <= 50, the args map itself being the first level. *)
Definition args_valid (args : list (string * JValue)) : bool :=
  Nat.leb (jdepth (JObj args)) MaxArgsDepth && Nat.leb (jsize (JObj args)) MaxArgsKeys.

Definition truncate_str (n : nat) (s : string) : string :=
  if Nat.ltb n (String.length s) then String.substring 0 n s else s.

Definition cap_example (e : ToolExample) : ToolExample :=
  mkToolExample (ex_Title e) (truncate_str 300 (ex_Description e)) (ex_Args e)
                (truncate_str 200 (ex_ResultHint e)).

Abbreviation DocStore := (gmap string DocEntry).

(** Modelled from the spec: [InMemoryStore.RegisterDoc]: fail with
    ArgsTooLarge if any example's args exceed the caps, otherwise store the
    entry with its text fields truncated. *)
Definition RegisterDoc (docs : DocStore) (toolID : string) (de : DocEntry) : result DocStore :=
  if negb (forallb (fun e => args_valid (ex_Args e)) (de_Examples de)) then Err ErrArgsTooLarge
  else Ok (<[toolID := mkDocEntry (truncate_str 200 (de_Summary de)) (truncate_str 2000 (de_Notes de))
                                  (map cap_example (de_Examples de))]> docs).

(** ** discovery package: the facade (discovery/discovery.go) *)

Inductive SearcherChoice :=
  | SearchHybrid (h : HybridSearcher float)
  | SearchCustom                      (* opts.Searcher *)
  | SearchBM25Default.                (* search.NewBM25Searcher(opts.BM25Config) *)

Record Options := mkOptions {
  opt_Index : option Index;          (* opts.Index; None is nil, a supplied index by its state *)
  opt_Searcher : bool;               (* whether opts.Searcher is non-nil *)
  opt_Embedder : option EmbedderF;
  opt_HybridAlpha : float;
  opt_MaxExamples : Z
}.

Record Discovery := mkDiscovery {
  d_idx : Index;
  d_searcher : SearcherChoice;
  d_scoreType : ScoreType;
  d_docs : DocStore;
  d_maxExamples : Z
}.

(** [discovery.New]; the doc store it builds is always a new, empty one. *)
Definition New (opts : Options) : result Discovery :=
  let idx := match opt_Index opts with Some i => i | None => emptyIndex end in
  let maxExamples := if (opt_MaxExamples opts =? 0)%Z then 10%Z else opt_MaxExamples opts in
  match opt_Embedder opts with
  | Some emb =>
      let a := opt_HybridAlpha opts in
      let a := if PrimFloat.eqb a 0 then 0.5%float else a in
      match NewHybridSearcherF (mkHybridOptions None (Some emb) a) with
      | Err e => Err e
      | Ok h => Ok (mkDiscovery idx (SearchHybrid h) ScoreHybrid ∅ maxExamples)
      end
  | None =>
      if opt_Searcher opts
      then Ok (mkDiscovery idx SearchCustom ScoreBM25 ∅ maxExamples)
      else Ok (mkDiscovery idx SearchBM25Default ScoreBM25 ∅ maxExamples)
  end.

(** [Discovery.RegisterTool]: the index first, then the optional doc entry. *)
Definition DiscoveryRegisterTool (d : Discovery) (t : Tool) (b : ToolBackend) (doc : option DocEntry)
    : result unit * Discovery :=
  match IndexRegisterTool (d_idx d) t b with
  | Err e => (Err e, d)
  | Ok idx' =>
      let d1 := mkDiscovery idx' (d_searcher d) (d_scoreType d) (d_docs d) (d_maxExamples d) in
      match doc with
      | None => (Ok tt, d1)
      | Some de =>
          match RegisterDoc (d_docs d1) (ToolID t) de with
          | Err e => (Err e, d1)
          | Ok docs' => (Ok tt, mkDiscovery idx' (d_searcher d) (d_scoreType d) docs' (d_maxExamples d))
          end
      end
  end.

(** ** registry package: MCP backends and the registry lifecycle
    (registry/registry.go, registry/mcp_backend.go) *)

(** An MCP server's reply to [Connect] followed by [ListTools], for the
    backend of a given name: the listed tools or the error. The MCP client
    library is outside the system. *)
Definition MCPServers := string -> result (list Tool).

Record mcpBackend := mkMcpBackend {
  b_connected : bool;
  b_tools : list Tool
}.

Record Registry := mkRegistry {
  r_started : bool;
  r_backends : list (string * mcpBackend);   (* the map, in iteration order *)
  r_index : Index
}.

Fixpoint lookup_backend (n : string) (bs : list (string * mcpBackend)) : option mcpBackend :=
  match bs with
  | [] => None
  | (m, b) :: r => if String.eqb n m then Some b else lookup_backend n r
  end.

(** [*mcpBackend] is shared between the registry's map and Start's copy of
    it: an update through the pointer is an update of the map entry. *)
Definition update_backend (n : string) (f : mcpBackend -> mcpBackend)
    (bs : list (string * mcpBackend)) : list (string * mcpBackend) :=
  map (fun mb => if String.eqb n (fst mb) then (fst mb, f (snd mb)) else mb) bs.

Definition with_backends (r : Registry) (bs : list (string * mcpBackend)) : Registry :=
  mkRegistry (r_started r) bs (r_index r).
Definition with_index (r : Registry) (idx : Index) : Registry :=
  mkRegistry (r_started r) (r_backends r) idx.
Definition with_started (r : Registry) (s : bool) : Registry :=
  mkRegistry s (r_backends r) (r_index r).

(** [mcpBackend.connect]: no-op when connected; otherwise connect and list the
    tools (a failed [ListTools] closes the session again). *)
Definition connect (servers : MCPServers) (n : string) (b : mcpBackend) : result mcpBackend :=
  if b_connected b then Ok b
  else match servers n with
       | Err e => Err e
       | Ok ts => Ok (mkMcpBackend true ts)
       end.

(** [mcpBackend.disconnect]; the tools snapshot is kept. *)
Definition disconnect (b : mcpBackend) : mcpBackend := mkMcpBackend false (b_tools b).

Definition disconnect_all (names : list string) (r : Registry) : Registry :=
  fold_left (fun r n => with_backends r (update_backend n disconnect (r_backends r))) names r.

(** The loop of [Registry.Start] over the copied backend map. *)
Fixpoint start_loop (servers : MCPServers) (names connected : list string) (r : Registry)
    : result unit * Registry :=
  match names with
  | [] => (Ok tt, r)
  | n :: rest =>
      match lookup_backend n (r_backends r) with
      | None => (Ok tt, r)   (* unreachable: names are the map's keys *)
      | Some b =>
          match connect servers n b with
          | Err _ => (Err (ErrConnect n), with_started (disconnect_all connected r) false)
          | Ok b' =>
              let r1 := with_backends r (update_backend n (fun _ => b') (r_backends r)) in
              let connected' := (connected ++ [n])%list in
              match RegisterToolsFromMCP (r_index r1) n (b_tools b') with
              | (Err _, idx') =>
                  (Err (ErrRegisterBackendTools n),
                   with_started (disconnect_all connected' (with_index r1 idx')) false)
              | (Ok _, idx') => start_loop servers rest connected' (with_index r1 idx')
              end
          end
      end
  end.

Definition Start (servers : MCPServers) (r : Registry) : result unit * Registry :=
  if r_started r then (Err ErrAlreadyStarted, r)
  else start_loop servers (map fst (r_backends r)) [] (with_started r true).

(** The loop of [Registry.Stop] over the copied backend map. [close n] is
    the reply of [session.Close()] for backend [n]; [mcpBackend.disconnect]
    only closes a connected backend, after marking it disconnected. *)
Fixpoint stop_loop (close : string -> result unit) (names : list string) (r : Registry)
    : result unit * Registry :=
  match names with
  | [] => (Ok tt, r)
  | n :: rest =>
      match lookup_backend n (r_backends r) with
      | None => (Ok tt, r)   (* unreachable: names are the map's keys *)
      | Some b =>
          if b_connected b then
            let r1 := with_backends r (update_backend n disconnect (r_backends r)) in
            match close n with
            | Err _ => (Err (ErrDisconnect n), r1)
            | Ok _ => stop_loop close rest r1
            end
          else stop_loop close rest r
      end
  end.

Definition Stop (close : string -> result unit) (r : Registry) : result unit * Registry :=
  if negb (r_started r) then (Ok tt, r)
  else stop_loop close (map fst (r_backends r)) (with_started r false).

Fixpoint first_disconnected (bs : list (string * mcpBackend)) : option string :=
  match bs with
  | [] => None
  | (n, b) :: rest => if negb (b_connected b) then Some n else first_disconnected rest
  end.

(** [Registry.HealthCheck]. *)
Definition HealthCheck (r : Registry) : result unit :=
  if negb (r_started r) then Err ErrNotStarted
  else match first_disconnected (r_backends r) with
       | Some n => Err (ErrOther ("backend " ++ n ++ " not connected"))
       | None => Ok tt
       end.

(** [Registry.RegisterMCP]; [TrimSpace] is [strings.TrimSpace]. A new
    backend starts disconnected with no tools. *)
Definition RegisterMCP (TrimSpace : string -> string) (servers : MCPServers) (name : string)
    (r : Registry) : result unit * Registry :=
  if String.eqb (TrimSpace name) "" then (Err ErrInvalidRequest, r)
  else match lookup_backend name (r_backends r) with
  | Some _ => (Err (ErrOther ("backend " ++ name ++ " already registered")), r)
  | None =>
      let b := mkMcpBackend false [] in
      let r1 := with_backends r (r_backends r ++ [(name, b)]) in
      if r_started r1 then
        match connect servers name b with
        | Err _ => (Err (ErrConnect name), r1)
        | Ok b' =>
            let r2 := with_backends r1 (update_backend name (fun _ => b') (r_backends r1)) in
            match RegisterToolsFromMCP (r_index r2) name (b_tools b') with
            | (Err _, idx') =>
                (Err (ErrRegisterBackendTools name),
                 with_index (with_backends r2 (update_backend name disconnect (r_backends r2))) idx')
            | (Ok _, idx') => (Ok tt, with_index r2 idx')
            end
        end
      else (Ok tt, r1)
  end.

(** *** Tool-call results (mcpBackend.callTool, toolResultValue, toolResultError) *)

Inductive Content :=
  | TextContent (text : string)
  | OtherContent (kind : string).     (* image, audio, resource, ... *)

Record CallToolResult := mkCallToolResult {
  IsError : bool;
  StructuredContent : option JValue;  (* None is a nil [any] *)
  ResultContent : list Content
}.

Inductive Value :=
  | VNil
  | VStructured (v : JValue)
  | VText (s : string)
  | VContent (c : list Content).

Definition toolResultValue (res : option CallToolResult) : Value :=
  match res with
  | None => VNil
  | Some r =>
      match StructuredContent r with
      | Some v => VStructured v
      | None =>
          match ResultContent r with
          | [TextContent t] => VText t
          | c => VContent c
          end
      end
  end.

Section CallTool.
(** [fmt.Sprintf("%v", v)] of the structured content. *)
Variable sprint_v : JValue -> string.

Fixpoint first_text (cs : list Content) : option string :=
  match cs with
  | [] => None
  | TextContent t :: r => if String.eqb t "" then first_text r else Some t
  | OtherContent _ :: r => first_text r
  end.

Definition toolResultError (res : option CallToolResult) : string :=
  match res with
  | None => "tool execution failed"
  | Some r =>
      match first_text (ResultContent r) with
      | Some t => t
      | None => match StructuredContent r with
                | Some v => sprint_v v
                | None => "tool execution failed"
                end
      end
  end.

(** [callTool]: [call] is the session's [CallTool] reply (an error
    message or a possibly nil result). *)
Definition callTool (b : mcpBackend) (call : sum string (option CallToolResult)) : result Value :=
  if negb (b_connected b) then Err ErrBackendNotFound
  else match call with
       | inl msg => Err (ErrExecutionFailed msg)
       | inr None => Ok VNil
       | inr (Some r) =>
           if IsError r then Err (ErrExecutionFailed (toolResultError (Some r)))
           else Ok (toolResultValue (Some r))
       end.
End CallTool.

(** *** Tool execution (Registry.Execute) and the [tools/call] handler *)

(** The index's [GetTool(name)] (index/memory.go is not among the sources):
    the tool and its default backend, if any. The arguments of a call, a
    [map[string]any], are kept as key/value pairs; a local handler maps them
    to its outcome. *)
Definition IndexGetTool := string -> option (Tool * ToolBackend).
Definition CallArgs := list (string * JValue).
Definition Handlers := string -> option (CallArgs -> result Value).
(** The session's [CallTool] reply for a server, a tool name and the
    arguments. *)
Definition MCPCalls := string -> string -> CallArgs -> sum string (option CallToolResult).

(** [Registry.Execute]; the MCP backend in the model always names its
    server, so the [backend.MCP == nil] case does not arise. *)
Definition Execute (sprint_v : JValue -> string) (getTool : IndexGetTool) (handlers : Handlers)
    (calls : MCPCalls) (r : Registry) (name : string) (args : CallArgs) : result Value :=
  match getTool name with
  | None => Err (ErrToolNotFound name)
  | Some (t, b) =>
      match b with
      | LocalBackend _ =>
          match handlers (ToolID t) with
          | None => Err (ErrHandlerNotFound (ToolID t))
          | Some handler => handler args
          end
      | MCPBackend server =>
          match lookup_backend server (r_backends r) with
          | None => Err ErrBackendNotFound
          | Some mb => callTool sprint_v mb (calls server (t_Name t) args)
          end
      | _ => Err ErrInvalidRequest
      end
  end.

Definition ErrCodeInvalidParams : Z := (-32602)%Z.
Definition ErrCodeToolNotFound : Z := (-32001)%Z.
Definition ErrCodeToolExecFailed : Z := (-32002)%Z.

(** [errors.Is(err, ErrToolNotFound)]. *)
Definition is_tool_not_found (e : error) : bool :=
  match e with ErrToolNotFound _ => true | _ => false end.

(** The result or the error object of an [MCPResponse]; the message is
    [err.Error()] of the error kept here. *)
Inductive MCPReply :=
  | RpcResult (v : Value)
  | RpcError (code : Z) (e : error).

(** [toolsCallParams], the decoded [params] of a [tools/call] request. *)
Record toolsCallParams := mktoolsCallParams {
  tcp_Name : string;
  tcp_Arguments : CallArgs
}.

(** [json.Unmarshal(params, &callParams)] (encoding/json): the decoded
    parameters, or the decoder's error message. *)
Definition Unmarshal := string -> sum string toolsCallParams.

(** [handleToolsCall]; the decoder's error is kept as [ErrOther]. *)
Definition handleToolsCall (unmarshal : Unmarshal) (sprint_v : JValue -> string) (getTool : IndexGetTool)
    (handlers : Handlers) (calls : MCPCalls) (r : Registry) (params : string) : MCPReply :=
  match unmarshal params with
  | inl msg => RpcError ErrCodeInvalidParams (ErrOther msg)
  | inr callParams =>
      match Execute sprint_v getTool handlers calls r (tcp_Name callParams) (tcp_Arguments callParams) with
      | Err e => RpcError (if is_tool_not_found e then ErrCodeToolNotFound else ErrCodeToolExecFailed) e
      | Ok v => RpcResult v
      end
  end.

(** ** provider package: the provider registry (provider/store.go) *)

Record CanonicalProvider := mkCanonicalProvider {
  p_Name : string;
  p_Description : string;
  p_Version : string
}.

Definition zeroProvider : CanonicalProvider := mkCanonicalProvider "" "" "".

Abbreviation ProviderStore := (gmap string CanonicalProvider).

Definition ProviderID (name version : string) : string :=
  if String.eqb name "" then ""
  else if String.eqb version "" then name
  else name ++ ":" ++ version.

Definition RegisterProvider (s : ProviderStore) (id : string) (p : CanonicalProvider)
    : result string * ProviderStore :=
  if String.eqb (p_Name p) "" then (Err ErrInvalidProvider, s)
  else
    let id := if String.eqb id "" then ProviderID (p_Name p) (p_Version p) else id in
    if String.eqb id "" then (Err ErrInvalidProviderID, s)
    else (Ok id, <[id := p]> s).

Definition DescribeProvider (s : ProviderStore) (id : string) : result CanonicalProvider :=
  if String.eqb id "" then Err ErrInvalidProviderID
  else match s !! id with
       | Some p => Ok p
       | None => Err ErrNotFound
       end.

(** [ListProviders] with [ids] the order in which the map was ranged over. *)
Definition ListProviders_in (ids : list string) (s : ProviderStore) : list CanonicalProvider :=
  map (fun id => default zeroProvider (s !! id)) (sort_strings ids).

(** [ListProviders], ranging over the map in [map_to_list] order. *)
Definition ListProviders (s : ProviderStore) : list CanonicalProvider :=
  ListProviders_in (map fst (map_to_list s)) s.

(** * Properties *)

(** ** Sanity checks of the embedding on small inputs *)

Example ToolID_ns : ToolID (mkTool "status" "git" "" "d" (Some "{}") []) = "git:status".
Proof. reflexivity. Qed.

Example ProviderID_version : ProviderID "agent" "1.0.0" = "agent:1.0.0".
Proof. reflexivity. Qed.

Example defaultBM25_two : defaultBM25Score "hello world"
  (mkDocument "t" "" "" "" [] "" "hello world hello") = 2%float.
Proof. vm_compute. reflexivity. Qed.

Example defaultBM25_empty_query : defaultBM25Score ""
  (mkDocument "t" "" "" "" [] "" "hello world") = 0%float.
Proof. vm_compute. reflexivity. Qed.

Example cosine_zero : cosineSimilarity [0%float; 0%float] [1%float; 0%float] = 0%float.
Proof. vm_compute. reflexivity. Qed.

Example cosine_same : cosineSimilarity [1%float; 0%float] [1%float; 0%float] = 1%float.
Proof. vm_compute. reflexivity. Qed.

Example join_three : join SOH ["a"; "b"; "c"] = "a" ++ SOH ++ "b" ++ SOH ++ "c".
Proof. reflexivity. Qed.

Example sort_strings_ex : sort_strings ["beta"; "alpha"; "gamma"] = ["alpha"; "beta"; "gamma"].
Proof. vm_compute. reflexivity. Qed.

Example depth_nested : jdepth (JObj [("nested", JObj [("leaf", JStr "value")])]) = 2.
Proof. reflexivity. Qed.

(** ** C3: the SearchDoc / Document round trip *)

Definition sd_with_summary : SearchDoc :=
  mkSearchDoc "git:status" "status git"
    (mkSummary "git:status" "status" "git" "Show status" "Show status" "vcs"
               ["text"] ["json"] "read-only" ["vcs"]).

(** C3 (counterexample): the round trip of a doc whose summary has a
    [Summary] text, input and output modes and a security summary empties
    all of them, so it does not preserve every field but the category. *)
Lemma C3_roundtrip_drops_summary_fields :
  let r := SearchDocFromDocument (fun d => d) (DocumentFromSearchDoc sd_with_summary) in
  sum_Summary (sd_Summary r) = "" /\ sum_Summary (sd_Summary sd_with_summary) = "Show status" /\
  sum_InputModes (sd_Summary r) = [] /\ sum_SecuritySummary (sd_Summary r) = "" /\
  r <> sd_with_summary.
Proof. vm_compute. repeat split; congruence. Qed.

(** C3 (amended): for any normalisation, when the doc text is non-empty and
    the short description has at most 120 bytes, the round trip keeps the
    id, doc text, name, namespace, short description and tags, sets the
    summary id to the doc id, and clears the summary text, category, input
    and output modes and security summary. *)
Theorem C3_roundtrip_fields (Normalized : Document -> Document) (d : SearchDoc)
    (Htext : sd_DocText d <> "")
    (Hlen : String.length (sum_ShortDescription (sd_Summary d)) <= MaxShortDescriptionLen) :
  SearchDocFromDocument Normalized (DocumentFromSearchDoc d) =
  mkSearchDoc (sd_ID d) (sd_DocText d)
    (mkSummary (sd_ID d) (sum_Name (sd_Summary d)) (sum_Namespace (sd_Summary d))
               (sum_ShortDescription (sd_Summary d)) "" "" [] [] ""
               (sum_Tags (sd_Summary d))).
Proof.
  destruct d as [id txt [sid nm ns sdesc ssum cat im om sec tags]]; simpl in *.
  unfold SearchDocFromDocument, DocumentFromSearchDoc; simpl.
  assert (Hlt : Nat.ltb MaxShortDescriptionLen (String.length sdesc) = false)
    by (apply Nat.ltb_ge; exact Hlen).
  rewrite Hlt.
  destruct (String.eqb txt "") eqn:He; [apply String.eqb_eq in He; contradiction |].
  destruct tags; reflexivity.
Qed.

Lemma C3_roundtrip_fields_witness :
  sd_DocText sd_with_summary <> "" /\
  SearchDocFromDocument (fun d => d) (DocumentFromSearchDoc sd_with_summary) =
  mkSearchDoc "git:status" "status git"
    (mkSummary "git:status" "status" "git" "Show status" "" "" [] [] "" ["vcs"]).
Proof.
  split; [simpl; discriminate |].
  apply (C3_roundtrip_fields (fun d => d) sd_with_summary); vm_compute; [discriminate | lia].
Defined.

(** ** C5: mapping of MCP tool-call results *)

(** C5: for a connected backend and a tool-call result: an error-flagged
    result fails with ExecutionFailed whose message is the first non-empty
    text content when there is one; otherwise structured content is
    returned as it is, a single text item as its string, and anything else
    as the raw content list. *)
Theorem C5_callTool_result_mapping (sprint_v : JValue -> string) (b : mcpBackend)
    (r : CallToolResult) (Hconn : b_connected b = true) :
  (IsError r = true ->
     callTool sprint_v b (inr (Some r)) = Err (ErrExecutionFailed (toolResultError sprint_v (Some r))) /\
     (forall pre t post,
        ResultContent r = (pre ++ TextContent t :: post)%list -> t <> "" ->
        first_text pre = None ->
        callTool sprint_v b (inr (Some r)) = Err (ErrExecutionFailed t))) /\
  (IsError r = false ->
     (forall v, StructuredContent r = Some v -> callTool sprint_v b (inr (Some r)) = Ok (VStructured v)) /\
     (StructuredContent r = None -> forall t, ResultContent r = [TextContent t] ->
        callTool sprint_v b (inr (Some r)) = Ok (VText t)) /\
     (StructuredContent r = None -> (forall t, ResultContent r <> [TextContent t]) ->
        callTool sprint_v b (inr (Some r)) = Ok (VContent (ResultContent r)))).
Proof.
  unfold callTool. rewrite Hconn. simpl.
  split.
  - intros Herr. rewrite Herr. split; [reflexivity |].
    intros pre t post Hc Ht Hpre. unfold toolResultError. rewrite Hc.
    assert (Hft : first_text (pre ++ TextContent t :: post) = Some t).
    { clear Hc. induction pre as [| c pre IH]; simpl.
      - destruct (String.eqb t "") eqn:E; [apply String.eqb_eq in E; contradiction | reflexivity].
      - destruct c as [t' | k]; simpl in Hpre.
        + destruct (String.eqb t' ""); [apply IH; exact Hpre | discriminate].
        + apply IH; exact Hpre. }
    rewrite Hft. reflexivity.
  - intros Herr. rewrite Herr. unfold toolResultValue. split; [| split].
    + intros v Hv. rewrite Hv. reflexivity.
    + intros Hs t Hc. rewrite Hs, Hc. reflexivity.
    + intros Hs Hnot. rewrite Hs.
      destruct (ResultContent r) as [| c [| c' l]] eqn:Hc; try reflexivity.
      all: destruct c; try reflexivity; exfalso; eapply Hnot; reflexivity.
Qed.

Definition result_err_text : CallToolResult :=
  mkCallToolResult true None [OtherContent "image"; TextContent ""; TextContent "boom"].

Lemma C5_callTool_result_mapping_witness :
  callTool (fun _ => "") (mkMcpBackend true []) (inr (Some result_err_text))
  = Err (ErrExecutionFailed "boom").
Proof.
  destruct (C5_callTool_result_mapping (fun _ => "") (mkMcpBackend true []) result_err_text
              eq_refl) as [H _].
  destruct (H eq_refl) as [_ H2].
  apply (H2 [OtherContent "image"; TextContent ""] "boom" []); [reflexivity | discriminate | reflexivity].
Defined.

(** ** The byte order on strings *)

Lemma str_compare_le_trans (a b c : string) :
  String.compare a b <> Gt -> String.compare b c <> Gt -> String.compare a c <> Gt.
Proof.
  revert b c; induction a as [| x a IH]; intros [| y b] [| z c]; simpl; try congruence.
  unfold Ascii.compare.
  destruct (N.compare (N_of_ascii x) (N_of_ascii y)) eqn:E1;
  destruct (N.compare (N_of_ascii y) (N_of_ascii z)) eqn:E2;
  destruct (N.compare (N_of_ascii x) (N_of_ascii z)) eqn:E3; try congruence;
  rewrite ?N.compare_eq_iff, ?N.compare_lt_iff, ?N.compare_gt_iff in *; try lia; eauto.
Qed.

Lemma str_le_compare (a b : string) : str_le a b <-> String.compare a b <> Gt.
Proof. unfold str_le, String.leb. destruct (String.compare a b); intuition congruence. Qed.

#[export] Instance str_le_total : Total str_le.
Proof. intros a b. unfold str_le. apply String.leb_total. Qed.

#[export] Instance str_le_trans : Transitive str_le.
Proof.
  intros a b c H1 H2. apply str_le_compare in H1, H2. apply str_le_compare.
  eapply str_compare_le_trans; eassumption.
Qed.

#[export] Instance str_le_antisymm : AntiSymm (=) str_le.
Proof. intros a b H1 H2. apply String.leb_antisym; assumption. Qed.

Lemma str_le_neq_lt (a b : string) : str_le a b -> a <> b -> str_lt a b = true.
Proof.
  intros H Hne. apply str_le_compare in H. unfold str_lt.
  destruct (String.compare a b) eqn:E; try congruence.
  apply String.compare_eq_iff in E. contradiction.
Qed.

Lemma sort_strings_perm (l : list string) : sort_strings l ≡ₚ l.
Proof. apply merge_sort_Permutation. Qed.

Lemma sort_strings_sorted (l : list string) : StronglySorted str_le (sort_strings l).
Proof. apply StronglySorted_merge_sort; apply _. Qed.

(** Any two orders of the same strings sort to the same list. *)
Lemma sort_strings_perm_eq (l1 l2 : list string) : l1 ≡ₚ l2 -> sort_strings l1 = sort_strings l2.
Proof.
  intros Hp. apply (StronglySorted_unique str_le); [apply sort_strings_sorted | apply sort_strings_sorted |].
  rewrite !sort_strings_perm. exact Hp.
Qed.

Lemma StronglySorted_strict (l : list string) :
  StronglySorted str_le l -> NoDup l -> StronglySorted (fun a b => str_lt a b = true) l.
Proof.
  induction 1 as [| x l Hs IH Hall]; intros Hnd; constructor.
  - apply IH. inversion Hnd; assumption.
  - inversion Hnd as [| ? ? Hnotin Hnd']; subst.
    rewrite Forall_forall in *. intros z Hz. apply str_le_neq_lt; [apply Hall; exact Hz |].
    intros ->. apply Hnotin. exact Hz.
Qed.

(** ** C9: the provider registry *)

(** C9: RegisterProvider rejects an empty name; an empty id resolves to
    [name] or [name:version]; a second registration under the same id wins
    for DescribeProvider; ListProviders lists every registered provider,
    once, by strictly ascending id, whatever order the map is ranged in. *)
Theorem C9_provider_registry :
  (forall (s : ProviderStore) id p, p_Name p = "" -> RegisterProvider s id p = (Err ErrInvalidProvider, s)) /\
  (forall (s : ProviderStore) p, p_Name p <> "" ->
     fst (RegisterProvider s "" p) =
     Ok (if String.eqb (p_Version p) "" then p_Name p else p_Name p ++ ":" ++ p_Version p)) /\
  (forall (s : ProviderStore) id p1 p2, id <> "" -> p_Name p1 <> "" -> p_Name p2 <> "" ->
     DescribeProvider (snd (RegisterProvider (snd (RegisterProvider s id p1)) id p2)) id = Ok p2) /\
  (forall (s : ProviderStore) (ids : list string), ids ≡ₚ map fst (map_to_list s) ->
     ListProviders_in ids s = ListProviders s /\
     exists ks, ks ≡ₚ map fst (map_to_list s) /\
       StronglySorted (fun a b => str_lt a b = true) ks /\
       Forall2 (fun k p => s !! k = Some p) ks (ListProviders s)).
Proof.
  split; [| split; [| split]].
  - intros s id p Hn. unfold RegisterProvider. rewrite Hn. reflexivity.
  - intros s p Hn. unfold RegisterProvider, ProviderID.
    destruct (String.eqb (p_Name p) "") eqn:E; [apply String.eqb_eq in E; contradiction |].
    simpl. destruct (String.eqb (p_Version p) ""); simpl; [rewrite E; reflexivity |].
    destruct (p_Name p); [contradiction | reflexivity].
  - intros s id p1 p2 Hid Hn1 Hn2. unfold RegisterProvider.
    apply String.eqb_neq in Hid, Hn1, Hn2. rewrite Hn1, Hid. simpl. rewrite Hn2, Hid. simpl.
    unfold DescribeProvider. rewrite Hid. rewrite lookup_insert_eq. reflexivity.
  - intros s ids Hp. split.
    + unfold ListProviders, ListProviders_in. f_equal. apply sort_strings_perm_eq. exact Hp.
    + exists (sort_strings (map fst (map_to_list s))). split; [apply sort_strings_perm |]. split.
      * apply StronglySorted_strict; [apply sort_strings_sorted |].
        rewrite sort_strings_perm. apply NoDup_fst_map_to_list.
      * unfold ListProviders, ListProviders_in.
        assert (Hin : forall k, k ∈ sort_strings (map fst (map_to_list s)) -> is_Some (s !! k)).
        { intros k Hk. rewrite sort_strings_perm in Hk.
          apply list_elem_of_fmap in Hk as [[k' v] [-> Hkv]].
          apply elem_of_map_to_list in Hkv. simpl. eauto. }
        induction (sort_strings (map fst (map_to_list s))) as [| k ks IH]; simpl; constructor.
        -- destruct (Hin k) as [v Hv]; [left |]. rewrite Hv. reflexivity.
        -- apply IH. intros k' Hk'. apply Hin. right. exact Hk'.
Qed.

(** ** C10: the facade's hybrid weight *)

(** C10: with an embedder, [discovery.New] turns [HybridAlpha == 0] into
    the weight 0.5, so no searcher it builds has weight 0, while
    [NewHybridSearcher] itself accepts the weight 0. *)
Theorem C10_new_alpha_zero_defaults :
  (forall opts emb, opt_Embedder opts = Some emb -> PrimFloat.eqb (opt_HybridAlpha opts) 0 = true ->
     exists d h, New opts = Ok d /\ d_searcher d = SearchHybrid h /\ alpha h = 0.5%float) /\
  (forall opts d h, New opts = Ok d -> d_searcher d = SearchHybrid h ->
     PrimFloat.eqb (alpha h) 0 = false) /\
  (forall scorer emb, exists h,
     NewHybridSearcherF (mkHybridOptions scorer (Some emb) 0%float) = Ok h /\ alpha h = 0%float).
Proof.
  split; [| split].
  - intros opts emb He Ha. unfold New. rewrite He, Ha. simpl.
    eexists _, _. split; [reflexivity |]. split; reflexivity.
  - intros opts d h Hn Hs. unfold New in Hn.
    destruct (opt_Embedder opts) as [emb |].
    + destruct (PrimFloat.eqb (opt_HybridAlpha opts) 0) eqn:Ha.
      * simpl in Hn. injection Hn as <-. simpl in Hs. injection Hs as <-. reflexivity.
      * unfold NewHybridSearcherF, NewHybridSearcher in Hn. simpl in Hn.
        destruct (PrimFloat.ltb (opt_HybridAlpha opts) 0 || PrimFloat.ltb 1 (opt_HybridAlpha opts));
          [discriminate |].
        injection Hn as <-. simpl in Hs. injection Hs as <-. simpl. exact Ha.
    + destruct (opt_Searcher opts); injection Hn as <-; discriminate.
  - intros scorer emb. eexists. split; reflexivity.
Qed.

(** ** The exchange sort of the composite searchers *)

Section SortFacts.
Local Open Scope list_scope.
Context {F : Type} `{!ScoreOps F}.
Variable docs : list SearchDoc.

Lemma swap_step_at (prefix t1 r : list (scoredDoc F)) (h x : scoredDoc F) :
  swap_step docs (length prefix) (S (length prefix + length t1)) (prefix ++ h :: t1 ++ x :: r) =
  if swap_needed docs x h then prefix ++ x :: t1 ++ h :: r else prefix ++ h :: t1 ++ x :: r.
Proof.
  unfold swap_step.
  rewrite lookup_app_r by lia. rewrite Nat.sub_diag. simpl.
  rewrite lookup_app_r by lia.
  replace (S (length prefix + length t1) - length prefix) with (S (length t1)) by lia. simpl.
  rewrite lookup_app_r by lia. rewrite Nat.sub_diag. simpl.
  destruct (swap_needed docs x h); [| reflexivity].
  rewrite insert_app_r_alt by lia.
  replace (S (length prefix + length t1) - length prefix) with (S (length t1)) by lia. simpl.
  rewrite insert_app_r_alt by lia. rewrite Nat.sub_diag. simpl. f_equal. f_equal.
  clear. induction t1 as [| y t1 IH]; simpl; [reflexivity | rewrite IH; reflexivity].
Qed.

Lemma inner_pass_length (h : scoredDoc F) (t : list (scoredDoc F)) :
  length (inner_pass docs h t).2 = length t.
Proof.
  revert h; induction t as [| x r IH]; intros h; simpl; [reflexivity |].
  destruct (swap_needed docs x h); simpl; rewrite IH; reflexivity.
Qed.

Lemma inner_loop_pass (t2 prefix t1 : list (scoredDoc F)) (h : scoredDoc F) (j : nat) :
  j = S (length prefix + length t1) ->
  inner_loop docs (length prefix) j (length t2) (prefix ++ h :: t1 ++ t2) =
  prefix ++ (inner_pass docs h t2).1 :: t1 ++ (inner_pass docs h t2).2.
Proof.
  revert prefix t1 h j; induction t2 as [| x r IH]; intros prefix t1 h j ->; simpl.
  - rewrite app_nil_r. reflexivity.
  - rewrite swap_step_at. destruct (swap_needed docs x h); simpl.
    + replace (prefix ++ x :: t1 ++ h :: r) with (prefix ++ x :: (t1 ++ [h]) ++ r)
        by (rewrite <- app_assoc; reflexivity).
      rewrite (IH prefix (t1 ++ [h]) x) by (rewrite length_app; simpl; lia).
      rewrite <- app_assoc. reflexivity.
    + replace (prefix ++ h :: t1 ++ x :: r) with (prefix ++ h :: (t1 ++ [x]) ++ r)
        by (rewrite <- app_assoc; reflexivity).
      rewrite (IH prefix (t1 ++ [x]) h) by (rewrite length_app; simpl; lia).
      rewrite <- app_assoc. reflexivity.
Qed.

Lemma outer_loop_sel (n : nat) (prefix rest : list (scoredDoc F)) :
  length rest = n ->
  outer_loop docs (length prefix) (n - 1) (prefix ++ rest) = prefix ++ sel docs n rest.
Proof.
  revert prefix rest; induction n as [| m IH]; intros prefix rest Hl.
  - destruct rest; [| discriminate]. reflexivity.
  - destruct rest as [| h t]; [discriminate |]. simpl in Hl. injection Hl as Hl.
    destruct m as [| m'].
    + destruct t; [| discriminate]. reflexivity.
    + simpl. rewrite length_app. simpl.
      replace (length prefix + S (length t) - S (length prefix)) with (length t) by lia.
      rewrite (inner_loop_pass t prefix [] h) by (simpl; lia). simpl.
      replace (prefix ++ (inner_pass docs h t).1 :: (inner_pass docs h t).2)
        with ((prefix ++ [(inner_pass docs h t).1]) ++ (inner_pass docs h t).2)
        by (rewrite <- app_assoc; reflexivity).
      pose proof (IH (prefix ++ [(inner_pass docs h t).1]) (inner_pass docs h t).2) as E.
      rewrite inner_pass_length, length_app in E. simpl in E.
      rewrite Nat.sub_0_r in E.
      replace (length prefix + 1) with (S (length prefix)) in E by lia.
      rewrite E by exact Hl. rewrite <- app_assoc. reflexivity.
Qed.

Lemma sortScoredDocs_sel (l : list (scoredDoc F)) : sortScoredDocs docs l = sel docs (length l) l.
Proof. apply (outer_loop_sel (length l) [] l). reflexivity. Qed.

Lemma inner_pass_perm (h : scoredDoc F) (t : list (scoredDoc F)) :
  h :: t ≡ₚ (inner_pass docs h t).1 :: (inner_pass docs h t).2.
Proof.
  revert h; induction t as [| x r IH]; intros h; simpl; [reflexivity |].
  destruct (swap_needed docs x h); simpl.
  - transitivity (h :: (inner_pass docs x r).1 :: (inner_pass docs x r).2);
      [constructor; apply IH | apply perm_swap].
  - transitivity (x :: h :: r); [apply perm_swap |].
    transitivity (x :: (inner_pass docs h r).1 :: (inner_pass docs h r).2);
      [constructor; apply IH | apply perm_swap].
Qed.

Lemma sel_perm (n : nat) (l : list (scoredDoc F)) : sel docs n l ≡ₚ l.
Proof.
  revert l; induction n as [| m IH]; intros [| h t]; simpl; try reflexivity.
  rewrite IH. symmetry. apply inner_pass_perm.
Qed.

Lemma sortScoredDocs_perm (l : list (scoredDoc F)) : sortScoredDocs docs l ≡ₚ l.
Proof. rewrite sortScoredDocs_sel. apply sel_perm. Qed.
End SortFacts.

(** ** The scoring loops of the composite searchers *)

Section ScoreFacts.
Local Open Scope list_scope.
Context {F : Type} `{!ScoreOps F}.
Variable Normalized : Document -> Document.

Lemma hybrid_score_docs_spec (h : HybridSearcher F) (q : string) (i : nat)
    (ds : list Document) (sc : list (scoredDoc F)) :
  hybrid_score_docs Normalized h q i ds = Ok sc ->
  forall s, s ∈ sc -> exists k d b e,
    ds !! k = Some d /\ sc_idx s = i + k /\
    bm25Strategy h q (Normalized d) = Ok b /\ embeddingStrategy h q (Normalized d) = Ok e /\
    sc_score s = f_add (f_mul (alpha h) b) (f_mul (f_sub f_one (alpha h)) e) /\
    f_lt f_zero (sc_score s) = true.
Proof.
  revert i sc; induction ds as [| d rest IH]; intros i sc Hs s Hin; simpl in Hs.
  - injection Hs as <-. apply elem_of_nil in Hin. contradiction.
  - destruct (bm25Strategy h q (Normalized d)) as [b |] eqn:Hb; [| discriminate].
    destruct (embeddingStrategy h q (Normalized d)) as [e |] eqn:He; [| discriminate].
    destruct (hybrid_score_docs Normalized h q (S i) rest) as [sc' |] eqn:Hr; [| discriminate].
    injection Hs as <-.
    assert (Hrest : s ∈ sc' -> exists k d0 b0 e0,
      (d :: rest) !! k = Some d0 /\ sc_idx s = i + k /\
      bm25Strategy h q (Normalized d0) = Ok b0 /\ embeddingStrategy h q (Normalized d0) = Ok e0 /\
      sc_score s = f_add (f_mul (alpha h) b0) (f_mul (f_sub f_one (alpha h)) e0) /\
      f_lt f_zero (sc_score s) = true).
    { intros Hin'. destruct (IH (S i) sc' Hr s Hin') as (k & d' & b' & e' & Hk & Hi & R).
      exists (S k), d', b', e'. split; [exact Hk |]. split; [lia | exact R]. }
    destruct (f_lt f_zero _) eqn:Hpos; [| exact (Hrest Hin)].
    apply elem_of_cons in Hin as [-> | Hin]; [| exact (Hrest Hin)].
    exists 0, d, b, e. simpl. repeat split; auto.
Qed.

Lemma bm25_score_docs_spec (st : BM25OnlySearcher F) (q : string) (i : nat)
    (ds : list Document) (sc : list (scoredDoc F)) :
  bm25_score_docs Normalized st q i ds = Ok sc ->
  forall s, s ∈ sc -> exists k d,
    ds !! k = Some d /\ sc_idx s = i + k /\
    strategy st q (Normalized d) = Ok (sc_score s) /\ f_lt f_zero (sc_score s) = true.
Proof.
  revert i sc; induction ds as [| d rest IH]; intros i sc Hs s Hin; simpl in Hs.
  - injection Hs as <-. apply elem_of_nil in Hin. contradiction.
  - destruct (strategy st q (Normalized d)) as [b |] eqn:Hb; [| discriminate].
    destruct (bm25_score_docs Normalized st q (S i) rest) as [sc' |] eqn:Hr; [| discriminate].
    injection Hs as <-.
    assert (Hrest : s ∈ sc' -> exists k d0, (d :: rest) !! k = Some d0 /\ sc_idx s = i + k /\
      strategy st q (Normalized d0) = Ok (sc_score s) /\ f_lt f_zero (sc_score s) = true).
    { intros Hin'. destruct (IH (S i) sc' Hr s Hin') as (k & d' & Hk & Hi & R).
      exists (S k), d'. split; [exact Hk |]. split; [lia | exact R]. }
    destruct (f_lt f_zero b) eqn:Hpos; [| exact (Hrest Hin)].
    apply elem_of_cons in Hin as [-> | Hin]; [| exact (Hrest Hin)].
    exists 0, d. simpl. repeat split; auto.
Qed.

Lemma truncate_sublist (limit : Z) (l : list (scoredDoc F)) :
  exists n, truncate limit l = take n l /\
    ((0 < limit)%Z -> length (truncate limit l) <= Z.to_nat limit).
Proof.
  unfold truncate. destruct (limit <? Z.of_nat (length l))%Z eqn:E.
  - exists (Z.to_nat limit). split; [reflexivity |]. intros _. rewrite length_take. lia.
  - exists (length l). rewrite take_ge by lia. split; [reflexivity |].
    intros Hl. apply Z.ltb_ge in E. lia.
Qed.

Lemma build_results_elem (docs : list SearchDoc) (st : ScoreType) (l : list (scoredDoc F)) r :
  r ∈ build_results docs st l ->
  exists s, s ∈ l /\ r = mkResult (sd_Summary (docs !!! sc_idx s)) (sc_score s) st.
Proof. unfold build_results. intros Hr. apply list_elem_of_fmap in Hr as (s & -> & Hs). eauto. Qed.
End ScoreFacts.

Lemma lookup_map_Some {A B} (f : A -> B) (l : list A) (k : nat) (y : B) :
  map f l !! k = Some y -> exists x, l !! k = Some x /\ y = f x.
Proof.
  revert k; induction l as [| x l IH]; intros [| k] H; simpl in H; try discriminate.
  - injection H as <-. eauto.
  - apply IH. exact H.
Qed.

Lemma elem_of_truncate {F} (limit : Z) (l : list (scoredDoc F)) s :
  s ∈ truncate limit l -> s ∈ l.
Proof.
  intros Hs. destruct (truncate_sublist limit l) as [n [Heq _]]. rewrite Heq in Hs.
  apply elem_of_take in Hs as (i & Hi & _). eapply list_elem_of_lookup_2. exact Hi.
Qed.

(** ** C6: construction and scores of the hybrid searcher *)

(** C6: [NewHybridSearcher] fails with InvalidEmbedder when no embedder is
    given and with InvalidHybridConfig when [α < 0] or [α > 1]; a searcher
    it builds has the given weight [α] and the two strategies built from the
    options, and every result of its [SearchWithScores] belongs to a
    document of the input whose reported score is
    [α * bm25 + (1 - α) * embedding] for that document's two strategy
    scores. This holds for every scores type, strategy constructors and
    normalisation. *)
Theorem C6_hybrid_construction_and_score {F} `{!ScoreOps F} (BM25Scorer Embedder : Type)
    (NewBM25Strategy : option BM25Scorer -> Strategy F) (NewEmbeddingStrategy : Embedder -> Strategy F)
    (Normalized : Document -> Document) :
  (forall opts : HybridOptions BM25Scorer Embedder F, ho_Embedder opts = None ->
     NewHybridSearcher BM25Scorer Embedder NewBM25Strategy NewEmbeddingStrategy opts
     = Err ErrInvalidEmbedder) /\
  (forall (opts : HybridOptions BM25Scorer Embedder F) emb, ho_Embedder opts = Some emb ->
     f_lt (ho_Alpha opts) f_zero = true \/ f_lt f_one (ho_Alpha opts) = true ->
     NewHybridSearcher BM25Scorer Embedder NewBM25Strategy NewEmbeddingStrategy opts
     = Err ErrInvalidHybridConfig) /\
  (forall (opts : HybridOptions BM25Scorer Embedder F) h,
     NewHybridSearcher BM25Scorer Embedder NewBM25Strategy NewEmbeddingStrategy opts = Ok h ->
     alpha h = ho_Alpha opts /\ f_lt (alpha h) f_zero = false /\ f_lt f_one (alpha h) = false /\
     bm25Strategy h = NewBM25Strategy (ho_BM25Scorer opts) /\
     (exists emb, ho_Embedder opts = Some emb /\ embeddingStrategy h = NewEmbeddingStrategy emb) /\
     forall q limit docs rs, HybridSearchWithScores Normalized h q limit docs = Ok rs ->
       forall r, r ∈ rs -> exists i d b e,
         docs !! i = Some d /\
         bm25Strategy h q (Normalized (DocumentFromSearchDoc d)) = Ok b /\
         embeddingStrategy h q (Normalized (DocumentFromSearchDoc d)) = Ok e /\
         res_Score r = f_add (f_mul (alpha h) b) (f_mul (f_sub f_one (alpha h)) e) /\
         res_Summary r = sd_Summary d /\ res_ScoreType r = ScoreHybrid).
Proof.
  split; [| split].
  - intros opts He. unfold NewHybridSearcher. rewrite He. reflexivity.
  - intros opts emb He Ha. unfold NewHybridSearcher. rewrite He.
    destruct Ha as [Ha | Ha]; rewrite Ha; [reflexivity | rewrite orb_true_r; reflexivity].
  - intros opts h Hn. unfold NewHybridSearcher in Hn.
    destruct (ho_Embedder opts) as [emb |] eqn:He; [| discriminate].
    destruct (f_lt (ho_Alpha opts) f_zero) eqn:H0; [discriminate |].
    destruct (f_lt f_one (ho_Alpha opts)) eqn:H1; [discriminate |].
    injection Hn as <-. simpl. do 4 (split; [assumption || reflexivity |]).
    split; [eauto |].
    intros q limit docs rs Hs r Hr. unfold HybridSearchWithScores in Hs.
    destruct (limit <=? 0)%Z.
    { injection Hs as <-. apply elem_of_nil in Hr. contradiction. }
    destruct (hybrid_score_docs Normalized _ q 0 (DocumentsFromSearchDocs docs)) as [sc |] eqn:Hsc;
      [| discriminate].
    injection Hs as <-.
    apply build_results_elem in Hr as (s & Hs & ->).
    apply elem_of_truncate in Hs. rewrite sortScoredDocs_perm in Hs.
    destruct (hybrid_score_docs_spec Normalized _ q 0 _ sc Hsc s Hs)
      as (k & d' & b & e & Hk & Hi & Hb & Hem & Hscore & _).
    apply lookup_map_Some in Hk as (d & Hd & ->).
    exists k, d, b, e. simpl in *. rewrite Hi. repeat split; try assumption.
    rewrite (list_lookup_total_correct docs k d Hd). reflexivity.
Qed.

(** ** The order produced by the exchange sort *)

Section SortOrder.
Local Open Scope list_scope.
Context {F : Type} `{!ScoreOps F}.
(** The laws of Go's [<] and [==] on [float64] the order argument needs;
    [float64_ops] satisfies them (below). *)
Hypothesis Hlt_irrefl : forall x, f_lt x x = false.
Hypothesis Hlt_trans : forall x y z, f_lt x y = true -> f_lt y z = true -> f_lt x z = true.
Hypothesis Heq_sym : forall x y, f_eq x y = true -> f_eq y x = true.
Hypothesis Heq_trans : forall x y z, f_eq x y = true -> f_eq y z = true -> f_eq x z = true.
Hypothesis Hlt_eq_l : forall x y z, f_eq x y = true -> f_lt y z = true -> f_lt x z = true.
Hypothesis Hlt_eq_r : forall x y z, f_lt x y = true -> f_eq y z = true -> f_lt x z = true.
Variable docs : list SearchDoc.

Lemma str_lt_irrefl (a : string) : str_lt a a = false.
Proof.
  unfold str_lt. pose proof (String.compare_antisym a a) as E.
  destruct (String.compare a a); simpl in E; congruence.
Qed.

Lemma str_lt_trans (a b c : string) : str_lt a b = true -> str_lt b c = true -> str_lt a c = true.
Proof.
  unfold str_lt. intros H1 H2.
  destruct (String.compare a b) eqn:E1; try discriminate.
  destruct (String.compare b c) eqn:E2; try discriminate.
  assert (Hac : String.compare a c <> Gt) by (apply (str_compare_le_trans a b c); congruence).
  destruct (String.compare a c) eqn:E3; [| reflexivity | contradiction].
  apply String.compare_eq_iff in E3. subst c.
  rewrite String.compare_antisym, E2 in E1. discriminate.
Qed.

Lemma swap_needed_trans (a b c : scoredDoc F) :
  swap_needed docs c b = true -> swap_needed docs b a = true -> swap_needed docs c a = true.
Proof.
  unfold swap_needed. rewrite !orb_true_iff, !andb_true_iff.
  intros [H1 | [E1 I1]] [H2 | [E2 I2]].
  - left. eapply Hlt_trans; eassumption.
  - left. eapply Hlt_eq_l; [apply Heq_sym; exact E2 | exact H1].
  - left. eapply Hlt_eq_r; [exact H2 | apply Heq_sym; exact E1].
  - right. split; [eapply Heq_trans; eassumption | eapply str_lt_trans; eassumption].
Qed.

Lemma swap_needed_asym (a b : scoredDoc F) :
  swap_needed docs b a = true -> swap_needed docs a b = false.
Proof.
  unfold swap_needed. intros H. apply not_true_is_false. intros H'.
  rewrite orb_true_iff, andb_true_iff in H, H'.
  destruct H as [H1 | [E1 I1]], H' as [H2 | [E2 I2]].
  - pose proof (Hlt_irrefl (sc_score a)). pose proof (Hlt_trans _ _ _ H1 H2). congruence.
  - pose proof (Hlt_irrefl (sc_score a)). pose proof (Hlt_eq_r _ _ _ H1 (Heq_sym _ _ E2)). congruence.
  - pose proof (Hlt_irrefl (sc_score b)). pose proof (Hlt_eq_r _ _ _ H2 (Heq_sym _ _ E1)). congruence.
  - pose proof (str_lt_irrefl (id_at docs (sc_idx b))). pose proof (str_lt_trans _ _ _ I1 I2).
    congruence.
Qed.

(** After one pass, the carried element is the first one or better than
    it, and nothing left behind should go before it. *)
Lemma inner_pass_spec (h : scoredDoc F) (t : list (scoredDoc F)) :
  ((inner_pass docs h t).1 = h \/ swap_needed docs (inner_pass docs h t).1 h = true) /\
  Forall (fun y => swap_needed docs y (inner_pass docs h t).1 = false) (inner_pass docs h t).2.
Proof.
  revert h; induction t as [| x r IH]; intros h; simpl; [split; [left; reflexivity | constructor] |].
  destruct (swap_needed docs x h) eqn:Hxh; simpl.
  - destruct (IH x) as [Hc Hall]. split.
    + right. destruct Hc as [-> | Hc]; [exact Hxh | eapply swap_needed_trans; eassumption].
    + constructor; [| exact Hall].
      apply not_true_is_false. intros Hh.
      destruct Hc as [Hc | Hc].
      * rewrite Hc in Hh. rewrite (swap_needed_asym _ _ Hxh) in Hh. discriminate.
      * pose proof (swap_needed_trans _ _ _ Hh Hc) as Hhx.
        rewrite (swap_needed_asym _ _ Hxh) in Hhx. discriminate.
  - destruct (IH h) as [Hc Hall]. split; [exact Hc |].
    constructor; [| exact Hall].
    apply not_true_is_false. intros Hx.
    destruct Hc as [Hc | Hc].
    * rewrite Hc in Hx. congruence.
    * pose proof (swap_needed_trans _ _ _ Hx Hc) as Hxh'. congruence.
Qed.

Lemma sel_sorted (n : nat) (l : list (scoredDoc F)) :
  length l = n -> StronglySorted (fun a b => swap_needed docs b a = false) (sel docs n l).
Proof.
  revert l; induction n as [| m IH]; intros [| h t] Hl; simpl in *; try discriminate; try constructor.
  - apply IH. rewrite inner_pass_length. lia.
  - rewrite (sel_perm docs m). apply inner_pass_spec.
Qed.

Lemma sortScoredDocs_sorted (l : list (scoredDoc F)) :
  StronglySorted (fun a b => swap_needed docs b a = false) (sortScoredDocs docs l).
Proof. rewrite sortScoredDocs_sel. apply sel_sorted. reflexivity. Qed.
End SortOrder.

(** ** Go's [<] and [==] on [float64]

    Rocq's primitive floats are specified by [SFltb] and [SFeqb] on their
    IEEE 754 reading ([ltb_spec], [eqb_spec]); the order laws follow from
    the comparison of that reading. *)

Ltac sf_cases :=
  repeat match goal with
  | |- context [Pos.compare_cont Eq ?a ?b] => change (Pos.compare_cont Eq a b) with (Pos.compare a b)
  | H : context [Pos.compare_cont Eq ?a ?b] |- _ =>
      change (Pos.compare_cont Eq a b) with (Pos.compare a b) in H
  end;
  repeat match goal with
  | H : context [Z.compare ?a ?b] |- _ => destruct (Z.compare_spec a b); simpl in *
  | |- context [Z.compare ?a ?b] => destruct (Z.compare_spec a b); simpl in *
  | H : context [Pos.compare ?a ?b] |- _ => destruct (Pos.compare_spec a b); simpl in *
  | |- context [Pos.compare ?a ?b] => destruct (Pos.compare_spec a b); simpl in *
  end; subst; try discriminate; try lia; try reflexivity.

Ltac sf_destruct3 x y z :=
  destruct x as [sx | sx | | sx mx ex], y as [sy | sy | | sy my ey], z as [sz | sz | | sz mz ez];
  simpl; try destruct sx; try destruct sy; try destruct sz; simpl; try discriminate; try reflexivity;
  intros; sf_cases.

Lemma sf_lt_irrefl x : SFltb x x = false.
Proof. unfold SFltb. destruct x as [sx | sx | | sx mx ex]; try destruct sx; simpl; try reflexivity; sf_cases. Qed.

Lemma sf_lt_trans x y z : SFltb x y = true -> SFltb y z = true -> SFltb x z = true.
Proof. unfold SFltb. sf_destruct3 x y z. Qed.

Lemma sf_eq_sym x y : SFeqb x y = true -> SFeqb y x = true.
Proof.
  unfold SFeqb. destruct x as [sx | sx | | sx mx ex], y as [sy | sy | | sy my ey];
  simpl; try destruct sx; try destruct sy; simpl; try discriminate; try reflexivity; intros; sf_cases.
Qed.

Lemma sf_eq_trans x y z : SFeqb x y = true -> SFeqb y z = true -> SFeqb x z = true.
Proof. unfold SFeqb. sf_destruct3 x y z. Qed.

Lemma sf_lt_eq_l x y z : SFeqb x y = true -> SFltb y z = true -> SFltb x z = true.
Proof. unfold SFeqb, SFltb. sf_destruct3 x y z. Qed.

Lemma sf_lt_eq_r x y z : SFltb x y = true -> SFeqb y z = true -> SFltb x z = true.
Proof. unfold SFeqb, SFltb. sf_destruct3 x y z. Qed.

Lemma float_lt_irrefl (x : float) : f_lt x x = false.
Proof. simpl. rewrite FloatAxioms.ltb_spec. apply sf_lt_irrefl. Qed.

Lemma float_lt_trans (x y z : float) : f_lt x y = true -> f_lt y z = true -> f_lt x z = true.
Proof. simpl. rewrite !FloatAxioms.ltb_spec. apply sf_lt_trans. Qed.

Lemma float_eq_sym (x y : float) : f_eq x y = true -> f_eq y x = true.
Proof. simpl. rewrite !FloatAxioms.eqb_spec. apply sf_eq_sym. Qed.

Lemma float_eq_trans (x y z : float) : f_eq x y = true -> f_eq y z = true -> f_eq x z = true.
Proof. simpl. rewrite !FloatAxioms.eqb_spec. apply sf_eq_trans. Qed.

Lemma float_lt_eq_l (x y z : float) : f_eq x y = true -> f_lt y z = true -> f_lt x z = true.
Proof. simpl. rewrite FloatAxioms.eqb_spec, !FloatAxioms.ltb_spec. apply sf_lt_eq_l. Qed.

Lemma float_lt_eq_r (x y z : float) : f_lt x y = true -> f_eq y z = true -> f_lt x z = true.
Proof. simpl. rewrite FloatAxioms.eqb_spec, !FloatAxioms.ltb_spec. apply sf_lt_eq_r. Qed.

Lemma sortScoredDocs_sorted_float (docs : list SearchDoc) (l : list (scoredDoc float)) :
  StronglySorted (fun a b => swap_needed docs b a = false) (sortScoredDocs docs l).
Proof.
  apply sortScoredDocs_sorted.
  - exact float_lt_irrefl.
  - exact float_lt_trans.
  - exact float_eq_sym.
  - exact float_eq_trans.
  - exact float_lt_eq_l.
  - exact float_lt_eq_r.
Qed.

Lemma StronglySorted_weaken {A} (R R' : A -> A -> Prop) (l : list A) :
  (forall a b, R a b -> R' a b) -> StronglySorted R l -> StronglySorted R' l.
Proof.
  intros HR; induction 1 as [| x l Hs IH Hall]; constructor; [exact IH |].
  eapply Forall_impl; [exact Hall | exact (HR x)].
Qed.

Lemma swap_needed_false_order (docs : list SearchDoc) (a b : scoredDoc float) :
  swap_needed docs b a = false -> score_desc_id_asc docs a b.
Proof.
  unfold swap_needed, score_desc_id_asc. intros H. apply orb_false_iff in H as [H1 H2].
  split; [exact H1 |]. intros He. apply float_eq_sym in He. rewrite He in H2. exact H2.
Qed.

Lemma sorted_output_ordered (docs : list SearchDoc) (st : ScoreType) (limit : Z)
    (scored : list (scoredDoc float)) :
  (0 < limit)%Z -> Forall (fun s => f_lt f_zero (sc_score s) = true) scored ->
  results_in_search_order docs st limit (build_results docs st (truncate limit (sortScoredDocs docs scored))).
Proof.
  intros Hl Hpos. split; [lia |]. split.
  - unfold build_results. rewrite length_map.
    destruct (truncate_sublist limit (sortScoredDocs docs scored)) as [n [_ Hlen]].
    specialize (Hlen Hl). lia.
  - eexists; split; [reflexivity |]. split.
    + rewrite Forall_forall in Hpos |- *. intros s Hs. apply Hpos.
      apply elem_of_truncate in Hs. rewrite sortScoredDocs_perm in Hs. exact Hs.
    + destruct (truncate_sublist limit (sortScoredDocs docs scored)) as [n [Heq _]]. rewrite Heq.
      apply (StronglySorted_app_1_l _ _ (drop n (sortScoredDocs docs scored))).
      rewrite take_drop. eapply StronglySorted_weaken; [apply swap_needed_false_order |].
      apply sortScoredDocs_sorted_float.
Qed.

(** ** C7: order and size of the composite searchers' results *)

(** C7: at [float64], for every normalisation, hybrid and BM25-only
    searcher, query, limit and documents, a successful [SearchWithScores]
    of either searcher returns the empty list when [limit <= 0], at most
    [limit] results otherwise, and results that follow the order of score
    descending and, among equal scores, document id ascending. *)
Theorem C7_search_results_ordered (Normalized : Document -> Document) (h : HybridSearcher float)
    (s : BM25OnlySearcher float) (q : string) (limit : Z) (docs : list SearchDoc) :
  (forall rs, HybridSearchWithScores Normalized h q limit docs = Ok rs ->
     results_in_search_order docs ScoreHybrid limit rs) /\
  (forall rs, BM25OnlySearchWithScores Normalized s q limit docs = Ok rs ->
     results_in_search_order docs ScoreBM25 limit rs).
Proof.
  split; intros rs Hs.
  - unfold HybridSearchWithScores in Hs. destruct (limit <=? 0)%Z eqn:Hl.
    + injection Hs as <-. apply Z.leb_le in Hl. split; [reflexivity |]. split; [simpl; lia |].
      exists []. repeat constructor.
    + destruct (hybrid_score_docs Normalized h q 0 (DocumentsFromSearchDocs docs)) as [sc |] eqn:Hsc;
        [| discriminate].
      injection Hs as <-. apply Z.leb_gt in Hl. apply sorted_output_ordered; [exact Hl |].
      apply Forall_forall. intros x Hx.
      destruct (hybrid_score_docs_spec Normalized h q 0 _ sc Hsc x Hx) as (_ & _ & _ & _ & _ & _ & _ & _ & _ & Hp).
      exact Hp.
  - unfold BM25OnlySearchWithScores in Hs. destruct (limit <=? 0)%Z eqn:Hl.
    + injection Hs as <-. apply Z.leb_le in Hl. split; [reflexivity |]. split; [simpl; lia |].
      exists []. repeat constructor.
    + destruct (bm25_score_docs Normalized s q 0 (DocumentsFromSearchDocs docs)) as [sc |] eqn:Hsc;
        [| discriminate].
      injection Hs as <-. apply Z.leb_gt in Hl. apply sorted_output_ordered; [exact Hl |].
      apply Forall_forall. intros x Hx.
      destruct (bm25_score_docs_spec Normalized s q 0 _ sc Hsc x Hx) as (_ & _ & _ & _ & _ & Hp).
      exact Hp.
Qed.

(** ** C2: the hybrid searcher on an empty query *)

Lemma hybrid_score_docs_zero (Normalized : Document -> Document) (h : HybridSearcher float)
    (Hb : forall d, bm25Strategy h "" d = Ok 0%float)
    (He : forall d, embeddingStrategy h "" d = Ok 0%float)
    (Ha : alpha h = 0.5%float) (i : nat) (ds : list Document) :
  hybrid_score_docs Normalized h "" i ds = Ok [].
Proof.
  revert i; induction ds as [| d rest IH]; intros i; simpl; [reflexivity |].
  rewrite Hb, He, IH, Ha. reflexivity.
Qed.

(** C2: [HybridSearcher.SearchWithScores] has no empty-query case: with the
    default weight 0.5 and strategies that score the empty query 0 (as a
    BM25 scorer does), an empty query returns no result at all, for any
    limit and documents, instead of the first [limit] documents. *)
Theorem C2_hybrid_empty_query_returns_nothing (Normalized : Document -> Document)
    (h : HybridSearcher float)
    (Hb : forall d, bm25Strategy h "" d = Ok 0%float)
    (He : forall d, embeddingStrategy h "" d = Ok 0%float)
    (Ha : alpha h = 0.5%float) (limit : Z) (docs : list SearchDoc) :
  HybridSearchWithScores Normalized h "" limit docs = Ok [].
Proof.
  unfold HybridSearchWithScores. destruct (limit <=? 0)%Z; [reflexivity |].
  rewrite (hybrid_score_docs_zero Normalized h Hb He Ha). simpl.
  change (sortScoredDocs docs []) with (@nil (scoredDoc float)).
  unfold truncate. destruct (limit <? _)%Z; [rewrite take_nil |]; reflexivity.
Qed.

Definition c2_doc : SearchDoc :=
  mkSearchDoc "git:status" "status git"
    (mkSummary "git:status" "status" "git" "Show status" "" "" [] [] "" []).

Definition c2_searcher : HybridSearcher float :=
  mkHybridSearcher (fun _ _ => Ok 0%float) (fun _ _ => Ok 0%float) 0.5%float.

Lemma C2_hybrid_empty_query_returns_nothing_witness :
  HybridSearchWithScores (fun d => d) c2_searcher "" 1 [c2_doc] = Ok [].
Proof.
  apply (C2_hybrid_empty_query_returns_nothing (fun d => d) c2_searcher);
    [intros d; reflexivity | intros d; reflexivity | reflexivity].
Defined.

(** ** C1: registration through the facade with a documentation entry *)

Definition c1_tool : Tool := mkTool "test_tool" "ns" "" "Test tool" (Some "{}") [].

(** The args of the discovery tests' [createDeeplyNestedArgs(n)]. *)
Fixpoint nested_args (n : nat) : list (string * JValue) :=
  match n with
  | O => [("leaf", JStr "value")]
  | S m => [("nested", JObj (nested_args m))]
  end.

Definition c1_doc : DocEntry :=
  mkDocEntry "Test" "" [mkToolExample "Bad example" "" (nested_args 10) ""].

(** C1 (counterexample): on a new facade, registering a valid tool whose
    doc entry has args nested 11 levels deep fails with ArgsTooLarge, yet
    the tool is in the index afterwards, where it was not before. *)
Lemma C1_doc_error_leaves_tool_registered :
  exists d, New (mkOptions None false None 0%float 0%Z) = Ok d /\
    idx_tools (d_idx d) !! "ns:test_tool" = None /\
    fst (DiscoveryRegisterTool d c1_tool (MCPBackend "server") (Some c1_doc)) = Err ErrArgsTooLarge /\
    is_Some (idx_tools (d_idx (snd (DiscoveryRegisterTool d c1_tool (MCPBackend "server") (Some c1_doc))))
               !! "ns:test_tool").
Proof.
  eexists. split; [reflexivity |]. split; [reflexivity |]. split; [vm_compute; reflexivity |].
  vm_compute. eexists. reflexivity.
Qed.

Lemma IndexRegisterTool_registers (idx idx' : Index) (t : Tool) (b : ToolBackend) :
  IndexRegisterTool idx t b = Ok idx' -> is_Some (idx_tools idx' !! ToolID t).
Proof.
  unfold IndexRegisterTool. destruct (tool_valid t), (backend_valid b); simpl; try discriminate.
  destruct (idx_tools idx !! ToolID t) as [r |].
  - destruct (mcp_fields_equal (rec_tool r) t); [| discriminate].
    intros H. injection H as <-. simpl. rewrite lookup_insert_eq. eexists. reflexivity.
  - intros H. injection H as <-. simpl. rewrite lookup_insert_eq. eexists. reflexivity.
Qed.

(** C1 (amended): [Discovery.RegisterTool] registers in the index first. If
    the index rejects the tool, nothing changes and the index's error is
    returned. If the index accepts it and an example's args fail
    validation, ArgsTooLarge is returned while the tool stays registered in
    the updated index and the doc store is unchanged. *)
Theorem C1_register_tool_index_first (d : Discovery) (t : Tool) (b : ToolBackend) (de : DocEntry) :
  (forall e, IndexRegisterTool (d_idx d) t b = Err e ->
     DiscoveryRegisterTool d t b (Some de) = (Err e, d)) /\
  (forall idx', IndexRegisterTool (d_idx d) t b = Ok idx' ->
     Exists (fun ex => args_valid (ex_Args ex) = false) (de_Examples de) ->
     DiscoveryRegisterTool d t b (Some de) =
       (Err ErrArgsTooLarge, mkDiscovery idx' (d_searcher d) (d_scoreType d) (d_docs d) (d_maxExamples d)) /\
     is_Some (idx_tools idx' !! ToolID t)).
Proof.
  split.
  - intros e He. unfold DiscoveryRegisterTool. rewrite He. reflexivity.
  - intros idx' Hi Hbad. split; [| exact (IndexRegisterTool_registers _ _ _ _ Hi)].
    unfold DiscoveryRegisterTool. rewrite Hi. simpl. unfold RegisterDoc.
    assert (Hf : forallb (fun e => args_valid (ex_Args e)) (de_Examples de) = false).
    { apply not_true_is_false. intros Hall. rewrite forallb_forall in Hall.
      apply Exists_exists in Hbad as (ex & Hin & Hv).
      apply list_elem_of_In in Hin. rewrite (Hall ex Hin) in Hv. discriminate. }
    rewrite Hf. reflexivity.
Qed.

(** ** The registry's start loop *)

Section StartFacts.
Local Open Scope list_scope.

Lemma lookup_update_backend (n m : string) (f : mcpBackend -> mcpBackend) (bs : list (string * mcpBackend)) :
  lookup_backend m (update_backend n f bs) =
  if String.eqb m n then option_map f (lookup_backend m bs) else lookup_backend m bs.
Proof.
  destruct (String.eqb m n) eqn:Emn.
  - apply String.eqb_eq in Emn. subst m.
    induction bs as [| [k b] bs IH]; simpl; [reflexivity |].
    destruct (String.eqb n k) eqn:Enk; simpl.
    + apply String.eqb_eq in Enk. subst k. rewrite String.eqb_refl. reflexivity.
    + rewrite Enk. exact IH.
  - induction bs as [| [k b] bs IH]; simpl; [reflexivity |].
    destruct (String.eqb n k) eqn:Enk; simpl; [| destruct (String.eqb m k); [reflexivity | exact IH]].
    apply String.eqb_eq in Enk. subst k. rewrite Emn. exact IH.
Qed.

Lemma disconnect_all_fields (ns : list string) (r : Registry) :
  r_started (disconnect_all ns r) = r_started r /\ r_index (disconnect_all ns r) = r_index r.
Proof.
  unfold disconnect_all. revert r; induction ns as [| n ns IH]; intros r; simpl; [auto |].
  destruct (IH (with_backends r (update_backend n disconnect (r_backends r)))) as [H1 H2].
  rewrite H1, H2. auto.
Qed.

Lemma disconnect_all_lookup (ns : list string) (r : Registry) (m : string) :
  lookup_backend m (r_backends (disconnect_all ns r)) =
  if bool_decide (m ∈ ns) then option_map disconnect (lookup_backend m (r_backends r))
  else lookup_backend m (r_backends r).
Proof.
  unfold disconnect_all. revert r; induction ns as [| n ns IH]; intros r; simpl.
  - reflexivity.
  - rewrite IH. simpl. rewrite lookup_update_backend.
    destruct (String.eqb m n) eqn:E.
    + apply String.eqb_eq in E. subst n.
      case_bool_decide as H1; case_bool_decide as H2; try set_solver.
      destruct (lookup_backend m (r_backends r)); reflexivity.
    + apply String.eqb_neq in E.
      case_bool_decide as H1; case_bool_decide as H2; try set_solver; reflexivity.
Qed.

Definition index_grows (idx idx' : Index) : Prop :=
  forall k, is_Some (idx_tools idx !! k) -> is_Some (idx_tools idx' !! k).

Lemma IndexRegisterTool_grows (idx idx' : Index) (t : Tool) (b : ToolBackend) :
  IndexRegisterTool idx t b = Ok idx' -> index_grows idx idx'.
Proof.
  unfold IndexRegisterTool, index_grows. destruct (tool_valid t), (backend_valid b); simpl; try discriminate.
  intros H k Hk. destruct (idx_tools idx !! ToolID t) as [r |].
  - destruct (mcp_fields_equal (rec_tool r) t); [| discriminate].
    injection H as <-. simpl. destruct (String.eq_dec (ToolID t) k) as [-> | Hne].
    + rewrite lookup_insert_eq. eexists. reflexivity.
    + rewrite lookup_insert_ne by exact Hne. exact Hk.
  - injection H as <-. simpl. destruct (String.eq_dec (ToolID t) k) as [-> | Hne].
    + rewrite lookup_insert_eq. eexists. reflexivity.
    + rewrite lookup_insert_ne by exact Hne. exact Hk.
Qed.

Lemma register_each_spec (idx : Index) (server : string) (ts : list Tool) :
  index_grows idx (snd (register_each idx server ts)) /\
  (fst (register_each idx server ts) = Ok tt ->
     forall t, t ∈ ts -> is_Some (idx_tools (snd (register_each idx server ts)) !! ToolID t)).
Proof.
  revert idx; induction ts as [| t ts IH]; intros idx; simpl.
  - split; [intros k Hk; exact Hk | intros _ t Ht; apply elem_of_nil in Ht; contradiction].
  - destruct (IndexRegisterTool idx t (MCPBackend server)) as [idx1 |] eqn:Hr; simpl.
    + destruct (IH idx1) as [Hg Hall]. split.
      * intros k Hk. apply Hg. exact (IndexRegisterTool_grows _ _ _ _ Hr k Hk).
      * intros Hok t' Ht'. apply elem_of_cons in Ht' as [-> | Ht'].
        -- apply Hg. exact (IndexRegisterTool_registers _ _ _ _ Hr).
        -- apply Hall; assumption.
    + split; [intros k Hk; exact Hk | discriminate].
Qed.

Lemma RegisterToolsFromMCP_spec (idx : Index) (server : string) (ts : list Tool) :
  index_grows idx (snd (RegisterToolsFromMCP idx server ts)) /\
  (fst (RegisterToolsFromMCP idx server ts) = Ok tt ->
     forall t, t ∈ ts -> is_Some (idx_tools (snd (RegisterToolsFromMCP idx server ts)) !! ToolID t)).
Proof.
  unfold RegisterToolsFromMCP.
  destruct (negb (backend_valid (MCPBackend server))); simpl;
    [split; [intros k Hk; exact Hk | discriminate] |].
  destruct (negb (forallb tool_valid ts)); simpl;
    [split; [intros k Hk; exact Hk | discriminate] |].
  apply register_each_spec.
Qed.
End StartFacts.

Section StartLoop.
Local Open Scope list_scope.

(** Every tool listed by the backends named in [ms] is in the index. *)
Definition tools_indexed (r : Registry) (ms : list string) : Prop :=
  forall m, m ∈ ms -> forall b, lookup_backend m (r_backends r) = Some b ->
    forall t, t ∈ b_tools b -> is_Some (idx_tools (r_index r) !! ToolID t).

Lemma lookup_update_ne (n m : string) (f : mcpBackend -> mcpBackend) (bs : list (string * mcpBackend)) :
  m <> n -> lookup_backend m (update_backend n f bs) = lookup_backend m bs.
Proof. intros Hne. rewrite lookup_update_backend. apply String.eqb_neq in Hne. rewrite Hne. reflexivity. Qed.

Lemma start_loop_err (servers : MCPServers) (names connected : list string) (r r' : Registry) (e : error) :
  NoDup names -> (forall m, m ∈ names -> m ∉ connected) -> tools_indexed r connected ->
  start_loop servers names connected r = (Err e, r') ->
  r_started r' = false /\
  exists pre n post, names = pre ++ n :: post /\ (e = ErrConnect n \/ e = ErrRegisterBackendTools n) /\
    (forall m b, m ∈ connected ++ pre ++ [n] -> lookup_backend m (r_backends r') = Some b ->
       b_connected b = false) /\
    (forall m, m ∈ post -> lookup_backend m (r_backends r') = lookup_backend m (r_backends r)) /\
    tools_indexed r' (connected ++ pre).
Proof.
  revert connected r. induction names as [| n rest IH]; intros connected r Hnd Hdisj Hti Hs;
    simpl in Hs; [discriminate |].
  apply NoDup_cons in Hnd as [Hnrest Hnd].
  assert (Hnc : n ∉ connected) by (apply Hdisj; left).
  destruct (lookup_backend n (r_backends r)) as [b |] eqn:Hb; [| discriminate].
  destruct (connect servers n b) as [b' |] eqn:Hc.
  2: {
    injection Hs as <- <-. destruct (disconnect_all_fields connected r) as [_ Fi].
    split; [reflexivity |]. exists [], n, rest. split; [reflexivity |]. split; [left; reflexivity |].
    split; [| split].
    - intros m b0 Hm Hl. simpl in Hl. rewrite disconnect_all_lookup in Hl. simpl in Hm.
      apply elem_of_app in Hm as [Hm | Hm].
      + rewrite bool_decide_true in Hl by exact Hm.
        destruct (lookup_backend m (r_backends r)); [injection Hl as <-; reflexivity | discriminate].
      + apply list_elem_of_singleton in Hm. subst m. rewrite bool_decide_false in Hl by exact Hnc.
        rewrite Hb in Hl. injection Hl as <-. unfold connect in Hc.
        destruct (b_connected b); [discriminate | reflexivity].
    - intros m Hm. simpl. rewrite disconnect_all_lookup. rewrite bool_decide_false; [reflexivity |].
      apply Hdisj. right. exact Hm.
    - intros m Hm b0 Hl t Ht. simpl in *. rewrite Fi. rewrite disconnect_all_lookup in Hl.
      rewrite app_nil_r in Hm. rewrite bool_decide_true in Hl by exact Hm.
      destruct (lookup_backend m (r_backends r)) as [b1 |] eqn:Hb1; [| discriminate].
      injection Hl as <-. exact (Hti m Hm b1 Hb1 t Ht). }
  destruct (RegisterToolsFromMCP (r_index r) n (b_tools b')) as [res idx'] eqn:Hreg.
  pose proof (RegisterToolsFromMCP_spec (r_index r) n (b_tools b')) as [Hg Hall].
  rewrite Hreg in Hg, Hall. simpl in Hg, Hall.
  assert (Hold : forall m, m <> n ->
    lookup_backend m (update_backend n (fun _ => b') (r_backends r)) = lookup_backend m (r_backends r))
    by (intros m Hm; apply lookup_update_ne; exact Hm).
  assert (Hnew : lookup_backend n (update_backend n (fun _ => b') (r_backends r)) = Some b')
    by (rewrite lookup_update_backend, String.eqb_refl, Hb; reflexivity).
  destruct res as [[] | e0].
  - apply IH in Hs as [Hst (pre & n' & post & Hsplit & He & Hdis & Hpost & Htools)].
    + split; [exact Hst |]. exists (n :: pre), n', post. split; [rewrite Hsplit; reflexivity |].
      split; [exact He |]. split; [| split].
      * intros m b0 Hm Hl. apply (Hdis m b0); [| exact Hl].
        rewrite <- app_assoc. exact Hm.
      * intros m Hm. rewrite (Hpost m Hm). simpl. apply Hold.
        intros ->. apply Hnrest. rewrite Hsplit. apply elem_of_app. right. right. exact Hm.
      * intros m Hm. apply Htools. rewrite <- app_assoc. exact Hm.
    + exact Hnd.
    + intros m Hm Hm'. apply elem_of_app in Hm' as [Hm' | Hm'].
      * apply (Hdisj m); [right; exact Hm | exact Hm'].
      * apply list_elem_of_singleton in Hm'. subst m. contradiction.
    + intros m Hm b0 Hl t Ht. simpl in *. apply elem_of_app in Hm as [Hm | Hm].
      * assert (Hmn : m <> n) by (intros ->; contradiction).
        rewrite Hold in Hl by exact Hmn. apply Hg. exact (Hti m Hm b0 Hl t Ht).
      * apply list_elem_of_singleton in Hm. subst m. rewrite Hnew in Hl. injection Hl as <-.
        apply Hall; [reflexivity | exact Ht].
  - injection Hs as <- <-.
    destruct (disconnect_all_fields (connected ++ [n])
                (with_index (with_backends r (update_backend n (fun _ => b') (r_backends r))) idx'))
      as [_ Fi].
    split; [reflexivity |]. exists [], n, rest. split; [reflexivity |]. split; [right; reflexivity |].
    split; [| split].
    + intros m b0 Hm Hl. simpl in Hl. rewrite disconnect_all_lookup in Hl. simpl in Hm.
      rewrite bool_decide_true in Hl by exact Hm. simpl in Hl.
      destruct (lookup_backend m _); [injection Hl as <-; reflexivity | discriminate].
    + intros m Hm. simpl. rewrite disconnect_all_lookup.
      assert (Hmn : m <> n) by (intros ->; contradiction).
      rewrite bool_decide_false.
      * simpl. apply Hold. exact Hmn.
      * intros Hm'. apply elem_of_app in Hm' as [Hm' | Hm'].
        -- apply (Hdisj m); [right; exact Hm | exact Hm'].
        -- apply list_elem_of_singleton in Hm'. contradiction.
    + intros m Hm b0 Hl t Ht. simpl in *. rewrite Fi. simpl.
      rewrite app_nil_r in Hm. rewrite disconnect_all_lookup in Hl.
      rewrite bool_decide_true in Hl by (apply elem_of_app; left; exact Hm). simpl in Hl.
      assert (Hmn : m <> n) by (intros ->; contradiction).
      rewrite Hold in Hl by exact Hmn.
      destruct (lookup_backend m (r_backends r)) as [b1 |] eqn:Hb1; [| discriminate].
      injection Hl as <-. simpl in Ht. apply Hg. exact (Hti m Hm b1 Hb1 t Ht).
Qed.
End StartLoop.

(** ** C4: a failed [Registry.Start] *)

Definition c4_tool : Tool := mkTool "status" "git" "" "Show status" (Some "{}") [].

(** Server "a" lists one tool; every other server refuses the connection. *)
Definition c4_servers : MCPServers :=
  fun n => if String.eqb n "a" then Ok [c4_tool] else Err (ErrOther "connection refused").

(** Two MCP backends, ranged over in the order "a", "b". *)
Definition c4_registry : Registry :=
  mkRegistry false [("a", mkMcpBackend false []); ("b", mkMcpBackend false [])] emptyIndex.

(** C4 (counterexample): Start connects "a" and registers its tool, then
    fails to connect "b". It returns the error, started is false and no
    backend stays connected, but the tool of "a" is still in the index,
    which was empty before the call. *)
Lemma C4_start_failure_keeps_tools :
  fst (Start c4_servers c4_registry) = Err (ErrConnect "b") /\
  r_started (snd (Start c4_servers c4_registry)) = false /\
  forallb (fun nb => negb (b_connected (snd nb))) (r_backends (snd (Start c4_servers c4_registry))) = true /\
  idx_tools (r_index c4_registry) !! "git:status" = None /\
  is_Some (idx_tools (r_index (snd (Start c4_servers c4_registry))) !! "git:status").
Proof.
  split; [vm_compute; reflexivity |]. split; [vm_compute; reflexivity |].
  split; [vm_compute; reflexivity |]. split; [vm_compute; reflexivity |].
  vm_compute. eexists. reflexivity.
Qed.

(** C4 (amended): when Start, on a registry not yet started whose backend
    names are distinct, fails, it returns the connect or register error of
    some backend [n], where the map is ranged over as [pre ++ n :: post].
    Started is false again. The backends of [pre] and [n] are disconnected,
    and those of [post] are as they were. The index is not rolled back:
    every tool listed by a backend of [pre] stays registered. *)
Theorem C4_start_failure_state (servers : MCPServers) (r r' : Registry) (e : error)
    (Hns : r_started r = false) (Hnd : NoDup (map fst (r_backends r)))
    (Hs : Start servers r = (Err e, r')) :
  r_started r' = false /\
  exists pre n post, map fst (r_backends r) = (pre ++ n :: post)%list /\
    (e = ErrConnect n \/ e = ErrRegisterBackendTools n) /\
    (forall m b, m ∈ (pre ++ [n])%list -> lookup_backend m (r_backends r') = Some b ->
       b_connected b = false) /\
    (forall m, m ∈ post -> lookup_backend m (r_backends r') = lookup_backend m (r_backends r)) /\
    tools_indexed r' pre.
Proof.
  unfold Start in Hs. rewrite Hns in Hs.
  apply start_loop_err in Hs as [Hst (pre & n & post & Hsplit & He & Hdis & Hpost & Htools)].
  - split; [exact Hst |]. exists pre, n, post. split; [exact Hsplit |]. split; [exact He |].
    split; [| split]; [exact Hdis | exact Hpost | exact Htools].
  - exact Hnd.
  - intros m _ Hm. apply elem_of_nil in Hm. exact Hm.
  - intros m Hm. apply elem_of_nil in Hm. contradiction.
Qed.

Lemma C4_start_failure_state_witness :
  r_started (snd (Start c4_servers c4_registry)) = false.
Proof.
  apply (proj1 (C4_start_failure_state c4_servers c4_registry (snd (Start c4_servers c4_registry))
                  (ErrConnect "b") eq_refl
                  ltac:(apply (bool_decide_unpack _); vm_compute; reflexivity)
                  ltac:(vm_compute; reflexivity))).
Defined.

(** ** The fingerprint's byte encoding *)

Section Fingerprint.
Local Open Scope list_scope.

Definition nul_char : ascii := ascii_of_nat 0.
Definition soh_char : ascii := ascii_of_nat 1.

(** [s] does not contain the byte [c]. *)
Fixpoint byte_free (c : ascii) (s : string) : bool :=
  match s with
  | EmptyString => true
  | String x r => negb (Ascii.eqb x c) && byte_free c r
  end.

(** The documents the encoding is injective on: no string field holds a
    NUL byte, and every mode and tag is non-empty and holds neither a NUL
    nor a "\x01" byte. *)
Definition fp_doc_ok (d : SearchDoc) : Prop :=
  let s := sd_Summary d in
  Forall (fun x => byte_free nul_char x = true)
    [sd_ID d; sd_DocText d; sum_ID s; sum_Name s; sum_Namespace s; sum_ShortDescription s;
     sum_Summary s; sum_Category s; sum_SecuritySummary s] /\
  Forall (fun x => x <> "" /\ byte_free nul_char x = true /\ byte_free soh_char x = true)
    (sum_InputModes s ++ sum_OutputModes s ++ sum_Tags s).

Definition set_tags (d : SearchDoc) (tags : list string) : SearchDoc :=
  let s := sd_Summary d in
  mkSearchDoc (sd_ID d) (sd_DocText d)
    (mkSummary (sum_ID s) (sum_Name s) (sum_Namespace s) (sum_ShortDescription s) (sum_Summary s)
               (sum_Category s) (sum_InputModes s) (sum_OutputModes s) (sum_SecuritySummary s) tags).

(** [d1] and [d2] are the same document up to the order of its tags. *)
Definition same_up_to_tag_order (d1 d2 : SearchDoc) : Prop :=
  set_tags d1 (sum_Tags (sd_Summary d2)) = d2 /\ sum_Tags (sd_Summary d1) ≡ₚ sum_Tags (sd_Summary d2).

Lemma byte_free_app (c : ascii) (a b : string) :
  byte_free c (a ++ b)%string = byte_free c a && byte_free c b.
Proof. induction a as [| x a IH]; simpl; [reflexivity | rewrite IH, andb_assoc; reflexivity]. Qed.

Lemma split_at_byte (c : ascii) (a a' b b' : string) :
  byte_free c a = true -> byte_free c a' = true ->
  (a ++ String c b)%string = (a' ++ String c b')%string -> a = a' /\ b = b'.
Proof.
  revert a'; induction a as [| x a IH]; intros [| x' a'] Ha Ha' H; simpl in *.
  - injection H as ->. auto.
  - injection H as -> _. rewrite Ascii.eqb_refl in Ha'. discriminate.
  - injection H as <- _. rewrite Ascii.eqb_refl in Ha. discriminate.
  - injection H as -> H. apply andb_true_iff in Ha as [_ Ha], Ha' as [_ Ha'].
    destruct (IH a' Ha Ha' H) as [-> ->]. auto.
Qed.

Lemma terminated_inj (fs fs' : list string) :
  Forall (fun x => byte_free nul_char x = true) fs ->
  Forall (fun x => byte_free nul_char x = true) fs' ->
  terminated fs = terminated fs' -> fs = fs'.
Proof.
  revert fs'; induction fs as [| f fs IH]; intros [| f' fs'] H H' E; simpl in E; try reflexivity.
  - destruct f'; discriminate.
  - destruct f; discriminate.
  - apply Forall_cons in H as [Hf H], H' as [Hf' H'].
    destruct (split_at_byte nul_char f f' _ _ Hf Hf' E) as [-> E'].
    rewrite (IH fs' H H' E'). reflexivity.
Qed.

Lemma join_inj (l l' : list string) :
  Forall (fun x => x <> "" /\ byte_free soh_char x = true) l ->
  Forall (fun x => x <> "" /\ byte_free soh_char x = true) l' ->
  join SOH l = join SOH l' -> l = l'.
Proof.
  revert l'; induction l as [| x l IH]; intros l' H H' E.
  - destruct l' as [| x' [| y' l']]; simpl in E; [reflexivity | |].
    + apply Forall_cons in H' as [[Hne _] _]. congruence.
    + destruct x'; discriminate.
  - apply Forall_cons in H as [[Hx Hxs] H].
    destruct l as [| y l]; destruct l' as [| x' [| y' l']]; simpl in E.
    + contradiction.
    + rewrite E. reflexivity.
    + apply Forall_cons in H' as [[_ Hx's] _]. subst x.
      rewrite byte_free_app in Hxs. simpl in Hxs. rewrite ?Ascii.eqb_refl in Hxs.
      rewrite ?andb_false_r in Hxs. discriminate.
    + destruct x; [contradiction | discriminate].
    + apply Forall_cons in H' as [[_ Hx's] _]. subst x'.
      rewrite byte_free_app in Hx's. simpl in Hx's. rewrite ?Ascii.eqb_refl in Hx's.
      rewrite ?andb_false_r in Hx's. discriminate.
    + apply Forall_cons in H' as [[_ Hx's] H'].
      destruct (split_at_byte soh_char x x' _ _ Hxs Hx's E) as [-> E'].
      f_equal. apply IH; [exact H | exact H' | exact E'].
Qed.

Lemma join_nul_free (l : list string) :
  Forall (fun x => byte_free nul_char x = true) l -> byte_free nul_char (join SOH l) = true.
Proof.
  induction 1 as [| x l Hx Hl IH]; [reflexivity |].
  destruct l as [| y l]; [exact Hx |].
  change (join SOH (x :: y :: l)) with (x ++ SOH ++ join SOH (y :: l))%string.
  rewrite !byte_free_app, Hx, IH. reflexivity.
Qed.

Lemma append_cons (x : ascii) (a b : string) : (String x a ++ b)%string = String x (a ++ b).
Proof. reflexivity. Qed.

Lemma string_app_assoc (a b c : string) : ((a ++ b) ++ c)%string = (a ++ b ++ c)%string.
Proof. induction a as [| x a IH]; [reflexivity |]. rewrite !append_cons, IH. reflexivity. Qed.

Lemma terminated_app (fs r : list string) :
  terminated (fs ++ r) = (terminated fs ++ terminated r)%string.
Proof.
  induction fs as [| f fs IH]; [reflexivity |]. cbn [terminated app]. rewrite IH.
  rewrite !string_app_assoc. reflexivity.
Qed.

Lemma fingerprint_bytes_terminated (ds : list SearchDoc) :
  fingerprint_bytes ds = terminated (flat_map fingerprint_fields ds).
Proof.
  induction ds as [| d ds IH]; [reflexivity |].
  cbn [fingerprint_bytes flat_map]. rewrite terminated_app, IH. reflexivity.
Qed.

Lemma fields_nul_free (d : SearchDoc) :
  fp_doc_ok d -> Forall (fun x => byte_free nul_char x = true) (fingerprint_fields d).
Proof.
  intros [Hf Hm]. rewrite !Forall_app in Hm. destruct Hm as [Hi [Ho Ht]].
  assert (Hn : forall l, Forall (fun x => x <> "" /\ byte_free nul_char x = true /\
                                         byte_free soh_char x = true) l ->
                         byte_free nul_char (join SOH l) = true).
  { intros l Hl. apply join_nul_free. eapply Forall_impl; [exact Hl | intros x Hx; apply Hx]. }
  rewrite !Forall_cons in Hf. destruct Hf as (H1 & H2 & H3 & H4 & H5 & H6 & H7 & H8 & H9 & _).
  unfold fingerprint_fields. repeat constructor; try assumption; apply Hn; try assumption.
  rewrite sort_strings_perm. exact Ht.
Qed.

Lemma flat_map_fields_inj (ds1 ds2 : list SearchDoc) :
  flat_map fingerprint_fields ds1 = flat_map fingerprint_fields ds2 ->
  Forall2 (fun d1 d2 => fingerprint_fields d1 = fingerprint_fields d2) ds1 ds2.
Proof.
  revert ds2; induction ds1 as [| d1 ds1 IH]; intros [| d2 ds2] E;
    [constructor | discriminate | discriminate |].
  change (fingerprint_fields d1 ++ flat_map fingerprint_fields ds1 =
          fingerprint_fields d2 ++ flat_map fingerprint_fields ds2) in E.
  apply app_inj_1 in E as [E1 E2]; [| reflexivity].
  constructor; [exact E1 | exact (IH ds2 E2)].
Qed.

Lemma fields_inj (d1 d2 : SearchDoc) :
  fp_doc_ok d1 -> fp_doc_ok d2 -> fingerprint_fields d1 = fingerprint_fields d2 ->
  same_up_to_tag_order d1 d2.
Proof.
  intros [_ Hm1] [_ Hm2] E.
  destruct d1 as [i1 x1 [s1 n1 ns1 sd1 su1 c1 im1 om1 sec1 t1]],
           d2 as [i2 x2 [s2 n2 ns2 sd2 su2 c2 im2 om2 sec2 t2]].
  unfold fingerprint_fields in E. simpl in *.
  injection E as -> -> -> -> -> -> -> -> Ei Eo -> Et.
  rewrite !Forall_app in Hm1, Hm2.
  destruct Hm1 as [Hi1 [Ho1 Ht1]], Hm2 as [Hi2 [Ho2 Ht2]].
  assert (Hw : forall l, Forall (fun x => x <> "" /\ byte_free nul_char x = true /\
                                         byte_free soh_char x = true) l ->
                         Forall (fun x => x <> "" /\ byte_free soh_char x = true) l).
  { intros l Hl. eapply Forall_impl; [exact Hl | intros x [Hx [_ Hx']]; auto]. }
  apply join_inj in Ei; [| apply Hw; assumption | apply Hw; assumption]. subst im2.
  apply join_inj in Eo; [| apply Hw; assumption | apply Hw; assumption]. subst om2.
  apply join_inj in Et; [| rewrite sort_strings_perm; apply Hw; assumption
                         | rewrite sort_strings_perm; apply Hw; assumption].
  unfold same_up_to_tag_order, set_tags. simpl. split; [reflexivity |].
  rewrite <- (sort_strings_perm t1), <- (sort_strings_perm t2), Et. reflexivity.
Qed.

Lemma same_up_to_tag_order_fields (d1 d2 : SearchDoc) :
  same_up_to_tag_order d1 d2 -> fingerprint_fields d1 = fingerprint_fields d2.
Proof.
  intros [E Hp]. rewrite <- E. unfold fingerprint_fields, set_tags. simpl.
  rewrite (sort_strings_perm_eq _ _ Hp). reflexivity.
Qed.

Lemma flat_map_fields_nul_free (ds : list SearchDoc) :
  Forall fp_doc_ok ds ->
  Forall (fun x => byte_free nul_char x = true) (flat_map fingerprint_fields ds).
Proof.
  induction 1 as [| d ds Hd _ IH]; [constructor |].
  cbn [flat_map]. apply Forall_app. split; [apply fields_nul_free; exact Hd | exact IH].
Qed.
End Fingerprint.

(** Two documents that differ in [ID] and [DocText] but whose fields, once
    NUL-terminated, give the same byte stream. *)
Definition c8_doc1 : SearchDoc :=
  mkSearchDoc ("a" ++ NUL) "" (mkSummary "" "" "" "" "" "" [] [] "" []).
Definition c8_doc2 : SearchDoc :=
  mkSearchDoc "a" NUL (mkSummary "" "" "" "" "" "" [] [] "" []).

(** C8 (code bug): [computeFingerprint] does not change with every change of
    document content. A NUL byte inside a field moves the field boundary
    that the NUL separators are meant to mark, so two different documents,
    (ID "a" + NUL, DocText "") and (ID "a", DocText NUL), are written as the
    same bytes and get the same fingerprint whatever the hash. *)
Lemma C8_fingerprint_separator_collision :
  fingerprint_bytes [c8_doc1] = fingerprint_bytes [c8_doc2] /\ c8_doc1 <> c8_doc2 /\
  (forall sha256_hex, computeFingerprint sha256_hex [c8_doc1] = computeFingerprint sha256_hex [c8_doc2]).
Proof.
  assert (E : fingerprint_bytes [c8_doc1] = fingerprint_bytes [c8_doc2]) by reflexivity.
  split; [exact E | split].
  - intros H. injection H as H1 _. discriminate H1.
  - intros h. unfold computeFingerprint. rewrite E. reflexivity.
Qed.

(** X16: [computeFingerprint] is a function of the doc slice; it does not
    change when the tags of any document are reordered; and on documents
    whose string fields hold no NUL byte and whose modes and tags are
    non-empty and hold neither a NUL nor a "\x01" byte, equal byte streams
    fed to SHA-256 come only from slices of the same length whose documents
    agree pairwise up to the order of their tags. So on such documents a
    difference in an id, the doc text, any summary field, the tag multiset
    or the order of the documents changes the hashed bytes. *)
Theorem X16_fingerprint_properties (sha256_hex : string -> string) :
  (forall ds1 ds2 : list SearchDoc, ds1 = ds2 ->
     computeFingerprint sha256_hex ds1 = computeFingerprint sha256_hex ds2) /\
  (forall ds1 ds2 : list SearchDoc, Forall2 same_up_to_tag_order ds1 ds2 ->
     fingerprint_bytes ds1 = fingerprint_bytes ds2 /\
     computeFingerprint sha256_hex ds1 = computeFingerprint sha256_hex ds2) /\
  (forall ds1 ds2 : list SearchDoc, Forall fp_doc_ok ds1 -> Forall fp_doc_ok ds2 ->
     fingerprint_bytes ds1 = fingerprint_bytes ds2 ->
     Forall2 same_up_to_tag_order ds1 ds2).
Proof.
  split; [intros ds1 ds2 ->; reflexivity | split].
  - intros ds1 ds2 H.
    assert (Eb : fingerprint_bytes ds1 = fingerprint_bytes ds2).
    { induction H as [| d1 d2 ds1 ds2 Hd _ IH]; [reflexivity |].
      cbn [fingerprint_bytes]. rewrite (same_up_to_tag_order_fields _ _ Hd), IH. reflexivity. }
    split; [exact Eb | unfold computeFingerprint; rewrite Eb; reflexivity].
  - intros ds1 ds2 H1 H2 E.
    rewrite !fingerprint_bytes_terminated in E.
    apply terminated_inj in E; [| apply flat_map_fields_nul_free; exact H1
                                | apply flat_map_fields_nul_free; exact H2].
    apply flat_map_fields_inj in E.
    induction E as [| d1 d2 ds1 ds2 Hd _ IH]; [constructor |].
    apply Forall_cons in H1 as [Hd1 H1], H2 as [Hd2 H2].
    constructor; [apply fields_inj; assumption | apply IH; assumption].
Qed.

(** * Further properties of the code *)

(** ** The adapter, Document to SearchDoc and back (semantic/adapter.go) *)

Definition SearchDocsFromDocuments (Normalized : Document -> Document) (ds : list Document)
    : list SearchDoc :=
  map (SearchDocFromDocument Normalized) ds.

Lemma substring_0_short (n : nat) (s : string) :
  String.length s <= n -> String.substring 0 n s = s.
Proof.
  revert n; induction s as [| c s IH]; intros [| n] Hl; simpl in *; try reflexivity; try lia.
  rewrite IH by lia. reflexivity.
Qed.

Lemma copy_tags_id (tags : list string) : copy_tags tags = tags.
Proof. destruct tags; reflexivity. Qed.

Lemma SearchDocFromDocument_desc (Normalized : Document -> Document) (d : Document) :
  sum_ShortDescription (sd_Summary (SearchDocFromDocument Normalized d)) =
  String.substring 0 MaxShortDescriptionLen (doc_Description d).
Proof.
  unfold SearchDocFromDocument; simpl.
  destruct (Nat.ltb MaxShortDescriptionLen (String.length (doc_Description d))) eqn:E;
    [reflexivity |].
  apply Nat.ltb_ge in E. rewrite substring_0_short by exact E. reflexivity.
Qed.

(** X1: a Document with non-empty Text, sent to a SearchDoc and back, keeps
    its id, name, namespace, tags and text, has its description cut to its
    first 120 bytes and its category cleared; so a list of Documents with
    non-empty texts, empty categories and descriptions of at most 120 bytes
    comes back unchanged from [SearchDocsFromDocuments] followed by
    [DocumentsFromSearchDocs]. *)
Theorem X1_document_roundtrip (Normalized : Document -> Document) :
  (forall d, doc_Text d <> "" ->
     DocumentFromSearchDoc (SearchDocFromDocument Normalized d) =
     mkDocument (doc_ID d) (doc_Name d) (doc_Namespace d)
       (String.substring 0 MaxShortDescriptionLen (doc_Description d)) (doc_Tags d) "" (doc_Text d)) /\
  (forall ds, Forall (fun d => doc_Text d <> "" /\ doc_Category d = "" /\
                               String.length (doc_Description d) <= MaxShortDescriptionLen) ds ->
     DocumentsFromSearchDocs (SearchDocsFromDocuments Normalized ds) = ds).
Proof.
  assert (H1 : forall d, doc_Text d <> "" ->
     DocumentFromSearchDoc (SearchDocFromDocument Normalized d) =
     mkDocument (doc_ID d) (doc_Name d) (doc_Namespace d)
       (String.substring 0 MaxShortDescriptionLen (doc_Description d)) (doc_Tags d) "" (doc_Text d)).
  { intros d Ht. rewrite <- (SearchDocFromDocument_desc Normalized d).
    apply String.eqb_neq in Ht.
    unfold DocumentFromSearchDoc, SearchDocFromDocument; simpl. rewrite Ht.
    rewrite !copy_tags_id. reflexivity. }
  split; [exact H1 |].
  induction 1 as [| d ds [Ht [Hc Hd]] _ IH]; [reflexivity |].
  unfold DocumentsFromSearchDocs, SearchDocsFromDocuments in *. simpl. rewrite IH, (H1 d Ht).
  rewrite substring_0_short by exact Hd. rewrite <- Hc. destruct d; reflexivity.
Qed.

(** ** The composite searchers: errors, distinct results, the top results *)

Definition is_ok {A} (r : result A) : bool := match r with Ok _ => true | Err _ => false end.

Section SearchFacts.
Local Open Scope list_scope.
Context {F : Type} `{!ScoreOps F}.
Variable Normalized : Document -> Document.

Lemma hybrid_score_docs_err (h : HybridSearcher F) (q : string) (i : nat) (docs : list SearchDoc)
    (e : error) :
  hybrid_score_docs Normalized h q i (map DocumentFromSearchDoc docs) = Err e <->
  exists pre d post, docs = pre ++ d :: post /\
    Forall (fun d' => is_ok (bm25Strategy h q (Normalized (DocumentFromSearchDoc d'))) = true /\
                      is_ok (embeddingStrategy h q (Normalized (DocumentFromSearchDoc d'))) = true) pre /\
    (bm25Strategy h q (Normalized (DocumentFromSearchDoc d)) = Err e \/
     (is_ok (bm25Strategy h q (Normalized (DocumentFromSearchDoc d))) = true /\
      embeddingStrategy h q (Normalized (DocumentFromSearchDoc d)) = Err e)).
Proof.
  split.
  - revert i; induction docs as [| d rest IH]; intros i Hs; simpl in Hs; [discriminate |].
    destruct (bm25Strategy h q (Normalized (DocumentFromSearchDoc d))) as [b | e1] eqn:Hb.
    + destruct (embeddingStrategy h q (Normalized (DocumentFromSearchDoc d))) as [x | e2] eqn:He.
      * destruct (hybrid_score_docs Normalized h q (S i) (map DocumentFromSearchDoc rest)) as [sc | e3] eqn:Hr;
          [discriminate |].
        injection Hs as ->. destruct (IH (S i) Hr) as (pre & d' & post & -> & Hpre & Hd').
        exists (d :: pre), d', post. split; [reflexivity |]. split; [| exact Hd'].
        constructor; [rewrite Hb, He; split; reflexivity | exact Hpre].
      * injection Hs as ->. exists [], d, rest. split; [reflexivity |]. split; [constructor |].
        right. rewrite Hb. split; [reflexivity | exact He].
    + injection Hs as ->. exists [], d, rest. split; [reflexivity |]. split; [constructor | left; exact Hb].
  - intros (pre & d & post & -> & Hpre & Hd). revert i; induction pre as [| d' pre IH]; intros i.
    + simpl. destruct Hd as [Hb | [Hb He]]; [rewrite Hb; reflexivity |].
      destruct (bm25Strategy h q (Normalized (DocumentFromSearchDoc d))); [| discriminate].
      rewrite He. reflexivity.
    + apply Forall_cons in Hpre as [[Hb He] Hpre]. simpl.
      destruct (bm25Strategy h q (Normalized (DocumentFromSearchDoc d'))); [| discriminate].
      destruct (embeddingStrategy h q (Normalized (DocumentFromSearchDoc d'))); [| discriminate].
      rewrite (IH Hpre (S i)). reflexivity.
Qed.

Lemma bm25_score_docs_err (s : BM25OnlySearcher F) (q : string) (i : nat) (docs : list SearchDoc)
    (e : error) :
  bm25_score_docs Normalized s q i (map DocumentFromSearchDoc docs) = Err e <->
  exists pre d post, docs = pre ++ d :: post /\
    Forall (fun d' => is_ok (strategy s q (Normalized (DocumentFromSearchDoc d'))) = true) pre /\
    strategy s q (Normalized (DocumentFromSearchDoc d)) = Err e.
Proof.
  split.
  - revert i; induction docs as [| d rest IH]; intros i Hs; simpl in Hs; [discriminate |].
    destruct (strategy s q (Normalized (DocumentFromSearchDoc d))) as [b | e1] eqn:Hb.
    + destruct (bm25_score_docs Normalized s q (S i) (map DocumentFromSearchDoc rest)) as [sc | e3] eqn:Hr;
        [discriminate |].
      injection Hs as ->. destruct (IH (S i) Hr) as (pre & d' & post & -> & Hpre & Hd').
      exists (d :: pre), d', post. split; [reflexivity |]. split; [| exact Hd'].
      constructor; [rewrite Hb; reflexivity | exact Hpre].
    + injection Hs as ->. exists [], d, rest. split; [reflexivity |]. split; [constructor | exact Hb].
  - intros (pre & d & post & -> & Hpre & Hd). revert i; induction pre as [| d' pre IH]; intros i.
    + simpl. rewrite Hd. reflexivity.
    + apply Forall_cons in Hpre as [Hb Hpre]. simpl.
      destruct (strategy s q (Normalized (DocumentFromSearchDoc d'))); [| discriminate].
      rewrite (IH Hpre (S i)). reflexivity.
Qed.

Lemma hybrid_score_docs_idx (h : HybridSearcher F) (q : string) (i : nat) (ds : list Document)
    (sc : list (scoredDoc F)) :
  hybrid_score_docs Normalized h q i ds = Ok sc ->
  NoDup (map sc_idx sc) /\ Forall (fun s => i <= sc_idx s < i + length ds) sc.
Proof.
  revert i sc; induction ds as [| d rest IH]; intros i sc Hs; simpl in Hs.
  - injection Hs as <-. split; constructor.
  - destruct (bm25Strategy h q (Normalized d)); [| discriminate].
    destruct (embeddingStrategy h q (Normalized d)); [| discriminate].
    destruct (hybrid_score_docs Normalized h q (S i) rest) as [sc' |] eqn:Hr; [| discriminate].
    injection Hs as <-. destruct (IH (S i) sc' Hr) as [Hnd Hb].
    assert (Hb' : Forall (fun s => i <= sc_idx s < i + length (d :: rest)) sc').
    { eapply Forall_impl; [exact Hb | simpl; intros x Hx; lia]. }
    destruct (f_lt f_zero _); [| split; assumption].
    split; [| constructor; [simpl; lia | exact Hb']].
    simpl. constructor; [| exact Hnd].
    intros Hin. apply list_elem_of_fmap in Hin as (x & Hx & Hin).
    rewrite Forall_forall in Hb. specialize (Hb x Hin). simpl in Hx. lia.
Qed.

Lemma bm25_score_docs_idx (s : BM25OnlySearcher F) (q : string) (i : nat) (ds : list Document)
    (sc : list (scoredDoc F)) :
  bm25_score_docs Normalized s q i ds = Ok sc ->
  NoDup (map sc_idx sc) /\ Forall (fun x => i <= sc_idx x < i + length ds) sc.
Proof.
  revert i sc; induction ds as [| d rest IH]; intros i sc Hs; simpl in Hs.
  - injection Hs as <-. split; constructor.
  - destruct (strategy s q (Normalized d)); [| discriminate].
    destruct (bm25_score_docs Normalized s q (S i) rest) as [sc' |] eqn:Hr; [| discriminate].
    injection Hs as <-. destruct (IH (S i) sc' Hr) as [Hnd Hb].
    assert (Hb' : Forall (fun x => i <= sc_idx x < i + length (d :: rest)) sc').
    { eapply Forall_impl; [exact Hb | simpl; intros x Hx; lia]. }
    destruct (f_lt f_zero _); [| split; assumption].
    split; [| constructor; [simpl; lia | exact Hb']].
    simpl. constructor; [| exact Hnd].
    intros Hin. apply list_elem_of_fmap in Hin as (x & Hx & Hin).
    rewrite Forall_forall in Hb. specialize (Hb x Hin). simpl in Hx. lia.
Qed.

Lemma hybrid_score_docs_complete (h : HybridSearcher F) (q : string) (i : nat) (ds : list Document)
    (sc : list (scoredDoc F)) (k : nat) (d : Document) (b e : F) :
  hybrid_score_docs Normalized h q i ds = Ok sc -> ds !! k = Some d ->
  bm25Strategy h q (Normalized d) = Ok b -> embeddingStrategy h q (Normalized d) = Ok e ->
  f_lt f_zero (f_add (f_mul (alpha h) b) (f_mul (f_sub f_one (alpha h)) e)) = true ->
  mkScoredDoc (i + k) (f_add (f_mul (alpha h) b) (f_mul (f_sub f_one (alpha h)) e)) ∈ sc.
Proof.
  revert i sc k; induction ds as [| d0 rest IH]; intros i sc k Hs Hk Hb He Hp; [discriminate |].
  simpl in Hs.
  destruct (bm25Strategy h q (Normalized d0)) as [b0 |] eqn:Hb0; [| discriminate].
  destruct (embeddingStrategy h q (Normalized d0)) as [e0 |] eqn:He0; [| discriminate].
  destruct (hybrid_score_docs Normalized h q (S i) rest) as [sc' |] eqn:Hr; [| discriminate].
  injection Hs as <-. destruct k as [| k]; simpl in Hk.
  - injection Hk as ->. rewrite Hb in Hb0; injection Hb0 as <-. rewrite He in He0; injection He0 as <-.
    rewrite Hp. rewrite Nat.add_0_r. left.
  - assert (Hin : mkScoredDoc (i + S k) (f_add (f_mul (alpha h) b) (f_mul (f_sub f_one (alpha h)) e)) ∈ sc').
    { rewrite <- Nat.add_succ_comm. exact (IH (S i) sc' k Hr Hk Hb He Hp). }
    destruct (f_lt f_zero (f_add (f_mul (alpha h) b0) (f_mul (f_sub f_one (alpha h)) e0)));
      [right |]; exact Hin.
Qed.

Lemma bm25_score_docs_complete (s : BM25OnlySearcher F) (q : string) (i : nat) (ds : list Document)
    (sc : list (scoredDoc F)) (k : nat) (d : Document) (b : F) :
  bm25_score_docs Normalized s q i ds = Ok sc -> ds !! k = Some d ->
  strategy s q (Normalized d) = Ok b -> f_lt f_zero b = true -> mkScoredDoc (i + k) b ∈ sc.
Proof.
  revert i sc k; induction ds as [| d0 rest IH]; intros i sc k Hs Hk Hb Hp; [discriminate |].
  simpl in Hs.
  destruct (strategy s q (Normalized d0)) as [b0 |] eqn:Hb0; [| discriminate].
  destruct (bm25_score_docs Normalized s q (S i) rest) as [sc' |] eqn:Hr; [| discriminate].
  injection Hs as <-. destruct k as [| k]; simpl in Hk.
  - injection Hk as ->. rewrite Hb in Hb0; injection Hb0 as <-.
    rewrite Hp. rewrite Nat.add_0_r. left.
  - assert (Hin : mkScoredDoc (i + S k) b ∈ sc').
    { rewrite <- Nat.add_succ_comm. exact (IH (S i) sc' k Hr Hk Hb Hp). }
    destruct (f_lt f_zero b0); [right |]; exact Hin.
Qed.
End SearchFacts.

Section TruncateFacts.
Local Open Scope list_scope.
Context {F : Type} `{!ScoreOps F}.

Lemma truncate_top (docs : list SearchDoc) (limit : Z) (L : list (scoredDoc F)) (x : scoredDoc F) :
  StronglySorted (fun a b => swap_needed docs b a = false) L -> x ∈ L ->
  x ∈ truncate limit L \/
  (length (truncate limit L) = Z.to_nat limit /\
   Forall (fun y => swap_needed docs x y = false) (truncate limit L)).
Proof.
  intros Hs Hx. unfold truncate. destruct (limit <? Z.of_nat (length L))%Z eqn:E; [| left; exact Hx].
  apply Z.ltb_lt in E.
  rewrite <- (take_drop (Z.to_nat limit) L) in Hx, Hs. apply elem_of_app in Hx as [Hx | Hx]; [left; exact Hx |].
  right. split; [rewrite length_take; lia |].
  apply Forall_forall. intros y Hy. exact (StronglySorted_app_1_elem_of _ _ _ y x Hs Hy Hx).
Qed.

Lemma results_distinct (docs : list SearchDoc) (st : ScoreType) (limit : Z) (sc : list (scoredDoc F)) :
  NoDup (map sc_idx sc) -> Forall (fun s => sc_idx s < length docs) sc ->
  exists ks, NoDup ks /\
    Forall2 (fun k r => exists d, docs !! k = Some d /\ res_Summary r = sd_Summary d /\
                                  res_ScoreType r = st) ks
            (build_results docs st (truncate limit (sortScoredDocs docs sc))).
Proof.
  intros Hnd Hb.
  destruct (truncate_sublist limit (sortScoredDocs docs sc)) as [n [Ht _]].
  exists (map sc_idx (truncate limit (sortScoredDocs docs sc))). split.
  - rewrite Ht. rewrite <- firstn_map.
    assert (Hnd' : NoDup (map sc_idx (sortScoredDocs docs sc))).
    { eapply NoDup_Permutation_proper; [| exact Hnd].
      apply Permutation_map. apply sortScoredDocs_perm. }
    rewrite <- (take_drop n (map sc_idx (sortScoredDocs docs sc))) in Hnd'.
    apply NoDup_app in Hnd' as [H _]. exact H.
  - assert (Hin : forall s, s ∈ truncate limit (sortScoredDocs docs sc) -> sc_idx s < length docs).
    { intros s Hs. apply elem_of_truncate in Hs. rewrite sortScoredDocs_perm in Hs.
      rewrite Forall_forall in Hb. exact (Hb s Hs). }
    unfold build_results. revert Hin. generalize (truncate limit (sortScoredDocs docs sc)) as l.
    induction l as [| s l IH]; intros Hin; simpl; constructor.
    + destruct (lookup_lt_is_Some_2 docs (sc_idx s)) as [d Hd]; [apply Hin; left |].
      exists d. split; [exact Hd |]. simpl. rewrite (list_lookup_total_correct _ _ _ Hd).
      split; reflexivity.
    + apply IH. intros s' Hs'. apply Hin. right. exact Hs'.
Qed.

Lemma build_results_in (docs : list SearchDoc) (st : ScoreType) (l : list (scoredDoc F)) (k : nat)
    (d : SearchDoc) (x : F) :
  docs !! k = Some d -> mkScoredDoc k x ∈ l -> mkResult (sd_Summary d) x st ∈ build_results docs st l.
Proof.
  intros Hd Hx. unfold build_results. apply list_elem_of_fmap.
  exists (mkScoredDoc k x). split; [simpl; rewrite (list_lookup_total_correct _ _ _ Hd); reflexivity | exact Hx].
Qed.
End TruncateFacts.

Lemma map_lookup_Some {A B} (f : A -> B) (l : list A) (k : nat) (x : A) :
  l !! k = Some x -> map f l !! k = Some (f x).
Proof. revert k; induction l as [| y l IH]; intros [| k] H; simpl in *; try discriminate; auto; congruence. Qed.

Lemma build_results_scores_below {F} `{!ScoreOps F} (docs : list SearchDoc) (st : ScoreType)
    (l : list (scoredDoc F)) (x : scoredDoc F) :
  Forall (fun y => swap_needed docs x y = false) l ->
  Forall (fun r => f_lt (res_Score r) (sc_score x) = false) (build_results docs st l).
Proof.
  unfold build_results. induction 1 as [| y l Hy _ IH]; simpl; constructor; [| exact IH].
  simpl. unfold swap_needed in Hy. apply orb_false_iff in Hy as [Hy _]. exact Hy.
Qed.

(** X2: [SearchWithScores] of the hybrid and of the BM25-only searcher fails
    exactly when the limit is positive and some document's scoring fails;
    the error is that of the first such document in the list (for the
    hybrid searcher, its BM25 score is computed before its embedding
    score). *)
Theorem X2_search_first_error {F} `{!ScoreOps F} (Normalized : Document -> Document)
    (h : HybridSearcher F) (s : BM25OnlySearcher F) (q : string) (limit : Z)
    (docs : list SearchDoc) (e : error) :
  (HybridSearchWithScores Normalized h q limit docs = Err e <->
   (0 < limit)%Z /\ exists pre d post, docs = (pre ++ d :: post)%list /\
     Forall (fun d' => is_ok (bm25Strategy h q (Normalized (DocumentFromSearchDoc d'))) = true /\
                       is_ok (embeddingStrategy h q (Normalized (DocumentFromSearchDoc d'))) = true) pre /\
     (bm25Strategy h q (Normalized (DocumentFromSearchDoc d)) = Err e \/
      (is_ok (bm25Strategy h q (Normalized (DocumentFromSearchDoc d))) = true /\
       embeddingStrategy h q (Normalized (DocumentFromSearchDoc d)) = Err e))) /\
  (BM25OnlySearchWithScores Normalized s q limit docs = Err e <->
   (0 < limit)%Z /\ exists pre d post, docs = (pre ++ d :: post)%list /\
     Forall (fun d' => is_ok (strategy s q (Normalized (DocumentFromSearchDoc d'))) = true) pre /\
     strategy s q (Normalized (DocumentFromSearchDoc d)) = Err e).
Proof.
  split.
  - unfold HybridSearchWithScores, DocumentsFromSearchDocs. destruct (limit <=? 0)%Z eqn:Hl.
    + apply Z.leb_le in Hl. split; [discriminate | intros [H _]; lia].
    + apply Z.leb_gt in Hl. rewrite <- (hybrid_score_docs_err Normalized h q 0 docs e).
      destruct (hybrid_score_docs Normalized h q 0 (map DocumentFromSearchDoc docs)).
      * split; [discriminate | intros [_ H]; discriminate].
      * split; [intros H; injection H as ->; split; [lia | reflexivity]
               | intros [_ H]; injection H as ->; reflexivity].
  - unfold BM25OnlySearchWithScores, DocumentsFromSearchDocs. destruct (limit <=? 0)%Z eqn:Hl.
    + apply Z.leb_le in Hl. split; [discriminate | intros [H _]; lia].
    + apply Z.leb_gt in Hl. rewrite <- (bm25_score_docs_err Normalized s q 0 docs e).
      destruct (bm25_score_docs Normalized s q 0 (map DocumentFromSearchDoc docs)).
      * split; [discriminate | intros [_ H]; discriminate].
      * split; [intros H; injection H as ->; split; [lia | reflexivity]
               | intros [_ H]; injection H as ->; reflexivity].
Qed.

(** X3: every result of a successful [SearchWithScores] (hybrid or
    BM25-only) carries the summary of a document of the list and the
    searcher's score type, and no document position gives two results. *)
Theorem X3_search_results_distinct_docs {F} `{!ScoreOps F} (Normalized : Document -> Document)
    (h : HybridSearcher F) (s : BM25OnlySearcher F) (q : string) (limit : Z) (docs : list SearchDoc) :
  (forall rs, HybridSearchWithScores Normalized h q limit docs = Ok rs ->
     exists ks, NoDup ks /\
       Forall2 (fun k r => exists d, docs !! k = Some d /\ res_Summary r = sd_Summary d /\
                                     res_ScoreType r = ScoreHybrid) ks rs) /\
  (forall rs, BM25OnlySearchWithScores Normalized s q limit docs = Ok rs ->
     exists ks, NoDup ks /\
       Forall2 (fun k r => exists d, docs !! k = Some d /\ res_Summary r = sd_Summary d /\
                                     res_ScoreType r = ScoreBM25) ks rs).
Proof.
  split; intros rs Hs.
  - unfold HybridSearchWithScores in Hs. destruct (limit <=? 0)%Z.
    + injection Hs as <-. exists []. split; constructor.
    + destruct (hybrid_score_docs Normalized h q 0 (DocumentsFromSearchDocs docs)) as [sc |] eqn:Hsc;
        [| discriminate].
      injection Hs as <-. destruct (hybrid_score_docs_idx Normalized h q 0 _ sc Hsc) as [Hnd Hb].
      apply results_distinct; [exact Hnd |].
      eapply Forall_impl; [exact Hb |]. intros x Hx. unfold DocumentsFromSearchDocs in Hx.
      rewrite length_map in Hx. lia.
  - unfold BM25OnlySearchWithScores in Hs. destruct (limit <=? 0)%Z.
    + injection Hs as <-. exists []. split; constructor.
    + destruct (bm25_score_docs Normalized s q 0 (DocumentsFromSearchDocs docs)) as [sc |] eqn:Hsc;
        [| discriminate].
      injection Hs as <-. destruct (bm25_score_docs_idx Normalized s q 0 _ sc Hsc) as [Hnd Hb].
      apply results_distinct; [exact Hnd |].
      eapply Forall_impl; [exact Hb |]. intros x Hx. unfold DocumentsFromSearchDocs in Hx.
      rewrite length_map in Hx. lia.
Qed.

(** X4: at [float64], a successful [SearchWithScores] with a positive limit
    (hybrid or BM25-only) returns the result of every document whose score
    is positive, unless the list is full: then it has exactly [limit]
    results and none of them scores below that document. *)
Theorem X4_search_returns_top_results (Normalized : Document -> Document) (h : HybridSearcher float)
    (s : BM25OnlySearcher float) (q : string) (limit : Z) (docs : list SearchDoc) :
  (forall rs, HybridSearchWithScores Normalized h q limit docs = Ok rs ->
   forall k d b e, docs !! k = Some d ->
     bm25Strategy h q (Normalized (DocumentFromSearchDoc d)) = Ok b ->
     embeddingStrategy h q (Normalized (DocumentFromSearchDoc d)) = Ok e ->
     f_lt f_zero (f_add (f_mul (alpha h) b) (f_mul (f_sub f_one (alpha h)) e)) = true ->
     (0 < limit)%Z ->
     mkResult (sd_Summary d) (f_add (f_mul (alpha h) b) (f_mul (f_sub f_one (alpha h)) e)) ScoreHybrid ∈ rs \/
     (length rs = Z.to_nat limit /\
      Forall (fun r => f_lt (res_Score r) (f_add (f_mul (alpha h) b) (f_mul (f_sub f_one (alpha h)) e)) = false) rs)) /\
  (forall rs, BM25OnlySearchWithScores Normalized s q limit docs = Ok rs ->
   forall k d b, docs !! k = Some d ->
     strategy s q (Normalized (DocumentFromSearchDoc d)) = Ok b -> f_lt f_zero b = true ->
     (0 < limit)%Z ->
     mkResult (sd_Summary d) b ScoreBM25 ∈ rs \/
     (length rs = Z.to_nat limit /\ Forall (fun r => f_lt (res_Score r) b = false) rs)).
Proof.
  split.
  - intros rs Hs k d b e Hk Hb He Hp Hl. unfold HybridSearchWithScores in Hs.
    assert (Hl' : (limit <=? 0)%Z = false) by (apply Z.leb_gt; exact Hl). rewrite Hl' in Hs.
    destruct (hybrid_score_docs Normalized h q 0 (DocumentsFromSearchDocs docs)) as [sc |] eqn:Hsc;
      [| discriminate].
    injection Hs as <-.
    pose proof (hybrid_score_docs_complete Normalized h q 0 _ sc k _ b e Hsc
                  (map_lookup_Some DocumentFromSearchDoc _ _ _ Hk) Hb He Hp) as Hx.
    simpl in Hx. rewrite <- (sortScoredDocs_perm docs sc) in Hx.
    destruct (truncate_top docs limit _ _ (sortScoredDocs_sorted_float docs sc) Hx) as [Hin | [Hlen Hall]].
    + left. exact (build_results_in docs ScoreHybrid _ k d _ Hk Hin).
    + right. split; [unfold build_results; rewrite length_map; exact Hlen |].
      exact (build_results_scores_below docs ScoreHybrid _ _ Hall).
  - intros rs Hs k d b Hk Hb Hp Hl. unfold BM25OnlySearchWithScores in Hs.
    assert (Hl' : (limit <=? 0)%Z = false) by (apply Z.leb_gt; exact Hl). rewrite Hl' in Hs.
    destruct (bm25_score_docs Normalized s q 0 (DocumentsFromSearchDocs docs)) as [sc |] eqn:Hsc;
      [| discriminate].
    injection Hs as <-.
    pose proof (bm25_score_docs_complete Normalized s q 0 _ sc k _ b Hsc
                  (map_lookup_Some DocumentFromSearchDoc _ _ _ Hk) Hb Hp) as Hx.
    simpl in Hx. rewrite <- (sortScoredDocs_perm docs sc) in Hx.
    destruct (truncate_top docs limit _ _ (sortScoredDocs_sorted_float docs sc) Hx) as [Hin | [Hlen Hall]].
    + left. exact (build_results_in docs ScoreBM25 _ k d _ Hk Hin).
    + right. split; [unfold build_results; rewrite length_map; exact Hlen |].
      exact (build_results_scores_below docs ScoreBM25 _ _ Hall).
Qed.

(** ** The result helpers (discovery/result.go) *)

(** [Results.IDs] and [Results.Summaries]. *)
Definition Results_IDs {F} (rs : list (Result F)) : list string :=
  map (fun r => sum_ID (res_Summary r)) rs.
Definition Results_Summaries {F} (rs : list (Result F)) : list Summary := map res_Summary rs.

(** [Results.FilterByNamespace]. *)
Definition FilterByNamespace {F} (namespace : string) (rs : list (Result F)) : list (Result F) :=
  List.filter (fun r => String.eqb (sum_Namespace (res_Summary r)) namespace) rs.

(** [Results.FilterByMinScore]: [result.Score >= minScore]. *)
Definition FilterByMinScore (minScore : float) (rs : list (Result float)) : list (Result float) :=
  List.filter (fun r => PrimFloat.leb minScore (res_Score r)) rs.

Lemma sf_le_of_lt_false m x y :
  SFltb (S754_zero false) x = true -> SFltb (S754_zero false) y = true ->
  SFltb x y = false -> SFleb m y = true -> SFleb m x = true.
Proof. unfold SFltb, SFleb. sf_destruct3 x y m. Qed.

Lemma sf_le_of_le_zero m x :
  SFleb m (S754_zero false) = true -> SFltb (S754_zero false) x = true -> SFleb m x = true.
Proof.
  unfold SFltb, SFleb. destruct x as [sx | sx | | sx mx ex], m as [sm | sm | | sm mm em];
    simpl; try destruct sx; try destruct sm; simpl; try discriminate; try reflexivity; intros; sf_cases.
Qed.

Lemma float_le_of_lt_false (m x y : float) :
  f_lt f_zero x = true -> f_lt f_zero y = true -> f_lt x y = false ->
  PrimFloat.leb m y = true -> PrimFloat.leb m x = true.
Proof.
  simpl. rewrite !FloatAxioms.ltb_spec, !FloatAxioms.leb_spec. apply sf_le_of_lt_false.
Qed.

Lemma float_le_of_le_zero (m x : float) :
  PrimFloat.leb m 0 = true -> f_lt f_zero x = true -> PrimFloat.leb m x = true.
Proof. simpl. rewrite !FloatAxioms.ltb_spec, !FloatAxioms.leb_spec. apply sf_le_of_le_zero. Qed.

Section FilterFacts.
Local Open Scope list_scope.

Lemma filter_all_false {A} (P : A -> bool) (l : list A) :
  Forall (fun b => P b = false) l -> List.filter P l = [].
Proof. induction 1 as [| x l Hx _ IH]; simpl; [reflexivity | rewrite Hx; exact IH]. Qed.

Lemma filter_prefix {A} (R : A -> A -> Prop) (P : A -> bool) (l : list A) :
  StronglySorted R l ->
  (forall a b, a ∈ l -> b ∈ l -> R a b -> P a = false -> P b = false) ->
  exists n, List.filter P l = take n l.
Proof.
  induction 1 as [| x l Hs IH Hall]; intros HP; [exists 0; reflexivity |].
  simpl. destruct (P x) eqn:Px.
  - destruct IH as [n Hn]; [intros a b Ha Hb; apply HP; right; assumption |].
    exists (S n). rewrite Hn. reflexivity.
  - exists 0. simpl. apply filter_all_false. rewrite Forall_forall in Hall |- *.
    intros b Hb. apply (HP x b); [left | right; exact Hb | apply Hall; exact Hb | exact Px].
Qed.

Lemma StronglySorted_filter {A} (R : A -> A -> Prop) (P : A -> bool) (l : list A) :
  StronglySorted R l -> StronglySorted R (List.filter P l).
Proof.
  induction 1 as [| x l Hs IH Hall]; simpl; [constructor |].
  destruct (P x); [| exact IH]. constructor; [exact IH |].
  rewrite Forall_forall in Hall |- *. intros y Hy. apply Hall.
  apply list_elem_of_In in Hy. apply filter_In in Hy as [Hy _]. apply list_elem_of_In. exact Hy.
Qed.

Lemma StronglySorted_map {A B} (R : A -> A -> Prop) (R' : B -> B -> Prop) (f : A -> B) (l : list A) :
  (forall a b, R a b -> R' (f a) (f b)) -> StronglySorted R l -> StronglySorted R' (map f l).
Proof.
  intros HR. induction 1 as [| x l Hs IH Hall]; simpl; [constructor |].
  constructor; [exact IH |].
  apply Forall_forall. rewrite Forall_forall in Hall. intros y Hy.
  apply list_elem_of_fmap in Hy as (z & -> & Hz). apply HR, Hall, Hz.
Qed.

Lemma Forall_filter_sub {A} (Q : A -> Prop) (P : A -> bool) (l : list A) :
  Forall Q l -> Forall Q (List.filter P l).
Proof.
  rewrite !Forall_forall. intros H x Hx. apply list_elem_of_In in Hx. apply filter_In in Hx as [Hx _].
  apply H. apply list_elem_of_In. exact Hx.
Qed.

Lemma filter_length_le' {A} (P : A -> bool) (l : list A) : length (List.filter P l) <= length l.
Proof. induction l as [| x l IH]; simpl; [lia | destruct (P x); simpl; lia]. Qed.

Lemma filter_build_results {F} `{!ScoreOps F} (docs : list SearchDoc) (st : ScoreType)
    (sl : list (scoredDoc F)) (P : Result F -> bool) :
  List.filter P (build_results docs st sl) =
  build_results docs st (List.filter (fun x => P (mkResult (sd_Summary (docs !!! sc_idx x)) (sc_score x) st)) sl).
Proof.
  unfold build_results. induction sl as [| x sl IH]; simpl; [reflexivity |].
  destruct (P _); simpl; rewrite IH; reflexivity.
Qed.

Lemma in_order_filter {F} `{!ScoreOps F} (docs : list SearchDoc) (st : ScoreType) (limit : Z)
    (rs : list (Result F)) (P : Result F -> bool) :
  results_in_search_order docs st limit rs -> results_in_search_order docs st limit (List.filter P rs).
Proof.
  intros (H0 & Hlen & sl & -> & Hpos & Hs). split; [| split].
  - intros Hl. rewrite (H0 Hl). reflexivity.
  - pose proof (filter_length_le' P (build_results docs st sl)). lia.
  - rewrite filter_build_results. eexists. split; [reflexivity |]. split.
    + apply Forall_filter_sub. exact Hpos.
    + apply StronglySorted_filter. exact Hs.
Qed.

Lemma in_order_min_score (docs : list SearchDoc) (st : ScoreType) (limit : Z)
    (rs : list (Result float)) (m : float) :
  results_in_search_order docs st limit rs ->
  (exists n, FilterByMinScore m rs = take n rs) /\
  (PrimFloat.leb m 0 = true -> FilterByMinScore m rs = rs).
Proof.
  intros (_ & _ & sl & -> & Hpos & Hs).
  assert (Hpos' : Forall (fun r => f_lt f_zero (res_Score r) = true) (build_results docs st sl)).
  { unfold build_results. rewrite Forall_forall in Hpos. apply Forall_forall. intros r Hr.
    apply list_elem_of_fmap in Hr as (x & -> & Hx). apply Hpos, Hx. }
  split.
  - apply (filter_prefix (fun r1 r2 => f_lt (res_Score r1) (res_Score r2) = false)).
    + unfold build_results. eapply StronglySorted_map; [| exact Hs].
      intros a b [Hab _]. exact Hab.
    + intros a b Ha Hb Hab Pa. rewrite Forall_forall in Hpos'.
      apply not_true_is_false. intros Pb.
      pose proof (float_le_of_lt_false m _ _ (Hpos' a Ha) (Hpos' b Hb) Hab Pb). congruence.
  - intros Hm. unfold FilterByMinScore. induction Hpos' as [| r l Hr _ IH]; simpl; [reflexivity |].
    rewrite (float_le_of_le_zero m _ Hm Hr), IH. reflexivity.
Qed.
End FilterFacts.

Lemma search_ok_in_order (Normalized : Document -> Document) (h : HybridSearcher float)
    (s : BM25OnlySearcher float) (q : string) (limit : Z) (docs : list SearchDoc) :
  (forall rs, HybridSearchWithScores Normalized h q limit docs = Ok rs ->
     results_in_search_order docs ScoreHybrid limit rs) /\
  (forall rs, BM25OnlySearchWithScores Normalized s q limit docs = Ok rs ->
     results_in_search_order docs ScoreBM25 limit rs).
Proof.
  split; intros rs Hs.
  - unfold HybridSearchWithScores in Hs. destruct (limit <=? 0)%Z eqn:Hl.
    + injection Hs as <-. apply Z.leb_le in Hl. split; [reflexivity |]. split; [simpl; lia |].
      exists []. repeat constructor.
    + destruct (hybrid_score_docs Normalized h q 0 (DocumentsFromSearchDocs docs)) as [sc |] eqn:Hsc;
        [| discriminate].
      injection Hs as <-. apply Z.leb_gt in Hl. apply sorted_output_ordered; [exact Hl |].
      apply Forall_forall. intros x Hx.
      destruct (hybrid_score_docs_spec Normalized h q 0 _ sc Hsc x Hx) as (_ & _ & _ & _ & _ & _ & _ & _ & _ & Hp).
      exact Hp.
  - unfold BM25OnlySearchWithScores in Hs. destruct (limit <=? 0)%Z eqn:Hl.
    + injection Hs as <-. apply Z.leb_le in Hl. split; [reflexivity |]. split; [simpl; lia |].
      exists []. repeat constructor.
    + destruct (bm25_score_docs Normalized s q 0 (DocumentsFromSearchDocs docs)) as [sc |] eqn:Hsc;
        [| discriminate].
      injection Hs as <-. apply Z.leb_gt in Hl. apply sorted_output_ordered; [exact Hl |].
      apply Forall_forall. intros x Hx.
      destruct (bm25_score_docs_spec Normalized s q 0 _ sc Hsc x Hx) as (_ & _ & _ & _ & _ & Hp).
      exact Hp.
Qed.

(** X5: [FilterByMinScore] applied to the results of a successful
    [SearchWithScores] (hybrid or BM25-only) keeps a prefix of them, since
    they come by descending score; with a minimum of at most 0 it keeps
    them all, since every returned score is positive. *)
Theorem X5_min_score_filter_prefix (Normalized : Document -> Document) (h : HybridSearcher float)
    (s : BM25OnlySearcher float) (q : string) (limit : Z) (docs : list SearchDoc) (m : float) :
  (forall rs, HybridSearchWithScores Normalized h q limit docs = Ok rs ->
     (exists n, FilterByMinScore m rs = take n rs) /\
     (PrimFloat.leb m 0 = true -> FilterByMinScore m rs = rs)) /\
  (forall rs, BM25OnlySearchWithScores Normalized s q limit docs = Ok rs ->
     (exists n, FilterByMinScore m rs = take n rs) /\
     (PrimFloat.leb m 0 = true -> FilterByMinScore m rs = rs)).
Proof.
  destruct (search_ok_in_order Normalized h s q limit docs) as [H1 H2].
  split; intros rs Hs.
  - exact (in_order_min_score docs ScoreHybrid limit rs m (H1 rs Hs)).
  - exact (in_order_min_score docs ScoreBM25 limit rs m (H2 rs Hs)).
Qed.

(** X6: [FilterByNamespace] and [FilterByMinScore] commute, and filtering
    the results of a successful [SearchWithScores] (hybrid or BM25-only)
    with either of them leaves results that are still in search order:
    at most [limit] of them, positively scored, by descending score and,
    among equal scores, ascending document id. *)
Theorem X6_filters_keep_search_order (Normalized : Document -> Document) (h : HybridSearcher float)
    (s : BM25OnlySearcher float) (q : string) (limit : Z) (docs : list SearchDoc)
    (ns : string) (m : float) :
  (forall rs : list (Result float),
     FilterByNamespace ns (FilterByMinScore m rs) = FilterByMinScore m (FilterByNamespace ns rs)) /\
  (forall rs, HybridSearchWithScores Normalized h q limit docs = Ok rs ->
     results_in_search_order docs ScoreHybrid limit (FilterByNamespace ns rs) /\
     results_in_search_order docs ScoreHybrid limit (FilterByMinScore m rs)) /\
  (forall rs, BM25OnlySearchWithScores Normalized s q limit docs = Ok rs ->
     results_in_search_order docs ScoreBM25 limit (FilterByNamespace ns rs) /\
     results_in_search_order docs ScoreBM25 limit (FilterByMinScore m rs)).
Proof.
  destruct (search_ok_in_order Normalized h s q limit docs) as [H1 H2].
  split; [| split].
  - intros rs. unfold FilterByNamespace, FilterByMinScore.
    induction rs as [| r rs IH]; simpl; [reflexivity |].
    destruct (PrimFloat.leb m (res_Score r)) eqn:Em, (String.eqb (sum_Namespace (res_Summary r)) ns) eqn:En;
      simpl; rewrite ?Em, ?En, IH; reflexivity.
  - intros rs Hs. split; apply in_order_filter; exact (H1 rs Hs).
  - intros rs Hs. split; apply in_order_filter; exact (H2 rs Hs).
Qed.

Lemma sf_eqb_refl_nan (x : spec_float) : SFeqb x x = false -> x = S754_nan.
Proof.
  destruct x as [s | s | | s m e]; unfold SFeqb, SFcompare; try (destruct s; discriminate); [reflexivity |].
  destruct s; rewrite Z.compare_refl, Pos.compare_cont_refl; simpl; discriminate.
Qed.

Lemma float_is_nan_sf (a : float) : PrimFloat.is_nan a = true -> Prim2SF a = S754_nan.
Proof.
  unfold PrimFloat.is_nan. rewrite FloatAxioms.eqb_spec. intros H. apply sf_eqb_refl_nan.
  destruct (SFeqb _ _); [discriminate | reflexivity].
Qed.

Lemma nan_not_out_of_range (a : float) :
  PrimFloat.is_nan a = true -> (PrimFloat.ltb a 0 || PrimFloat.ltb 1 a)%bool = false /\ PrimFloat.eqb a 0 = false.
Proof.
  intros H. rewrite !FloatAxioms.ltb_spec, FloatAxioms.eqb_spec, (float_is_nan_sf a H).
  split; [destruct (Prim2SF 1) |]; reflexivity.
Qed.

Lemma nan_hybrid_not_positive (a b e : float) : PrimFloat.is_nan a = true ->
  PrimFloat.ltb 0 (a * b + (1 - a) * e)%float = false.
Proof.
  intros H. rewrite FloatAxioms.ltb_spec, FloatAxioms.add_spec, FloatAxioms.mul_spec, (float_is_nan_sf a H).
  simpl. destruct (Prim2SF 0); reflexivity.
Qed.

Lemma zero_in_range (a : float) :
  PrimFloat.eqb a 0 = true -> (PrimFloat.ltb a 0 || PrimFloat.ltb 1 a)%bool = false.
Proof.
  rewrite FloatAxioms.eqb_spec, !FloatAxioms.ltb_spec.
  change (Prim2SF 0) with (S754_zero false). change (Prim2SF 1) with (S754_finite false 4503599627370496 (-52)).
  destruct (Prim2SF a) as [[] | [] | | [] m e]; simpl; try reflexivity; discriminate.
Qed.

Lemma hybrid_score_docs_nan (Normalized : Document -> Document) (h : HybridSearcher float)
    (q : string) (i : nat) (ds : list Document) (sc : list (scoredDoc float)) :
  PrimFloat.is_nan (alpha h) = true -> hybrid_score_docs Normalized h q i ds = Ok sc -> sc = [].
Proof.
  intros Hn. revert i sc. induction ds as [| d rest IH]; intros i sc Hs; simpl in Hs.
  - injection Hs as <-. reflexivity.
  - destruct (bm25Strategy h q (Normalized d)) as [b |]; [| discriminate].
    destruct (embeddingStrategy h q (Normalized d)) as [e |]; [| discriminate].
    destruct (hybrid_score_docs Normalized h q (S i) rest) as [sc' |] eqn:Hr; [| discriminate].
    injection Hs as <-. simpl. rewrite (nan_hybrid_not_positive _ b e Hn). exact (IH _ _ Hr).
Qed.

(** X7: [NewHybridSearcher]'s range check [alpha < 0 || alpha > 1] is false
    for a NaN weight, so [discovery.New] with an embedder and a NaN
    [HybridAlpha] succeeds, keeping the supplied index (or a new empty one)
    and building a hybrid searcher whose weight is NaN;
    every hybrid score of that searcher is NaN, never [> 0], so each of its
    successful searches returns no result at all. *)
Theorem X7_nan_alpha_accepted_finds_nothing (opts : Options) (emb : EmbedderF) :
  opt_Embedder opts = Some emb -> PrimFloat.is_nan (opt_HybridAlpha opts) = true ->
  exists h,
    New opts = Ok (mkDiscovery (default emptyIndex (opt_Index opts)) (SearchHybrid h) ScoreHybrid ∅
                     (if (opt_MaxExamples opts =? 0)%Z then 10%Z else opt_MaxExamples opts)) /\
    PrimFloat.is_nan (alpha h) = true /\
    forall Normalized q limit docs rs,
      HybridSearchWithScores Normalized h q limit docs = Ok rs -> rs = [].
Proof.
  intros He Hn. destruct (nan_not_out_of_range _ Hn) as [Hr Hz].
  unfold New. rewrite He, Hz. unfold NewHybridSearcherF, NewHybridSearcher. simpl ho_Embedder.
  simpl ho_Alpha. change (f_lt (opt_HybridAlpha opts) f_zero || f_lt f_one (opt_HybridAlpha opts))%bool
    with (PrimFloat.ltb (opt_HybridAlpha opts) 0 || PrimFloat.ltb 1 (opt_HybridAlpha opts))%bool.
  rewrite Hr. eexists. split; [reflexivity |]. split; [exact Hn |].
  intros Normalized q limit docs rs Hs. unfold HybridSearchWithScores in Hs.
  destruct (limit <=? 0)%Z; [injection Hs as <-; reflexivity |].
  destruct (hybrid_score_docs Normalized _ q 0 (DocumentsFromSearchDocs docs)) as [sc |] eqn:Hsc;
    [| discriminate].
  injection Hs as <-. apply hybrid_score_docs_nan in Hsc; [| exact Hn]. subst sc.
  unfold truncate. simpl. destruct (_ <? _)%Z; simpl; [rewrite firstn_nil |]; reflexivity.
Qed.

Definition x7_opts : Options := mkOptions None false (Some (fun _ => Ok [])) PrimFloat.nan 0.

Lemma X7_nan_alpha_accepted_finds_nothing_witness :
  exists h,
    New x7_opts = Ok (mkDiscovery emptyIndex (SearchHybrid h) ScoreHybrid ∅ 10%Z) /\
    PrimFloat.is_nan (alpha h) = true /\
    forall Normalized q limit docs rs,
      HybridSearchWithScores Normalized h q limit docs = Ok rs -> rs = [].
Proof.
  exact (X7_nan_alpha_accepted_finds_nothing x7_opts (fun _ => Ok []) eq_refl eq_refl).
Defined.

(** X8: [discovery.New] fails exactly when an embedder is given and
    [HybridAlpha] is below 0 or above 1 (the defaulting of 0 to 0.5 never
    causes a failure), and then with [ErrInvalidHybridConfig]; on success it
    uses the supplied index, or a new empty one when none is given, and a
    new empty doc store, with [MaxExamples] 0 replaced
    by 10 and kept otherwise, and with the hybrid score type exactly when an
    embedder is given. *)
Theorem X8_new_options (opts : Options) :
  (forall e, New opts = Err e <->
     opt_Embedder opts <> None /\
     (PrimFloat.ltb (opt_HybridAlpha opts) 0 || PrimFloat.ltb 1 (opt_HybridAlpha opts))%bool = true /\
     e = ErrInvalidHybridConfig) /\
  (forall d, New opts = Ok d ->
     d_idx d = default emptyIndex (opt_Index opts) /\ d_docs d = ∅ /\
     d_maxExamples d = (if (opt_MaxExamples opts =? 0)%Z then 10%Z else opt_MaxExamples opts) /\
     (d_scoreType d = ScoreHybrid <-> opt_Embedder opts <> None)).
Proof.
  unfold New, NewHybridSearcherF, NewHybridSearcher. simpl ho_Embedder. simpl ho_Alpha.
  destruct (opt_Embedder opts) as [emb |].
  - destruct (PrimFloat.eqb (opt_HybridAlpha opts) 0) eqn:Hz.
    + rewrite (zero_in_range _ Hz). split.
      * intros e. split; [discriminate | intros (_ & H & _); discriminate].
      * intros d Hd. injection Hd as <-. simpl. repeat split; try discriminate; try reflexivity; intros _; reflexivity.
    + change (f_lt (opt_HybridAlpha opts) f_zero || f_lt f_one (opt_HybridAlpha opts))%bool
        with (PrimFloat.ltb (opt_HybridAlpha opts) 0 || PrimFloat.ltb 1 (opt_HybridAlpha opts))%bool.
      destruct (PrimFloat.ltb (opt_HybridAlpha opts) 0 || PrimFloat.ltb 1 (opt_HybridAlpha opts))%bool.
      * split.
        -- intros e. split.
           ++ intros H. injection H as <-. split; [discriminate | split; reflexivity].
           ++ intros (_ & _ & ->). reflexivity.
        -- intros d Hd. discriminate.
      * split.
        -- intros e. split; [discriminate | intros (_ & H & _); discriminate].
        -- intros d Hd. injection Hd as <-. simpl. repeat split; try discriminate; try reflexivity; intros _; reflexivity.
  - split.
    + intros e. split; [destruct (opt_Searcher opts); discriminate | intros ([] & _)]. reflexivity.
    + intros d Hd. destruct (opt_Searcher opts); injection Hd as <-; simpl;
        repeat split; try discriminate; intros []; reflexivity.
Qed.

Section RegistryFacts.
Local Open Scope list_scope.

Lemma elem_of_update_backend (k n : string) (b1 : mcpBackend) (f : mcpBackend -> mcpBackend)
    (bs : list (string * mcpBackend)) :
  (k, b1) ∈ update_backend n f bs ->
  exists b0, (k, b0) ∈ bs /\ b1 = if String.eqb n k then f b0 else b0.
Proof.
  unfold update_backend. intros H. apply list_elem_of_fmap in H as ([k0 b0] & Heq & Hin).
  simpl in Heq. exists b0. destruct (String.eqb n k0) eqn:E; injection Heq as -> ->; rewrite E;
    split; first [exact Hin | reflexivity].
Qed.

Lemma keys_update_backend (n : string) (f : mcpBackend -> mcpBackend) (bs : list (string * mcpBackend)) :
  map fst (update_backend n f bs) = map fst bs.
Proof.
  unfold update_backend. rewrite map_map. apply map_ext. intros [k b]. simpl.
  destruct (String.eqb n k); reflexivity.
Qed.

Lemma tools_update_disconnect (n : string) (bs : list (string * mcpBackend)) :
  map (fun nb => b_tools (snd nb)) (update_backend n disconnect bs) = map (fun nb => b_tools (snd nb)) bs.
Proof.
  unfold update_backend. rewrite map_map. apply map_ext. intros [k b]. simpl.
  destruct (String.eqb n k); reflexivity.
Qed.

Lemma lookup_backend_key (n : string) (bs : list (string * mcpBackend)) :
  n ∈ map fst bs -> exists b, lookup_backend n bs = Some b.
Proof.
  induction bs as [| [k b] bs IH]; simpl; intros H; [apply elem_of_nil in H; contradiction |].
  destruct (String.eqb n k) eqn:E; [exists b; reflexivity |].
  apply elem_of_cons in H as [-> | H]; [rewrite String.eqb_refl in E; discriminate | exact (IH H)].
Qed.

Lemma lookup_backend_elem (n : string) (b : mcpBackend) (bs : list (string * mcpBackend)) :
  lookup_backend n bs = Some b -> (n, b) ∈ bs.
Proof.
  induction bs as [| [k b0] bs IH]; simpl; intros H; [discriminate |].
  destruct (String.eqb n k) eqn:E.
  - apply String.eqb_eq in E. subst k. injection H as ->. left.
  - right. exact (IH H).
Qed.

Lemma lookup_backend_nodup (n : string) (b : mcpBackend) (bs : list (string * mcpBackend)) :
  NoDup (map fst bs) -> (n, b) ∈ bs -> lookup_backend n bs = Some b.
Proof.
  induction bs as [| [k b0] bs IH]; simpl; intros Hnd H; [apply elem_of_nil in H; contradiction |].
  apply NoDup_cons in Hnd as [Hk Hnd].
  apply elem_of_cons in H as [H | H].
  - injection H as -> ->. rewrite String.eqb_refl. reflexivity.
  - destruct (String.eqb n k) eqn:E.
    + apply String.eqb_eq in E. subst k. exfalso. apply Hk.
      apply list_elem_of_fmap. exists (n, b). split; [reflexivity | exact H].
    + exact (IH Hnd H).
Qed.

Lemma first_disconnected_none (bs : list (string * mcpBackend)) :
  first_disconnected bs = None <-> forall k b, (k, b) ∈ bs -> b_connected b = true.
Proof.
  induction bs as [| [k b] bs IH]; simpl.
  - split; [intros _ k b H; apply elem_of_nil in H; contradiction | reflexivity].
  - destruct (b_connected b) eqn:Hb; simpl.
    + rewrite IH. split.
      * intros H k' b' Hin. apply elem_of_cons in Hin as [Hin | Hin]; [injection Hin as -> ->; exact Hb |].
        exact (H k' b' Hin).
      * intros H k' b' Hin. apply (H k' b'). right. exact Hin.
    + split; [discriminate |]. intros H. rewrite (H k b) in Hb; [discriminate | left].
Qed.

Lemma start_loop_ok (servers : MCPServers) (names connected : list string) (r r' : Registry) :
  start_loop servers names connected r = (Ok tt, r') ->
  (forall n, n ∈ names -> n ∈ map fst (r_backends r)) ->
  (forall k b, (k, b) ∈ r_backends r -> b_connected b = true \/ k ∈ names) ->
  r_started r' = r_started r /\ forall k b, (k, b) ∈ r_backends r' -> b_connected b = true.
Proof.
  revert connected r. induction names as [| n rest IH]; intros connected r Hs Hkeys Hinv; simpl in Hs.
  - injection Hs as <-. split; [reflexivity |]. intros k b Hin.
    destruct (Hinv k b Hin) as [H | H]; [exact H | apply elem_of_nil in H; contradiction].
  - destruct (lookup_backend_key n (r_backends r) (Hkeys n ltac:(left))) as [b Hb]. rewrite Hb in Hs.
    destruct (connect servers n b) as [b' |] eqn:Hc; [| discriminate].
    assert (Hb' : b_connected b' = true).
    { unfold connect in Hc. destruct (b_connected b) eqn:E; [injection Hc as <-; exact E |].
      destruct (servers n); [injection Hc as <-; reflexivity | discriminate]. }
    destruct (RegisterToolsFromMCP _ n (b_tools b')) as [[u |] idx'] eqn:Hreg; [| discriminate].
    destruct (IH _ _ Hs) as [Hst Hall].
    + intros m Hm. simpl. rewrite keys_update_backend. apply Hkeys. right. exact Hm.
    + intros k b1 Hin. simpl in Hin. apply elem_of_update_backend in Hin as (b0 & Hin & ->).
      destruct (String.eqb n k) eqn:E; [left; exact Hb' |].
      destruct (Hinv k b0 Hin) as [H | H]; [left; exact H |].
      apply elem_of_cons in H as [-> | H]; [rewrite String.eqb_refl in E; discriminate | right; exact H].
    + split; [exact Hst | exact Hall].
Qed.

Lemma start_loop_err_not_started (servers : MCPServers) (names connected : list string) (r r' : Registry)
    (e : error) :
  start_loop servers names connected r = (Err e, r') -> r_started r' = false.
Proof.
  revert connected r. induction names as [| n rest IH]; intros connected r Hs; simpl in Hs; [discriminate |].
  destruct (lookup_backend n (r_backends r)) as [b |]; [| discriminate].
  destruct (connect servers n b) as [b' |]; [| injection Hs as _ <-; reflexivity].
  destruct (RegisterToolsFromMCP _ n (b_tools b')) as [[u |] idx']; [exact (IH _ _ Hs) |].
  injection Hs as _ <-. reflexivity.
Qed.

Lemma stop_loop_frame (close : string -> result unit) (names : list string) (r : Registry) :
  r_started (snd (stop_loop close names r)) = r_started r /\
  r_index (snd (stop_loop close names r)) = r_index r /\
  map fst (r_backends (snd (stop_loop close names r))) = map fst (r_backends r) /\
  map (fun nb => b_tools (snd nb)) (r_backends (snd (stop_loop close names r))) =
    map (fun nb => b_tools (snd nb)) (r_backends r).
Proof.
  revert r. induction names as [| n rest IH]; intros r; simpl; [auto |].
  destruct (lookup_backend n (r_backends r)) as [b |]; [| simpl; auto].
  destruct (b_connected b); [| exact (IH r)].
  destruct (close n) as [u |].
  - destruct (IH (with_backends r (update_backend n disconnect (r_backends r)))) as (H1 & H2 & H3 & H4).
    rewrite H1, H2, H3, H4. simpl. rewrite keys_update_backend, tools_update_disconnect. auto.
  - simpl. rewrite keys_update_backend, tools_update_disconnect. auto.
Qed.

Lemma stop_loop_ok (close : string -> result unit) (names : list string) (r : Registry) :
  fst (stop_loop close names r) = Ok tt ->
  NoDup (map fst (r_backends r)) ->
  (forall n, n ∈ names -> n ∈ map fst (r_backends r)) ->
  (forall k b, (k, b) ∈ r_backends r -> b_connected b = false \/ k ∈ names) ->
  forall k b, (k, b) ∈ r_backends (snd (stop_loop close names r)) -> b_connected b = false.
Proof.
  revert r. induction names as [| n rest IH]; intros r Hs Hnd Hkeys Hinv; simpl in Hs |- *.
  - intros k b Hin. destruct (Hinv k b Hin) as [H | H]; [exact H | apply elem_of_nil in H; contradiction].
  - destruct (lookup_backend_key n (r_backends r) (Hkeys n ltac:(left))) as [b Hb]. rewrite Hb in Hs |- *.
    destruct (b_connected b) eqn:Hc.
    + destruct (close n) as [u |]; [| discriminate].
      apply IH; [exact Hs | simpl; rewrite keys_update_backend; exact Hnd | |].
      * intros m Hm. simpl. rewrite keys_update_backend. apply Hkeys. right. exact Hm.
      * intros k b1 Hin. simpl in Hin. apply elem_of_update_backend in Hin as (b0 & Hin & ->).
        destruct (String.eqb n k) eqn:E; [left; reflexivity |].
        destruct (Hinv k b0 Hin) as [H | H]; [left; exact H |].
        apply elem_of_cons in H as [-> | H]; [rewrite String.eqb_refl in E; discriminate | right; exact H].
    + apply IH; [exact Hs | exact Hnd | intros m Hm; apply Hkeys; right; exact Hm |].
      intros k b0 Hin. destruct (Hinv k b0 Hin) as [H | H]; [left; exact H |].
      apply elem_of_cons in H as [-> | H]; [| right; exact H].
      left. rewrite (lookup_backend_nodup n b0 _ Hnd Hin) in Hb. injection Hb as ->. exact Hc.
Qed.

Lemma stop_loop_err (close : string -> result unit) (names : list string) (r : Registry) (e : error) :
  fst (stop_loop close names r) = Err e ->
  exists n b, e = ErrDisconnect n /\ lookup_backend n (r_backends r) = Some b /\
    b_connected b = true /\ is_ok (close n) = false.
Proof.
  revert r. induction names as [| n rest IH]; intros r Hs; simpl in Hs; [discriminate |].
  destruct (lookup_backend n (r_backends r)) as [b |] eqn:Hb; [| discriminate].
  destruct (b_connected b) eqn:Hc; [| exact (IH r Hs)].
  destruct (close n) as [u |] eqn:Hcl.
  - destruct (IH _ Hs) as (n' & b' & He & Hb' & Hc' & Hcl').
    simpl in Hb'. rewrite lookup_update_backend in Hb'.
    destruct (String.eqb n' n) eqn:E.
    + apply String.eqb_eq in E. subst n'. rewrite Hb in Hb'. injection Hb' as <-. discriminate.
    + exists n', b'. auto.
  - simpl in Hs. injection Hs as <-. exists n, b. rewrite Hcl. auto.
Qed.
End RegistryFacts.

(** X9: [HealthCheck] follows the registry lifecycle: after a successful
    [Start] it reports healthy (every backend connected); after a failed
    [Start] of a stopped registry, and after any [Stop], it reports
    [ErrNotStarted]. *)
Theorem X9_health_check_lifecycle (servers : MCPServers) (close : string -> result unit) (r : Registry) :
  (forall r', Start servers r = (Ok tt, r') -> HealthCheck r' = Ok tt) /\
  (forall e r', r_started r = false -> Start servers r = (Err e, r') -> HealthCheck r' = Err ErrNotStarted) /\
  HealthCheck (snd (Stop close r)) = Err ErrNotStarted.
Proof.
  split; [| split].
  - intros r' Hs. unfold Start in Hs. destruct (r_started r) eqn:Hst; [discriminate |].
    destruct (start_loop_ok servers _ [] _ r' Hs) as [Hst' Hall].
    + intros n Hn. exact Hn.
    + intros k b Hin. right. apply list_elem_of_fmap. exists (k, b). split; [reflexivity | exact Hin].
    + unfold HealthCheck. rewrite Hst'. simpl.
      destruct (first_disconnected (r_backends r')) eqn:Hf; [| reflexivity].
      assert (Hn : first_disconnected (r_backends r') = None) by (apply first_disconnected_none; exact Hall).
      congruence.
  - intros e r' Hst Hs. unfold Start in Hs. rewrite Hst in Hs.
    unfold HealthCheck. rewrite (start_loop_err_not_started _ _ _ _ _ _ Hs). reflexivity.
  - unfold Stop. destruct (r_started r) eqn:Hst; simpl.
    + destruct (stop_loop_frame close (map fst (r_backends r)) (with_started r false)) as [H1 _].
      unfold HealthCheck. rewrite H1. reflexivity.
    + unfold HealthCheck. rewrite Hst. reflexivity.
Qed.

(** X10: [Registry.Stop] is a no-op on a registry that is not started.
    Otherwise it clears the started flag and keeps the index, the backend
    names and their tool snapshots; if it succeeds every backend is left
    disconnected. It fails only when closing the session of a connected
    backend fails, with [ErrDisconnect] naming that backend, and then the
    registry counts as stopped: a second [Stop] succeeds at once and
    disconnects nothing more. (A registry that is not started may so still
    hold connected backends, so the disconnection is stated for a started
    registry with distinct backend names, as a Go map has.) *)
Theorem X10_stop_behaviour (close : string -> result unit) (r : Registry) :
  (r_started r = false -> Stop close r = (Ok tt, r)) /\
  (r_started (snd (Stop close r)) = false /\ r_index (snd (Stop close r)) = r_index r /\
   map fst (r_backends (snd (Stop close r))) = map fst (r_backends r) /\
   map (fun nb => b_tools (snd nb)) (r_backends (snd (Stop close r))) =
     map (fun nb => b_tools (snd nb)) (r_backends r)) /\
  (r_started r = true -> NoDup (map fst (r_backends r)) -> fst (Stop close r) = Ok tt ->
   forall k b, (k, b) ∈ r_backends (snd (Stop close r)) -> b_connected b = false) /\
  (forall e, fst (Stop close r) = Err e ->
   exists n b, e = ErrDisconnect n /\ lookup_backend n (r_backends r) = Some b /\
     b_connected b = true /\ is_ok (close n) = false /\
     Stop close (snd (Stop close r)) = (Ok tt, snd (Stop close r))).
Proof.
  assert (Hfr : r_started (snd (Stop close r)) = false /\ r_index (snd (Stop close r)) = r_index r /\
    map fst (r_backends (snd (Stop close r))) = map fst (r_backends r) /\
    map (fun nb => b_tools (snd nb)) (r_backends (snd (Stop close r))) =
      map (fun nb => b_tools (snd nb)) (r_backends r)).
  { unfold Stop. destruct (r_started r) eqn:Hst; simpl; [| auto].
    exact (stop_loop_frame close (map fst (r_backends r)) (with_started r false)). }
  split; [| split; [exact Hfr | split]].
  - intros Hst. unfold Stop. rewrite Hst. reflexivity.
  - intros Hst Hnd Hok. unfold Stop in Hok |- *. rewrite Hst in Hok |- *. simpl in Hok |- *.
    apply stop_loop_ok; [exact Hok | exact Hnd | intros n Hn; exact Hn |].
    intros k b Hin. right. apply list_elem_of_fmap. exists (k, b). split; [reflexivity | exact Hin].
  - intros e Herr. unfold Stop in Herr. destruct (r_started r) eqn:Hst; simpl in Herr; [| discriminate].
    destruct (stop_loop_err close _ _ e Herr) as (n & b & He & Hb & Hc & Hcl).
    exists n, b. split; [exact He |]. split; [exact Hb |]. split; [exact Hc |]. split; [exact Hcl |].
    destruct Hfr as [Hst' _]. unfold Stop at 1. rewrite Hst'. reflexivity.
Qed.

Lemma lookup_backend_app_fresh (n : string) (b : mcpBackend) (bs : list (string * mcpBackend)) :
  lookup_backend n bs = None -> lookup_backend n (bs ++ [(n, b)]) = Some b.
Proof.
  induction bs as [| [k b0] bs IH]; simpl; intros H; [rewrite String.eqb_refl; reflexivity |].
  destruct (String.eqb n k); [discriminate | exact (IH H)].
Qed.

Lemma lookup_backend_none_key (n : string) (bs : list (string * mcpBackend)) :
  lookup_backend n bs = None -> n ∉ map fst bs.
Proof. intros H Hin. destruct (lookup_backend_key n bs Hin) as [b Hb]. congruence. Qed.

Lemma keys_app_fresh_nodup (n : string) (b : mcpBackend) (bs : list (string * mcpBackend)) :
  lookup_backend n bs = None -> NoDup (map fst bs) -> NoDup (map fst (bs ++ [(n, b)])).
Proof.
  intros Hl Hnd. rewrite map_app. simpl. apply NoDup_app. split; [exact Hnd |]. split.
  - intros x Hx Hx'. apply list_elem_of_singleton in Hx'. subst x.
    exact (lookup_backend_none_key n bs Hl Hx).
  - apply NoDup_singleton.
Qed.

(** X11: [Registry.RegisterMCP] rejects a blank name with
    [ErrInvalidRequest] and a name already registered, both without any
    change. Every call keeps the started flag and the backend names
    distinct. On a stopped registry a new name is added as a disconnected
    backend; on a started one it is connected at once, and if that connect
    fails the call fails with [ErrConnect] but the backend stays registered,
    disconnected, so that [HealthCheck] now fails and registering the name
    again is refused as a duplicate. *)
Theorem X11_register_mcp (TrimSpace : string -> string) (servers : MCPServers) (name : string)
    (r : Registry) :
  (TrimSpace name = "" -> RegisterMCP TrimSpace servers name r = (Err ErrInvalidRequest, r)) /\
  (TrimSpace name <> "" -> lookup_backend name (r_backends r) <> None ->
   RegisterMCP TrimSpace servers name r = (Err (ErrOther ("backend " ++ name ++ " already registered")), r)) /\
  (forall res r', RegisterMCP TrimSpace servers name r = (res, r') ->
   r_started r' = r_started r /\ (NoDup (map fst (r_backends r)) -> NoDup (map fst (r_backends r')))) /\
  (forall r', RegisterMCP TrimSpace servers name r = (Ok tt, r') ->
   exists b, lookup_backend name (r_backends r') = Some b /\ b_connected b = r_started r) /\
  (TrimSpace name <> "" -> lookup_backend name (r_backends r) = None -> r_started r = false ->
   RegisterMCP TrimSpace servers name r =
     (Ok tt, with_backends r (r_backends r ++ [(name, mkMcpBackend false [])]))) /\
  (TrimSpace name <> "" -> lookup_backend name (r_backends r) = None -> r_started r = true ->
   is_ok (servers name) = false ->
   exists r', RegisterMCP TrimSpace servers name r = (Err (ErrConnect name), r') /\
     r_index r' = r_index r /\ lookup_backend name (r_backends r') = Some (mkMcpBackend false []) /\
     is_ok (HealthCheck r') = false /\
     RegisterMCP TrimSpace servers name r' =
       (Err (ErrOther ("backend " ++ name ++ " already registered")), r')).
Proof.
  unfold RegisterMCP. split; [| split; [| split; [| split; [| split]]]].
  - intros H. rewrite H. reflexivity.
  - intros H1 H2. apply String.eqb_neq in H1. rewrite H1.
    destruct (lookup_backend name (r_backends r)); [reflexivity | contradiction].
  - intros res r' Hs. destruct (String.eqb (TrimSpace name) "");
      [injection Hs as _ <-; auto |].
    destruct (lookup_backend name (r_backends r)) as [b0 |] eqn:Hl; [injection Hs as _ <-; auto |].
    simpl in Hs. destruct (r_started r) eqn:Hst.
    + destruct (connect servers name (mkMcpBackend false [])) as [b' |].
      * destruct (RegisterToolsFromMCP _ name (b_tools b')) as [[u |] idx'];
          injection Hs as _ <-; simpl; rewrite ?keys_update_backend;
          split; [exact Hst | apply keys_app_fresh_nodup; exact Hl | exact Hst | apply keys_app_fresh_nodup; exact Hl].
      * injection Hs as _ <-. simpl. split; [exact Hst | apply keys_app_fresh_nodup; exact Hl].
    + injection Hs as _ <-. simpl. split; [exact Hst | apply keys_app_fresh_nodup; exact Hl].
  - intros r' Hs. destruct (String.eqb (TrimSpace name) ""); [discriminate |].
    destruct (lookup_backend name (r_backends r)) as [b0 |] eqn:Hl; [discriminate |].
    simpl in Hs. destruct (r_started r) eqn:Hst.
    + destruct (connect servers name (mkMcpBackend false [])) as [b' |] eqn:Hc; [| discriminate].
      destruct (RegisterToolsFromMCP _ name (b_tools b')) as [[u |] idx']; [| discriminate].
      injection Hs as <-. simpl. rewrite lookup_update_backend, String.eqb_refl, lookup_backend_app_fresh by exact Hl.
      exists b'. split; [reflexivity |]. unfold connect in Hc. simpl in Hc.
      destruct (servers name); [injection Hc as <-; reflexivity | discriminate].
    + injection Hs as <-. simpl. rewrite lookup_backend_app_fresh by exact Hl.
      eexists. split; reflexivity.
  - intros H1 H2 H3. apply String.eqb_neq in H1. rewrite H1, H2. simpl. rewrite H3. reflexivity.
  - intros H1 H2 H3 H4. apply String.eqb_neq in H1. rewrite H1, H2. simpl. rewrite H3.
    unfold connect. simpl. destruct (servers name) as [ts | e]; [discriminate |].
    eexists. split; [reflexivity |]. simpl. split; [reflexivity |].
    assert (Hl' : lookup_backend name (r_backends r ++ [(name, mkMcpBackend false [])]) =
                  Some (mkMcpBackend false [])) by (apply lookup_backend_app_fresh; exact H2).
    split; [exact Hl' |]. split.
    + unfold HealthCheck. simpl. rewrite H3. simpl.
      destruct (first_disconnected _) eqn:Hf; [reflexivity |].
      apply first_disconnected_none with (k := name) (b := mkMcpBackend false []) in Hf;
        [discriminate | apply lookup_backend_elem; exact Hl'].
    + simpl. rewrite Hl'. reflexivity.
Qed.

Lemma ProviderID_nonempty (name version : string) : name <> "" -> ProviderID name version <> "".
Proof.
  unfold ProviderID. intros Hn. apply String.eqb_neq in Hn as Hn'. rewrite Hn'.
  destruct (String.eqb version ""); [exact Hn |]. destruct name; [contradiction | discriminate].
Qed.

(** X12: [InMemoryStore.RegisterProvider] never fails with
    [ErrInvalidProviderID]: a provider with a name always resolves to a
    non-empty id. It fails only for an empty provider name, with
    [ErrInvalidProvider], leaving the store unchanged; a successful call
    returns a non-empty id and leaves [DescribeProvider] unchanged at every
    other id. *)
Theorem X12_register_provider_frame (s : ProviderStore) :
  (forall id p, fst (RegisterProvider s id p) <> Err ErrInvalidProviderID) /\
  (forall id p e, fst (RegisterProvider s id p) = Err e ->
     e = ErrInvalidProvider /\ p_Name p = "" /\ snd (RegisterProvider s id p) = s) /\
  (forall id p rid s', RegisterProvider s id p = (Ok rid, s') ->
     rid <> "" /\ forall id', id' <> rid -> DescribeProvider s' id' = DescribeProvider s id').
Proof.
  assert (Hres : forall id p, p_Name p <> "" ->
    (if String.eqb id "" then ProviderID (p_Name p) (p_Version p) else id) <> "").
  { intros id p Hn. destruct (String.eqb id "") eqn:E; [exact (ProviderID_nonempty _ _ Hn) |].
    apply String.eqb_neq. exact E. }
  unfold RegisterProvider. split; [| split].
  - intros id p. destruct (String.eqb (p_Name p) "") eqn:En; simpl; [discriminate |].
    apply String.eqb_neq in En. pose proof (Hres id p En) as Hr. apply String.eqb_neq in Hr. rewrite Hr. discriminate.
  - intros id p e. destruct (String.eqb (p_Name p) "") eqn:En; simpl.
    + intros H. injection H as <-. apply String.eqb_eq in En. auto.
    + apply String.eqb_neq in En. pose proof (Hres id p En) as Hr. apply String.eqb_neq in Hr. rewrite Hr. discriminate.
  - intros id p rid s'. destruct (String.eqb (p_Name p) "") eqn:En; [discriminate |].
    apply String.eqb_neq in En. pose proof (Hres id p En) as Hr. apply String.eqb_neq in Hr as Hr'.
    rewrite Hr'. intros H. injection H as <- <-. split; [exact Hr |].
    intros id' Hne. unfold DescribeProvider. destruct (String.eqb id' ""); [reflexivity |].
    rewrite lookup_insert_ne by (intros E; apply Hne; symmetry; exact E). reflexivity.
Qed.

(** X13: [InMemoryStore.ListProviders] returns every stored provider exactly
    once (as a multiset, the providers of the map, one per id), so its
    length is the number of registered ids; [RegisterProvider] never stores
    a provider under the empty id, so [DescribeProvider] of the empty id,
    which always fails with [ErrInvalidProviderID], hides nothing. *)
Theorem X13_list_providers_all (s : ProviderStore) :
  ListProviders s ≡ₚ map snd (map_to_list s) /\ length (ListProviders s) = size s /\
  DescribeProvider s "" = Err ErrInvalidProviderID /\
  (s !! "" = None -> forall id p, (snd (RegisterProvider s id p)) !! "" = None).
Proof.
  assert (Hperm : ListProviders s ≡ₚ map snd (map_to_list s)).
  { unfold ListProviders, ListProviders_in, sort_strings.
    rewrite (Permutation_map (fun id => default zeroProvider (s !! id)) (merge_sort_Permutation str_le (map fst (map_to_list s)))).
    rewrite map_map. apply reflexive_eq. apply map_ext_in. intros [k v] Hin. simpl.
    apply list_elem_of_In, elem_of_map_to_list in Hin. rewrite Hin. reflexivity. }
  split; [exact Hperm |]. split; [| split].
  - rewrite Hperm, length_map. apply length_map_to_list.
  - reflexivity.
  - intros H0 id p. unfold RegisterProvider.
    destruct (String.eqb (p_Name p) "") eqn:En; simpl; [exact H0 |].
    destruct (String.eqb (if String.eqb id "" then ProviderID (p_Name p) (p_Version p) else id) "") eqn:Ei;
      simpl; [exact H0 |].
    apply String.eqb_neq in Ei. rewrite lookup_insert_ne by (exact Ei).
    exact H0.
Qed.

(** X14: a [tools/call] request whose parameters do not decode is answered
    [ErrCodeInvalidParams] with the decoder's error, and that code is given
    for no other request. Once decoded, a tool the index does not have gets
    [ErrCodeToolNotFound]; every failure gets [ErrCodeInvalidParams],
    [ErrCodeToolNotFound] or [ErrCodeToolExecFailed], [ErrCodeToolNotFound]
    exactly for decoded requests whose error is [ErrToolNotFound], and a
    result exactly when [Execute] succeeds. For a tool the index has,
    [ErrCodeToolNotFound] comes only from its local handler returning that
    error on the call's arguments; a missing handler, an MCP server not
    registered, or one registered but not connected are all
    [ErrCodeToolExecFailed] (the last two with [ErrBackendNotFound]). *)
Theorem X14_tools_call_error_codes (unmarshal : Unmarshal) (sprint_v : JValue -> string)
    (getTool : IndexGetTool) (handlers : Handlers) (calls : MCPCalls) (r : Registry) (params : string) :
  (forall msg, unmarshal params = inl msg ->
   handleToolsCall unmarshal sprint_v getTool handlers calls r params =
     RpcError ErrCodeInvalidParams (ErrOther msg)) /\
  (forall v, handleToolsCall unmarshal sprint_v getTool handlers calls r params = RpcResult v <->
   exists cp, unmarshal params = inr cp /\
     Execute sprint_v getTool handlers calls r (tcp_Name cp) (tcp_Arguments cp) = Ok v) /\
  (forall code e, handleToolsCall unmarshal sprint_v getTool handlers calls r params = RpcError code e ->
   (code = ErrCodeInvalidParams <-> exists msg, unmarshal params = inl msg) /\
   (code = ErrCodeToolNotFound <-> (exists cp, unmarshal params = inr cp) /\ is_tool_not_found e = true) /\
   (code = ErrCodeInvalidParams \/ code = ErrCodeToolNotFound \/ code = ErrCodeToolExecFailed)) /\
  (forall cp, unmarshal params = inr cp -> getTool (tcp_Name cp) = None ->
   handleToolsCall unmarshal sprint_v getTool handlers calls r params =
     RpcError ErrCodeToolNotFound (ErrToolNotFound (tcp_Name cp))) /\
  (forall cp t b e, unmarshal params = inr cp -> getTool (tcp_Name cp) = Some (t, b) ->
   handleToolsCall unmarshal sprint_v getTool handlers calls r params = RpcError ErrCodeToolNotFound e ->
   exists n handler, b = LocalBackend n /\ handlers (ToolID t) = Some handler /\
     handler (tcp_Arguments cp) = Err e) /\
  (forall cp t n, unmarshal params = inr cp -> getTool (tcp_Name cp) = Some (t, LocalBackend n) ->
   handlers (ToolID t) = None ->
   handleToolsCall unmarshal sprint_v getTool handlers calls r params =
     RpcError ErrCodeToolExecFailed (ErrHandlerNotFound (ToolID t))) /\
  (forall cp t server, unmarshal params = inr cp -> getTool (tcp_Name cp) = Some (t, MCPBackend server) ->
   (lookup_backend server (r_backends r) = None \/
    exists mb, lookup_backend server (r_backends r) = Some mb /\ b_connected mb = false) ->
   handleToolsCall unmarshal sprint_v getTool handlers calls r params =
     RpcError ErrCodeToolExecFailed ErrBackendNotFound).
Proof.
  unfold handleToolsCall. split; [| split; [| split; [| split; [| split; [| split]]]]].
  - intros msg H. rewrite H. reflexivity.
  - intros v. split.
    + destruct (unmarshal params) as [msg | cp]; [discriminate |].
      destruct (Execute sprint_v getTool handlers calls r (tcp_Name cp) (tcp_Arguments cp)) as [v' | e'] eqn:Ex;
        intros H; [| discriminate].
      injection H as <-. exists cp. split; [reflexivity | exact Ex].
    + intros (cp & Hu & Ex). rewrite Hu, Ex. reflexivity.
  - intros code e H. destruct (unmarshal params) as [msg | cp].
    + injection H as <- <-. split; [| split; [| left; reflexivity]].
      * split; [intros _; exists msg; reflexivity | intros _; reflexivity].
      * split; [discriminate | intros ((cp & Hcp) & _); discriminate Hcp].
    + destruct (Execute sprint_v getTool handlers calls r (tcp_Name cp) (tcp_Arguments cp)) as [v | e'];
        [discriminate |].
      injection H as <- <-. destruct (is_tool_not_found e'); split.
      * split; [discriminate | intros (msg & Hm); discriminate Hm].
      * split; [| right; left; reflexivity].
        split; [intros _; split; [exists cp; reflexivity | reflexivity] | intros _; reflexivity].
      * split; [discriminate | intros (msg & Hm); discriminate Hm].
      * split; [| right; right; reflexivity].
        split; [discriminate | intros (_ & H); discriminate H].
  - intros cp Hu H. rewrite Hu. unfold Execute. rewrite H. reflexivity.
  - intros cp t b e Hu Hg H. rewrite Hu in H. unfold Execute in H. rewrite Hg in H.
    assert (Hno : forall e', RpcError ErrCodeToolExecFailed e' <> RpcError ErrCodeToolNotFound e).
    { intros e' Heq. injection Heq as Hc _. discriminate Hc. }
    destruct b as [n | server | p tid |].
    + exists n. destruct (handlers (ToolID t)) as [handler |]; [| exfalso; exact (Hno _ H)].
      exists handler. split; [reflexivity | split; [reflexivity |]].
      destruct (handler (tcp_Arguments cp)) as [v | e']; [discriminate |].
      destruct (is_tool_not_found e') eqn:E; [injection H as ->; reflexivity |].
      exfalso. exact (Hno e' H).
    + exfalso. destruct (lookup_backend server (r_backends r)) as [mb |]; [| exact (Hno _ H)].
      unfold callTool in H. destruct (negb (b_connected mb)); [exact (Hno _ H) |].
      destruct (calls server (t_Name t) (tcp_Arguments cp)) as [msg | [res |]];
        [exact (Hno _ H) | | discriminate].
      destruct (IsError res); [exact (Hno _ H) | discriminate].
    + exfalso. exact (Hno _ H).
    + exfalso. exact (Hno _ H).
  - intros cp t n Hu Hg Hh. rewrite Hu. unfold Execute. rewrite Hg, Hh. reflexivity.
  - intros cp t server Hu Hg Hb. rewrite Hu. unfold Execute. rewrite Hg.
    destruct Hb as [-> | (mb & -> & Hc)]; [reflexivity |].
    unfold callTool. rewrite Hc. reflexivity.
Qed.

(** ** Order independence of the composite searchers *)

Lemma sf_lt_total_pos x y :
  SFltb (S754_zero false) x = true -> SFltb (S754_zero false) y = true ->
  SFltb x y = false -> SFltb y x = false -> SFeqb x y = true.
Proof.
  destruct x as [sx | sx | | sx mx ex], y as [sy | sy | | sy my ey];
    try destruct sx; try destruct sy; unfold SFltb, SFeqb, SFcompare; simpl;
    try discriminate; try reflexivity; intros; sf_cases.
Qed.

Lemma float_lt_total_pos (x y : float) :
  f_lt f_zero x = true -> f_lt f_zero y = true -> f_lt x y = false -> f_lt y x = false -> f_eq x y = true.
Proof.
  simpl. rewrite !FloatAxioms.ltb_spec, FloatAxioms.eqb_spec. change (Prim2SF 0) with (S754_zero false).
  apply sf_lt_total_pos.
Qed.

Lemma str_lt_antisym (a b : string) : str_lt a b = false -> str_lt b a = false -> a = b.
Proof.
  unfold str_lt. destruct (String.compare a b) eqn:E.
  - intros _ _. apply String.compare_eq_iff. exact E.
  - discriminate.
  - rewrite String.compare_antisym, E. simpl. discriminate.
Qed.

Lemma Permutation_list_filter {A} (P : A -> bool) (l l' : list A) :
  l ≡ₚ l' -> List.filter P l ≡ₚ List.filter P l'.
Proof.
  induction 1 as [| x l l' _ IH | x y l | l l' l'' _ IH1 _ IH2]; simpl.
  - reflexivity.
  - destruct (P x); [apply perm_skip |]; exact IH.
  - destruct (P x), (P y); try reflexivity; apply perm_swap.
  - etransitivity; [exact IH1 | exact IH2].
Qed.

Section OrderIndependence.
Local Open Scope list_scope.
(** The score of a document, once every strategy call has succeeded. *)
Variable score : SearchDoc -> float.

Fixpoint pos_idx (i : nat) (ds : list SearchDoc) : list (scoredDoc float) :=
  match ds with
  | [] => []
  | d :: rest =>
      if f_lt f_zero (score d) then mkScoredDoc i (score d) :: pos_idx (S i) rest else pos_idx (S i) rest
  end.

Definition sd_view (docs : list SearchDoc) (s : scoredDoc float) : SearchDoc * float :=
  (docs !!! sc_idx s, sc_score s).

Definition kept (ds : list SearchDoc) : list (SearchDoc * float) :=
  List.filter (fun p => f_lt f_zero p.2) (map (fun d => (d, score d)) ds).

Definition pswap (b a : SearchDoc * float) : bool :=
  f_lt a.2 b.2 || (f_eq b.2 a.2 && str_lt (sd_ID b.1) (sd_ID a.1)).

Lemma pos_idx_view (pre ds : list SearchDoc) :
  map (sd_view (pre ++ ds)) (pos_idx (length pre) ds) = kept ds.
Proof.
  revert pre. induction ds as [| d ds IH]; intros pre; simpl; [reflexivity |].
  assert (Hrec : map (sd_view (pre ++ d :: ds)) (pos_idx (S (length pre)) ds) = kept ds).
  { specialize (IH (pre ++ [d])). rewrite <- app_assoc, length_app in IH. simpl in IH.
    rewrite Nat.add_1_r in IH. exact IH. }
  unfold kept in *. simpl. destruct (PrimFloat.ltb 0 (score d)); simpl; [| exact Hrec].
  f_equal; [| exact Hrec]. unfold sd_view. simpl. f_equal.
  rewrite list_lookup_total_middle; reflexivity.
Qed.

Lemma swap_needed_view (docs : list SearchDoc) (a b : scoredDoc float) :
  swap_needed docs b a = pswap (sd_view docs b) (sd_view docs a).
Proof. reflexivity. Qed.

Lemma sorted_view (docs : list SearchDoc) (l : list (scoredDoc float)) :
  StronglySorted (fun a b => pswap b a = false) (map (sd_view docs) (sortScoredDocs docs l)).
Proof.
  eapply StronglySorted_map; [| apply sortScoredDocs_sorted_float].
  intros a b H. rewrite <- swap_needed_view. exact H.
Qed.

Lemma kept_elem (ds : list SearchDoc) (p : SearchDoc * float) :
  p ∈ kept ds -> p.1 ∈ ds /\ p.2 = score p.1 /\ f_lt f_zero p.2 = true.
Proof.
  unfold kept. intros H. apply list_elem_of_In, filter_In in H as [H Hp].
  apply list_elem_of_In, list_elem_of_fmap in H as (d & -> & Hd). auto.
Qed.

Lemma kept_antisym (ds : list SearchDoc) (a b : SearchDoc * float) :
  NoDup (map sd_ID ds) -> a ∈ kept ds -> b ∈ kept ds ->
  pswap b a = false -> pswap a b = false -> a = b.
Proof.
  intros Hnd Ha Hb Hba Hab.
  destruct (kept_elem ds a Ha) as (Ha1 & Ha2 & Ha3), (kept_elem ds b Hb) as (Hb1 & Hb2 & Hb3).
  unfold pswap in Hba, Hab. apply orb_false_iff in Hba as [Hba1 Hba2], Hab as [Hab1 Hab2].
  pose proof (float_lt_total_pos _ _ Ha3 Hb3 Hba1 Hab1) as Heq.
  assert (Heq' : f_eq b.2 a.2 = true) by (apply float_eq_sym; exact Heq).
  rewrite Heq in Hab2. rewrite Heq' in Hba2. simpl in Hab2, Hba2.
  pose proof (str_lt_antisym _ _ Hab2 Hba2) as Hid.
  assert (Hd : a.1 = b.1).
  { apply list_elem_of_lookup in Ha1 as (i & Hi), Hb1 as (j & Hj).
    assert (i = j) as ->.
    { eapply NoDup_lookup; [exact Hnd | | ].
      - rewrite list_lookup_fmap, Hi. reflexivity.
      - rewrite list_lookup_fmap, Hj. simpl. rewrite Hid. reflexivity. }
    congruence. }
  destruct a as [da sa], b as [db sb]. simpl in *. subst. reflexivity.
Qed.

Lemma map_truncate {B} (f : scoredDoc float -> B) (limit : Z) (l : list (scoredDoc float)) :
  map f (truncate limit l) =
  if (limit <? Z.of_nat (length (map f l)))%Z then take (Z.to_nat limit) (map f l) else map f l.
Proof. unfold truncate. rewrite length_map. destruct (_ <? _)%Z; [symmetry; apply firstn_map | reflexivity]. Qed.

Lemma build_results_view (docs : list SearchDoc) (st : ScoreType) (l : list (scoredDoc float)) :
  build_results docs st l = map (fun p => mkResult (sd_Summary p.1) p.2 st) (map (sd_view docs) l).
Proof. unfold build_results. rewrite map_map. reflexivity. Qed.

(** The output of the sort-truncate-build pipeline depends only on the
    multiset of kept documents with their scores. *)
Lemma pipeline_perm (docs docs' : list SearchDoc) (st : ScoreType) (limit : Z) :
  docs' ≡ₚ docs -> NoDup (map sd_ID docs) ->
  build_results docs' st (truncate limit (sortScoredDocs docs' (pos_idx 0 docs'))) =
  build_results docs st (truncate limit (sortScoredDocs docs (pos_idx 0 docs))).
Proof.
  intros Hp Hnd.
  assert (Hv : forall ds, map (sd_view ds) (sortScoredDocs ds (pos_idx 0 ds)) ≡ₚ kept ds).
  { intros ds. rewrite <- (pos_idx_view [] ds). simpl. apply Permutation_map, sortScoredDocs_perm. }
  assert (Hk : kept docs' ≡ₚ kept docs).
  { unfold kept. apply Permutation_list_filter, Permutation_map. exact Hp. }
  assert (Heq : map (sd_view docs') (sortScoredDocs docs' (pos_idx 0 docs')) =
                map (sd_view docs) (sortScoredDocs docs (pos_idx 0 docs))).
  { apply (StronglySorted_unique_strong (fun a b => pswap b a = false)).
    - intros x1 x2 H1 H2 H12 H21. rewrite Hv, Hk in H1. rewrite Hv in H2.
      exact (kept_antisym docs x1 x2 Hnd H1 H2 H12 H21).
    - apply sorted_view.
    - apply sorted_view.
    - rewrite Hv, Hv. exact Hk. }
  rewrite !build_results_view, !map_truncate, Heq. reflexivity.
Qed.
End OrderIndependence.

Definition hybrid_doc_score (Normalized : Document -> Document) (h : HybridSearcher float) (q : string)
    (d : SearchDoc) : float :=
  match bm25Strategy h q (Normalized (DocumentFromSearchDoc d)),
        embeddingStrategy h q (Normalized (DocumentFromSearchDoc d)) with
  | Ok b, Ok e => f_add (f_mul (alpha h) b) (f_mul (f_sub f_one (alpha h)) e)
  | _, _ => f_zero
  end.

Definition bm25_doc_score (Normalized : Document -> Document) (s : BM25OnlySearcher float) (q : string)
    (d : SearchDoc) : float :=
  match strategy s q (Normalized (DocumentFromSearchDoc d)) with Ok b => b | Err _ => f_zero end.

Lemma hybrid_score_docs_pos_idx (Normalized : Document -> Document) (h : HybridSearcher float)
    (q : string) (i : nat) (ds : list SearchDoc) (sc : list (scoredDoc float)) :
  hybrid_score_docs Normalized h q i (map DocumentFromSearchDoc ds) = Ok sc ->
  sc = pos_idx (hybrid_doc_score Normalized h q) i ds.
Proof.
  revert i sc. induction ds as [| d ds IH]; intros i sc Hs; simpl in Hs.
  - injection Hs as <-. reflexivity.
  - simpl. unfold hybrid_doc_score at 1 2.
    destruct (bm25Strategy h q (Normalized (DocumentFromSearchDoc d))) as [b |]; [| discriminate].
    destruct (embeddingStrategy h q (Normalized (DocumentFromSearchDoc d))) as [e |]; [| discriminate].
    destruct (hybrid_score_docs Normalized h q (S i) (map DocumentFromSearchDoc ds)) as [sc' |] eqn:Hr;
      [| discriminate].
    injection Hs as <-. rewrite (IH _ _ Hr). reflexivity.
Qed.

Lemma bm25_score_docs_pos_idx (Normalized : Document -> Document) (s : BM25OnlySearcher float)
    (q : string) (i : nat) (ds : list SearchDoc) (sc : list (scoredDoc float)) :
  bm25_score_docs Normalized s q i (map DocumentFromSearchDoc ds) = Ok sc ->
  sc = pos_idx (bm25_doc_score Normalized s q) i ds.
Proof.
  revert i sc. induction ds as [| d ds IH]; intros i sc Hs; simpl in Hs.
  - injection Hs as <-. reflexivity.
  - simpl. unfold bm25_doc_score at 1 2.
    destruct (strategy s q (Normalized (DocumentFromSearchDoc d))) as [b |]; [| discriminate].
    destruct (bm25_score_docs Normalized s q (S i) (map DocumentFromSearchDoc ds)) as [sc' |] eqn:Hr;
      [| discriminate].
    injection Hs as <-. rewrite (IH _ _ Hr). reflexivity.
Qed.

Lemma hybrid_score_docs_ok_iff (Normalized : Document -> Document) (h : HybridSearcher float)
    (q : string) (i : nat) (ds : list SearchDoc) :
  is_ok (hybrid_score_docs Normalized h q i (map DocumentFromSearchDoc ds)) = true <->
  Forall (fun d => is_ok (bm25Strategy h q (Normalized (DocumentFromSearchDoc d))) = true /\
                   is_ok (embeddingStrategy h q (Normalized (DocumentFromSearchDoc d))) = true) ds.
Proof.
  revert i. induction ds as [| d ds IH]; intros i; simpl.
  - split; [constructor | reflexivity].
  - rewrite Forall_cons. rewrite <- (IH (S i)).
    destruct (bm25Strategy h q (Normalized (DocumentFromSearchDoc d))) as [b |]; simpl;
      [| split; [discriminate | intros [[H _] _]; discriminate]].
    destruct (embeddingStrategy h q (Normalized (DocumentFromSearchDoc d))) as [e |]; simpl;
      [| split; [discriminate | intros [[_ H] _]; discriminate]].
    destruct (hybrid_score_docs Normalized h q (S i) (map DocumentFromSearchDoc ds)); simpl;
      [split; [auto | reflexivity] | split; [discriminate | intros [_ H]; discriminate]].
Qed.

Lemma bm25_score_docs_ok_iff (Normalized : Document -> Document) (s : BM25OnlySearcher float)
    (q : string) (i : nat) (ds : list SearchDoc) :
  is_ok (bm25_score_docs Normalized s q i (map DocumentFromSearchDoc ds)) = true <->
  Forall (fun d => is_ok (strategy s q (Normalized (DocumentFromSearchDoc d))) = true) ds.
Proof.
  revert i. induction ds as [| d ds IH]; intros i; simpl.
  - split; [constructor | reflexivity].
  - rewrite Forall_cons. rewrite <- (IH (S i)).
    destruct (strategy s q (Normalized (DocumentFromSearchDoc d))) as [b |]; simpl;
      [| split; [discriminate | intros [H _]; discriminate]].
    destruct (bm25_score_docs Normalized s q (S i) (map DocumentFromSearchDoc ds)); simpl;
      [split; [auto | reflexivity] | split; [discriminate | intros [_ H]; discriminate]].
Qed.

Lemma Forall_perm_iff {A} (P : A -> Prop) (l l' : list A) : l' ≡ₚ l -> Forall P l' <-> Forall P l.
Proof. intros Hp. rewrite !Forall_forall. split; intros H x Hx; apply H; [rewrite Hp | rewrite <- Hp]; exact Hx. Qed.

(** X15: both composite searchers report [Deterministic() == true], and
    indeed their [SearchWithScores] does not depend on the order of the
    documents: for documents with distinct ids, any reordering succeeds
    exactly when the original does, and then returns the same results. *)
Theorem X15_search_order_independent (Normalized : Document -> Document) (h : HybridSearcher float)
    (s : BM25OnlySearcher float) (q : string) (limit : Z) (docs docs' : list SearchDoc) :
  docs' ≡ₚ docs -> NoDup (map sd_ID docs) ->
  is_ok (HybridSearchWithScores Normalized h q limit docs') = is_ok (HybridSearchWithScores Normalized h q limit docs) /\
  (forall rs rs', HybridSearchWithScores Normalized h q limit docs = Ok rs ->
     HybridSearchWithScores Normalized h q limit docs' = Ok rs' -> rs' = rs) /\
  is_ok (BM25OnlySearchWithScores Normalized s q limit docs') = is_ok (BM25OnlySearchWithScores Normalized s q limit docs) /\
  (forall rs rs', BM25OnlySearchWithScores Normalized s q limit docs = Ok rs ->
     BM25OnlySearchWithScores Normalized s q limit docs' = Ok rs' -> rs' = rs).
Proof.
  intros Hp Hnd. unfold HybridSearchWithScores, BM25OnlySearchWithScores, DocumentsFromSearchDocs.
  destruct (limit <=? 0)%Z.
  { split; [reflexivity |]. split; [intros rs rs' H1 H2; congruence |].
    split; [reflexivity | intros rs rs' H1 H2; congruence]. }
  split; [| split; [| split]].
  - pose proof (hybrid_score_docs_ok_iff Normalized h q 0 docs) as H1.
    pose proof (hybrid_score_docs_ok_iff Normalized h q 0 docs') as H2.
    rewrite (Forall_perm_iff _ _ _ Hp) in H2.
    destruct (hybrid_score_docs Normalized h q 0 (map DocumentFromSearchDoc docs)),
             (hybrid_score_docs Normalized h q 0 (map DocumentFromSearchDoc docs')); simpl in *;
      try reflexivity; [apply H2, H1 | symmetry; apply H1, H2]; reflexivity.
  - intros rs rs' E1 E2.
    destruct (hybrid_score_docs Normalized h q 0 (map DocumentFromSearchDoc docs)) as [sc |] eqn:Hs;
      [| discriminate].
    destruct (hybrid_score_docs Normalized h q 0 (map DocumentFromSearchDoc docs')) as [sc' |] eqn:Hs';
      [| discriminate].
    injection E1 as <-. injection E2 as <-.
    rewrite (hybrid_score_docs_pos_idx _ _ _ _ _ _ Hs), (hybrid_score_docs_pos_idx _ _ _ _ _ _ Hs').
    apply pipeline_perm; assumption.
  - pose proof (bm25_score_docs_ok_iff Normalized s q 0 docs) as H1.
    pose proof (bm25_score_docs_ok_iff Normalized s q 0 docs') as H2.
    rewrite (Forall_perm_iff _ _ _ Hp) in H2.
    destruct (bm25_score_docs Normalized s q 0 (map DocumentFromSearchDoc docs)),
             (bm25_score_docs Normalized s q 0 (map DocumentFromSearchDoc docs')); simpl in *;
      try reflexivity; [apply H2, H1 | symmetry; apply H1, H2]; reflexivity.
  - intros rs rs' E1 E2.
    destruct (bm25_score_docs Normalized s q 0 (map DocumentFromSearchDoc docs)) as [sc |] eqn:Hs;
      [| discriminate].
    destruct (bm25_score_docs Normalized s q 0 (map DocumentFromSearchDoc docs')) as [sc' |] eqn:Hs';
      [| discriminate].
    injection E1 as <-. injection E2 as <-.
    rewrite (bm25_score_docs_pos_idx _ _ _ _ _ _ Hs), (bm25_score_docs_pos_idx _ _ _ _ _ _ Hs').
    apply pipeline_perm; assumption.
Qed.

Definition x15_doc (id : string) : SearchDoc :=
  mkSearchDoc id id (mkSummary id id "" "" "" "" [] [] "" []).
Definition x15_hybrid : HybridSearcher float :=
  mkHybridSearcher (fun _ _ => Ok 1%float) (fun _ _ => Ok 1%float) 0.5%float.
Definition x15_bm25 : BM25OnlySearcher float := mkBM25OnlySearcher (fun _ _ => Ok 1%float).

Lemma X15_search_order_independent_witness :
  [x15_doc "b"; x15_doc "a"] ≡ₚ [x15_doc "a"; x15_doc "b"] /\
  NoDup (map sd_ID [x15_doc "a"; x15_doc "b"]) /\
  is_ok (HybridSearchWithScores (fun d => d) x15_hybrid "q" 2 [x15_doc "b"; x15_doc "a"]) =
    is_ok (HybridSearchWithScores (fun d => d) x15_hybrid "q" 2 [x15_doc "a"; x15_doc "b"]) /\
  (forall rs rs', HybridSearchWithScores (fun d => d) x15_hybrid "q" 2 [x15_doc "a"; x15_doc "b"] = Ok rs ->
     HybridSearchWithScores (fun d => d) x15_hybrid "q" 2 [x15_doc "b"; x15_doc "a"] = Ok rs' -> rs' = rs) /\
  is_ok (BM25OnlySearchWithScores (fun d => d) x15_bm25 "q" 2 [x15_doc "b"; x15_doc "a"]) =
    is_ok (BM25OnlySearchWithScores (fun d => d) x15_bm25 "q" 2 [x15_doc "a"; x15_doc "b"]) /\
  (forall rs rs', BM25OnlySearchWithScores (fun d => d) x15_bm25 "q" 2 [x15_doc "a"; x15_doc "b"] = Ok rs ->
     BM25OnlySearchWithScores (fun d => d) x15_bm25 "q" 2 [x15_doc "b"; x15_doc "a"] = Ok rs' -> rs' = rs).
Proof.
  assert (Hp : [x15_doc "b"; x15_doc "a"] ≡ₚ [x15_doc "a"; x15_doc "b"]) by apply perm_swap.
  assert (Hn : NoDup (map sd_ID [x15_doc "a"; x15_doc "b"])) by (apply (bool_decide_unpack _); vm_compute; reflexivity).
  split; [exact Hp |]. split; [exact Hn |].
  exact (X15_search_order_independent (fun d => d) x15_hybrid x15_bm25 "q" 2 _ _ Hp Hn).
Defined.
